(** * The saga tensor / graph core: a shallow embedding and its properties

    The development follows the layout of the C++ sources:
    - [saga.h]            : [Attributes], [Tensors], [Node], [Graph]
    - [src/node.cpp]      : output-shape inference
    - [src/graph.cpp]     : derived input / output tensor sets
    - [src/tensor.cpp]    : tensors, access views, slices, registry, disk I/O
    - [src/cuda/cuda_tensor.cpp] : double-buffered storage

    Conventions.  C++ integers are [Z] with the wrap-around written out
    ([Int.to_int], [Int.to_int64], [Int.to_size_t]).  A [std::shared_ptr] is
    an optional heap location ([None] is [nullptr]).  Operations that can hit
    undefined behaviour, a failed [assert] or [abort()] return a [result]. *)

From Stdlib Require Import ZArith Lia List Ascii.
From stdpp Require Import base gmap sets list strings pretty.

Local Open Scope Z_scope.

(** ** Outcomes of fallible code *)

Inductive fault :=
| NullDeref        (* a null pointer is dereferenced *)
| OutOfBounds      (* an array or vector is indexed outside its extent *)
| DivByZero        (* integer division by zero *)
| AssertFailed     (* [assert(...)] does not hold *)
| Aborted          (* [abort()] is called *)
| AccessViolation. (* memory mapped read-only is written *)

Inductive result (A : Type) :=
| Ok (a : A)
| Crash (f : fault).
Arguments Ok {A} a.
Arguments Crash {A} f.

#[global] Instance result_ret : MRet result := fun A a => Ok a.
#[global] Instance result_bind : MBind result := fun A B k r =>
  match r with
  | Ok a => k a
  | Crash f => Crash f
  end.

#[global] Instance result_fmap : FMap result := fun A B f r =>
  match r with
  | Ok a => Ok (f a)
  | Crash e => Crash e
  end.

(** ** Fixed-width integers *)

Module Int.

Definition wrap_signed (w : Z) (z : Z) : Z :=
  (z + 2 ^ (w - 1)) mod 2 ^ w - 2 ^ (w - 1).

(** conversion to [int], [int64_t], [size_t], [uint32_t] *)
Definition to_int (z : Z) : Z := wrap_signed 32 z.
Definition to_int64 (z : Z) : Z := wrap_signed 64 z.
Definition to_size_t (z : Z) : Z := z mod 2 ^ 64.
Definition to_uint32 (z : Z) : Z := z mod 2 ^ 32.

Definition INT_MIN : Z := - 2 ^ 31.
Definition INT_MAX : Z := 2 ^ 31 - 1.

Definition in_int (z : Z) : Prop := INT_MIN <= z <= INT_MAX.

(** [int] arithmetic; overflow wraps as on the two's complement targets
    the code is built for.  Division truncates toward zero. *)
Definition add (a b : Z) : Z := to_int (a + b).
Definition sub (a b : Z) : Z := to_int (a - b).
Definition mul (a b : Z) : Z := to_int (a * b).
Definition div (a b : Z) : result Z :=
  if Z.eqb b 0 then Crash DivByZero else Ok (to_int (Z.quot a b)).

End Int.

(** ** Scalar data types ([Tensor::DataType], tensor.cpp)

    The switches of tensor.cpp also name [I32], which the enumeration of
    saga.h does not have yet. *)

Inductive DataType := U8 | HALF | FLOAT | INT64 | I32.

#[global] Instance DataType_eq_dec : EqDecision DataType.
Proof. solve_decision. Defined.

Definition DataTypeSize (dt : DataType) : Z :=
  match dt with
  | U8 => 1
  | HALF => 2
  | FLOAT => 4
  | INT64 => 8
  | I32 => 4
  end.

(** A [double] is carried as its IEEE-754 binary64 bit pattern, a [float] as
    its binary32 bit pattern; a storage cell is the bit pattern of one
    element.  [Dims] is [std::vector<int64_t>]. *)
Abbreviation double := Z.
Abbreviation float := Z.
Abbreviation Dims := (list Z).

(** ** Attribute bags (saga.h) *)

(** [typedef std::variant<float, int, std::vector<int>, bool> Attribute] *)
Inductive Attribute :=
| AttrFloat (f : float)
| AttrInt (i : Z)
| AttrIntVec (v : list Z)
| AttrBool (b : bool).

(** The type argument [T] of [get<T>]: one of the variant's alternatives. *)
Inductive AttrType := TFloat | TInt | TIntVec | TBool.

Definition carrier (T : AttrType) : Type :=
  match T with
  | TFloat => float
  | TInt => Z
  | TIntVec => list Z
  | TBool => bool
  end.

Definition alternative (a : Attribute) : AttrType :=
  match a with
  | AttrFloat _ => TFloat
  | AttrInt _ => TInt
  | AttrIntVec _ => TIntVec
  | AttrBool _ => TBool
  end.

Definition inject (T : AttrType) : carrier T -> Attribute :=
  match T with
  | TFloat => AttrFloat
  | TInt => AttrInt
  | TIntVec => AttrIntVec
  | TBool => AttrBool
  end.

(** [std::get_if<T>(&a)]: the held value when [a] holds a [T], else null *)
Definition get_if (T : AttrType) (a : Attribute) : option (carrier T) :=
  match T return option (carrier T) with
  | TFloat => match a with AttrFloat f => Some f | _ => None end
  | TInt => match a with AttrInt i => Some i | _ => None end
  | TIntVec => match a with AttrIntVec v => Some v | _ => None end
  | TBool => match a with AttrBool b => Some b | _ => None end
  end.

Module Attributes.

(** [class Attributes : public std::unordered_map<std::string, Attribute>] *)
Abbreviation t := (gmap string Attribute).

(** [template<typename T> T get(const std::string &n, T def) const].
    The bag after the call is returned next to the value. *)
Definition get (T : AttrType) (n : string) (def : carrier T) (B : t)
  : carrier T * t :=
  match B !! n with
  | None => (def, B)
  | Some a =>
      match get_if T a with
      | None => (def, B)
      | Some p => (p, B)
      end
  end.

End Attributes.

(** ** Scalar conversions and the random source

    [get_float] ... [set_i32] of tensor.cpp are C++ conversions between a
    storage element and [double]; [(int64_t)v] converts a [double] to an
    integer; [GenTensorAccess] owns a [std::normal_distribution<double>] and
    a [std::default_random_engine].  Their floating-point results are fixed
    by the compiler, the hardware and the C++ library, not by the sources, so
    they are the operations of an interface the embedding is written
    against. *)
Class Scalars := {
  get_float : Z -> double;
  get_half : Z -> double;
  get_u8 : Z -> double;
  get_i64 : Z -> double;
  get_i32 : Z -> double;
  set_float : double -> Z;
  set_half : double -> Z;
  set_u8 : double -> Z;
  set_i64 : double -> Z;
  set_i32 : double -> Z;
  (** [(int64_t)v] *)
  double_to_int64 : double -> Z;
  (** state of [distribution_] and [generator_] *)
  rng : Type;
  (** [distribution_(mean, stddev)] with a default-constructed engine *)
  rng_init : double -> double -> rng;
  (** [distribution_(generator_)] *)
  rng_draw : rng -> double * rng
}.

(** ** Pointers, tensors and storages *)

Abbreviation loc := positive.

(** [std::shared_ptr<T>]: [None] is [nullptr] *)
Abbreviation ptr := (option loc).

(** The classes derived from [Tensor] in tensor.cpp.  A [CPUTensor] whose
    storage is a [HostTensorStorage] with [mmaped_] set, the read-only
    mapping of a file, is a [MappedTensor]: [Tensor::load] builds these, and
    their slices share the mapping. *)
Inductive TensorImpl :=
| PlainTensor                                   (* [class Tensor] itself *)
| GenTensor (mean_ stddev_ : double)
| CPUTensor (strides_ : Dims) (storage_ : loc) (offset_ : Z)
| MappedTensor (strides_ : Dims) (storage_ : loc) (offset_ : Z).

Record Tensor := mkTensor {
  name_ : option string;
  data_type_ : DataType;
  dims_ : Dims;
  elements_ : Z;
  impl_ : TensorImpl
}.

(** [elements_from_dims]: an [int64_t] product *)
Definition elements_from_dims (dims : Dims) : Z :=
  fold_left (fun elements d => Int.to_int64 (elements * d)) dims 1.

(** [Tensor::Tensor(data_type, dims, name)] followed by the derived class *)
Definition Tensor_new (data_type : DataType) (dims : Dims)
    (name : option string) (impl : TensorImpl) : Tensor :=
  {| name_ := name; data_type_ := data_type; dims_ := dims;
     elements_ := elements_from_dims dims; impl_ := impl |}.

(** [Tensor::namePostfix] *)
Definition namePostfix (t : Tensor) (postfix : string) : option string :=
  match name_ t with
  | Some n => Some (n +:+ "." +:+ postfix)%string
  | None => None
  end.

(** [TensorStorage]: element type and the memory behind [data_], read as an
    array of elements (one bit pattern per element). *)
Record TensorStorage := mkStorage {
  st_data_type_ : DataType;
  data_ : list Z
}.

(** the heap of [Tensor] objects and the heap of storages *)
Abbreviation theap := (gmap loc Tensor).
Abbreviation sheap := (gmap loc TensorStorage).

(** [*p] on a [shared_ptr] *)
Definition deref {A} (h : gmap loc A) (p : ptr) : result A :=
  match p with
  | None => Crash NullDeref
  | Some l =>
      match h !! l with
      | Some a => Ok a
      | None => Crash NullDeref
      end
  end.

(** [new] / [make_shared]: the object goes to a location not in use *)
Definition alloc {A} (a : A) (h : gmap loc A) : loc * gmap loc A :=
  let l := fresh (dom h) in (l, <[l := a]> h).

(** [v[i]] on a [std::vector] *)
Definition vec_at (v : list Z) (i : nat) : result Z :=
  match v !! i with
  | Some x => Ok x
  | None => Crash OutOfBounds
  end.

Module Tensors.

(** [class Tensors : public std::unordered_map<std::string,
    std::shared_ptr<Tensor>>] *)
Abbreviation t := (gmap string ptr).

(** [get(n)]: [nullptr] when [n] is not a key *)
Definition get (n : string) (m : t) : ptr :=
  match m !! n with
  | Some p => p
  | None => None
  end.

(** [getv(n)]: the loop [for(int i = 0; ; i++)] that collects the entries
    under [n + std::to_string(i)] until a key is absent, with [fuel]
    iterations left; [None] when they are used up.  [getv] gives the loop
    one iteration more than the map has entries. *)
Fixpoint getv_loop (fuel : nat) (n : string) (i : Z) (m : t) : option (list ptr) :=
  match fuel with
  | O => None
  | S fuel' =>
      match m !! (n +:+ pretty i)%string with
      | None => Some []
      | Some p => (fun v => p :: v) <$> getv_loop fuel' n (Int.add i 1) m
      end
  end.

Definition getv (n : string) (m : t) : option (list ptr) :=
  getv_loop (S (size m)) n 0 m.

End Tensors.

(** ** Storage access and access views (tensor.cpp) *)

Section Views.
Context `{Scalars}.

(** [datatype_get] / [datatype_set] *)
Definition datatype_get (dt : DataType) : Z -> double :=
  match dt with
  | U8 => get_u8
  | HALF => get_half
  | FLOAT => get_float
  | INT64 => get_i64
  | I32 => get_i32
  end.

Definition datatype_set (dt : DataType) : double -> Z :=
  match dt with
  | U8 => set_u8
  | HALF => set_half
  | FLOAT => set_float
  | INT64 => set_i64
  | I32 => set_i32
  end.

(** Modelled from the spec: [TensorStorage::get(offset)] and
    [TensorStorage::set(offset, v)] are declared in tensor.h, which is not
    among the sources; they convert between the stored element and a
    double with the [get_] and [set_] functions the constructor of
    [TensorStorage] installs, as [CudaTensorStorage::get] and [set] do
    below with a buffer argument.  Outside the allocation the access is
    undefined. *)
Definition TensorStorage_get (s : TensorStorage) (offset : Z) : result double :=
  match data_ s !! Z.to_nat offset with
  | Some c => Ok (datatype_get (st_data_type_ s) c)
  | None => Crash OutOfBounds
  end.

Definition TensorStorage_set (s : TensorStorage) (offset : Z) (v : double)
  : result TensorStorage :=
  if decide (Z.to_nat offset < length (data_ s))%nat
  then Ok (mkStorage (st_data_type_ s)
             (<[Z.to_nat offset := datatype_set (st_data_type_ s) v]> (data_ s)))
  else Crash OutOfBounds.

(** The two [TensorAccess] classes of tensor.cpp.  A [CPUTensorAccess]
    over the read-only mapping of a file is a [MappedTensorAccess]. *)
Inductive TensorAccess :=
| GenTensorAccess (rank_ : Z) (state : rng)
| CPUTensorAccess (strides_ : Dims) (storage_ : loc) (offset_ : Z)
| MappedTensorAccess (strides_ : Dims) (storage_ : loc) (offset_ : Z).

(** [Tensor::access()], [GenTensor::access()], [CPUTensor::access()] *)
Definition Tensor_access (t : Tensor) : option TensorAccess :=
  match impl_ t with
  | PlainTensor => None
  | GenTensor mean stddev =>
      Some (GenTensorAccess (Z.of_nat (length (dims_ t))) (rng_init mean stddev))
  | CPUTensor strides storage offset =>
      Some (CPUTensorAccess strides storage offset)
  | MappedTensor strides storage offset =>
      Some (MappedTensorAccess strides storage offset)
  end.

(** [CPUTensorAccess::offsetForElement]: a [size_t] accumulator, one
    [int64_t] product per axis, over the axes both vectors have *)
Definition offsetForElement (offset_ : Z) (strides_ element : Dims) : Z :=
  fold_left (fun offset es => Int.to_size_t (offset + Int.to_int64 (es.1 * es.2)))
            (zip element strides_) (Int.to_size_t offset_).

(** [get]: the value, and the view after the call ([GenTensorAccess]
    advances its generator) *)
Definition TensorAccess_get (ta : TensorAccess) (element : Dims) (h : sheap)
  : result (double * TensorAccess) :=
  match ta with
  | GenTensorAccess rank state =>
      let '(v, state') := rng_draw state in
      Ok (v, GenTensorAccess rank state')
  | CPUTensorAccess strides storage offset
  | MappedTensorAccess strides storage offset =>
      s ← deref h (Some storage);
      v ← TensorStorage_get s (offsetForElement offset strides element);
      Ok (v, ta)
  end.

(** [set]: the storages after the call; the view is unchanged.  The store
    into a mapping made with [PROT_READ] faults. *)
Definition TensorAccess_set (ta : TensorAccess) (element : Dims) (value : double)
    (h : sheap) : result sheap :=
  match ta with
  | GenTensorAccess _ _ => Ok h
  | CPUTensorAccess strides storage offset =>
      s ← deref h (Some storage);
      s' ← TensorStorage_set s (offsetForElement offset strides element) value;
      Ok (<[storage := s']> h)
  | MappedTensorAccess strides storage offset =>
      s ← deref h (Some storage);
      Crash AccessViolation
  end.

(** [data()] *)
Definition TensorAccess_data (ta : TensorAccess) (h : sheap) : result (option (list Z)) :=
  match ta with
  | GenTensorAccess _ _ => Ok None
  | CPUTensorAccess strides storage offset
  | MappedTensorAccess strides storage offset =>
      if decide (offset = 0)
      then s ← deref h (Some storage); Ok (Some (data_ s))
      else Crash AssertFailed
  end.

(** The odometer step shared by [stats], [copyFrom] and [sse]:
    [for(j = c.size() - 1; j >= 0; j--) { c[j]++; if(c[j] == dims[j]) c[j]
    = 0; else break; }].  The result of [odometer] is the new coordinate
    and whether the loop ran off the first axis. *)
Fixpoint odometer (dims c : Dims) : result (Dims * bool) :=
  match c with
  | [] => Ok ([], true)
  | x :: c' =>
      '(r, carry) ← odometer (tail dims) c';
      if carry : bool then
        d ← vec_at dims 0;
        let x' := Int.to_int64 (x + 1) in
        if Z.eqb x' d then Ok (0 :: r, true) else Ok (x' :: r, false)
      else Ok (x :: r, false)
  end.

Definition odometer_step (dims c : Dims) : result Dims :=
  '(r, _) ← odometer dims c; Ok r.

(** [p->] on a [std::unique_ptr<TensorAccess>] *)
Definition view_deref (v : option TensorAccess) : result TensorAccess :=
  match v with
  | Some a => Ok a
  | None => Crash NullDeref
  end.

(** The loop of [Tensor::copyFrom], [n] iterations left:
    [dst->set(c_d, src->get(c_s))], then both odometers advance *)
Fixpoint copy_loop (n : nat) (dims_d dims_s : Dims) (dst : option TensorAccess)
    (src : TensorAccess) (c_d c_s : Dims) (h : sheap) : result sheap :=
  match n with
  | O => Ok h
  | S n' =>
      '(v, src') ← TensorAccess_get src c_s h;
      dst_v ← view_deref dst;
      h' ← TensorAccess_set dst_v c_d v h;
      c_d' ← odometer_step dims_d c_d;
      c_s' ← odometer_step dims_s c_s;
      copy_loop n' dims_d dims_s dst src' c_d' c_s' h'
  end.

(** [void Tensor::copyFrom(Tensor &t)] *)
Definition Tensor_copyFrom (this t : Tensor) (h : sheap) : result sheap :=
  match Tensor_access t with
  | None => Ok h
  | Some src =>
      let dst := Tensor_access this in
      if decide (elements_ t = elements_ this) then
        copy_loop (Z.to_nat (elements_ this)) (dims_ this) (dims_ t)
                  dst src
                  (replicate (length (dims_ this)) 0)
                  (replicate (length (dims_ t)) 0) h
      else Crash AssertFailed
  end.

End Views.

(** ** CPU tensors and slices (tensor.cpp) *)

(** [computeCPUStrides]: [int stride = 1]; from the last axis to the first,
    the stride is put in front and multiplied by the axis length.  The
    second component is [stride] after the loop. *)
Fixpoint computeCPUStrides_loop (dims : Dims) : Dims * Z :=
  match dims with
  | [] => ([], 1)
  | d :: ds =>
      let '(strides, stride) := computeCPUStrides_loop ds in
      (stride :: strides, Int.to_int (stride * d))
  end.

Definition computeCPUStrides (dims : Dims) : Dims :=
  (computeCPUStrides_loop dims).1.

(** [HostTensorStorage(data_type, size, strides)]: [calloc] of
    [size[0] * strides[0] * DataTypeSize(data_type)] bytes *)
Definition HostTensorStorage_new (data_type : DataType) (size strides : Dims)
  : result TensorStorage :=
  size0 ← vec_at size 0;
  strides0 ← vec_at strides 0;
  let buffer_size_ := Int.to_size_t (size0 * strides0 * DataTypeSize data_type) in
  Ok (mkStorage data_type
        (replicate (Z.to_nat (buffer_size_ / DataTypeSize data_type)) 0)).

(** [CPUTensor(data_type, size, name)] *)
Definition CPUTensor_new (data_type : DataType) (size : Dims)
    (name : option string) (h : sheap) : result (Tensor * sheap) :=
  let strides := computeCPUStrides size in
  storage ← HostTensorStorage_new data_type size strides;
  let '(l, h') := alloc storage h in
  Ok (Tensor_new data_type size name (CPUTensor strides l 0), h').

(** [CPUTensor::slice(offset, size)]; [Tensor::slice] and
    [GenTensor::slice] for the other classes *)
Definition CPUTensor_slice_offset (offset_ : Z) (strides_ offset : Dims) : Z :=
  fold_left (fun o os => Int.to_int64 (o + Int.to_int64 (os.1 * os.2)))
            (zip offset strides_) offset_.

Definition Tensor_slice (t : Tensor) (offset size : Dims) (h : sheap)
  : result (option Tensor) :=
  match impl_ t with
  | PlainTensor => Ok None
  | GenTensor mean stddev =>
      Ok (Some (Tensor_new (data_type_ t) size (name_ t) (GenTensor mean stddev)))
  | CPUTensor strides storage offset_ =>
      let o := CPUTensor_slice_offset offset_ strides offset in
      s ← deref h (Some storage);
      Ok (Some (Tensor_new (st_data_type_ s) size (namePostfix t "slice")
                  (CPUTensor strides storage o)))
  | MappedTensor strides storage offset_ =>
      let o := CPUTensor_slice_offset offset_ strides offset in
      s ← deref h (Some storage);
      Ok (Some (Tensor_new (st_data_type_ s) size (namePostfix t "slice")
                  (MappedTensor strides storage o)))
  end.

(** ** The tensor registry (tensor.cpp) *)

(** [Tensor::find]: the pointer returned, the registry and the heap after
    the call.  [assert] is compiled in. *)
Definition Tensor_find (data_type : DataType) (size : Dims)
    (init_mean init_stddev : double) (named_tensors : Tensors.t)
    (name : option string) (h : theap)
  : result (ptr * Tensors.t * theap) :=
  let create :=
    let '(l, h') :=
      alloc (Tensor_new data_type size name (GenTensor init_mean init_stddev)) h in
    match name with
    | Some n => Ok (Some l, <[n := Some l]> named_tensors, h')
    | None => Ok (Some l, named_tensors, h')
    end in
  match name with
  | Some n =>
      match named_tensors !! n with
      | Some t =>
          obj ← deref h t;
          if decide (data_type_ obj = data_type) then
            if decide (dims_ obj = size) then Ok (t, named_tensors, h)
            else Crash AssertFailed
          else Crash AssertFailed
      | None => create
      end
  | None => create
  end.

(** ** Nodes and output-shape inference (node.cpp) *)

(** Modelled from the spec: the enumeration [Node::Type] is declared in a
    header that is not among the sources; its members are the operation
    kinds [Node::makeOutputTensor] switches over, and [OTHER] stands for
    the kinds that reach [default:]. *)
Inductive NodeType :=
| CONV | FC | MAXPOOL | AVGPOOL | RESHAPE
| BATCHNORM | SOFTMAX | RELU | DROPOUT | SUM | OTHER.

Record Node := mkNode {
  type_ : NodeType;
  inputs_ : Tensors.t;
  attributes_ : Attributes.t;
  outputs_ : Tensors.t
}.

(** [makeConvOutputTensor]: [Ok None] is [return nullptr]; the tensor is the
    argument of [std::make_shared<Tensor>]. *)
Definition makeConvOutputTensor (th : theap) (name : string) (n : Node)
  : result (option Tensor) :=
  let stride := (Attributes.get TInt "stride" 1 (attributes_ n)).1 in
  let pad := (Attributes.get TInt "pad" 1 (attributes_ n)).1 in
  let dilation := (Attributes.get TInt "dilation" 1 (attributes_ n)).1 in
  match Tensors.get "w" (inputs_ n) with
  | None => Ok None
  | Some pw =>
      match Tensors.get "x" (inputs_ n) with
      | None => Ok None
      | Some px =>
          w ← deref th (Some pw);
          x ← deref th (Some px);
          features ← Int.to_int <$> vec_at (dims_ w) 0;
          filterdim_h ← Int.to_int <$> vec_at (dims_ w) 2;
          filterdim_w ← Int.to_int <$> vec_at (dims_ w) 3;
          inputdim_h ← Int.to_int <$> vec_at (dims_ x) 2;
          inputdim_w ← Int.to_int <$> vec_at (dims_ x) 3;
          q_w ← Int.div
                 (Int.sub (Int.add inputdim_w (Int.mul 2 pad))
                          (Int.add (Int.mul (Int.sub filterdim_w 1) dilation) 1))
                 stride;
          let outputdim_w := Int.add 1 q_w in
          q_h ← Int.div
                 (Int.sub (Int.add inputdim_h (Int.mul 2 pad))
                          (Int.add (Int.mul (Int.sub filterdim_h 1) dilation) 1))
                 stride;
          let outputdim_h := Int.add 1 q_h in
          Ok (Some (Tensor_new (data_type_ x)
                      [1; features; outputdim_h; outputdim_w]
                      (Some name) PlainTensor))
      end
  end.

(** [makePoolingOutputTensor] *)
Definition makePoolingOutputTensor (th : theap) (name : string) (n : Node)
  : result (option Tensor) :=
  let size := (Attributes.get TInt "size" 1 (attributes_ n)).1 in
  let pad := (Attributes.get TInt "pad" 1 (attributes_ n)).1 in
  let stride := (Attributes.get TInt "stride" 1 (attributes_ n)).1 in
  match Tensors.get "x" (inputs_ n) with
  | None => Ok None
  | Some px =>
      x ← deref th (Some px);
      channels ← Int.to_int <$> vec_at (dims_ x) 1;
      inputdim_h ← Int.to_int <$> vec_at (dims_ x) 2;
      inputdim_w ← Int.to_int <$> vec_at (dims_ x) 3;
      q_h ← Int.div (Int.sub (Int.add inputdim_h (Int.mul 2 pad)) size) stride;
      let outputdim_h := Int.add 1 q_h in
      q_w ← Int.div (Int.sub (Int.add inputdim_w (Int.mul 2 pad)) size) stride;
      let outputdim_w := Int.add 1 q_w in
      Ok (Some (Tensor_new (data_type_ x)
                  [1; channels; outputdim_h; outputdim_w]
                  (Some name) PlainTensor))
  end.

(** [makeFCOutputTensor] *)
Definition makeFCOutputTensor (th : theap) (name : string) (n : Node)
  : result (option Tensor) :=
  match Tensors.get "w" (inputs_ n) with
  | None => Ok None
  | Some pw =>
      w ← deref th (Some pw);
      w0 ← vec_at (dims_ w) 0;
      Ok (Some (Tensor_new (data_type_ w) [1; w0] (Some name) PlainTensor))
  end.

(** [makeOutputTensorFromBlueprint] *)
Definition makeOutputTensorFromBlueprint (th : theap) (name blueprint : string)
    (n : Node) : result (option Tensor) :=
  match Tensors.get blueprint (inputs_ n) with
  | None => Ok None
  | Some po =>
      o ← deref th (Some po);
      Ok (Some (Tensor_new (data_type_ o) (dims_ o) (Some name) PlainTensor))
  end.

Section Reshape.
Context `{Scalars}.

(** The loop of [makeReshapeOutputTensor]:
    [for(int64_t i = 0; i < shape->dims_[0]; i++)
       dims.push_back(ta->get({i}));] with [n] iterations left *)
Fixpoint reshape_loop (n : nat) (i : Z) (ta : option TensorAccess)
    (dims : Dims) (sh : sheap) : result Dims :=
  match n with
  | O => Ok dims
  | S n' =>
      a ← view_deref ta;
      '(v, a') ← TensorAccess_get a [i] sh;
      reshape_loop n' (i + 1) (Some a') (dims ++ [double_to_int64 v]) sh
  end.

(** [makeReshapeOutputTensor] *)
Definition makeReshapeOutputTensor (th : theap) (sh : sheap) (name : string)
    (n : Node) : result (option Tensor) :=
  match Tensors.get "x" (inputs_ n) with
  | None => Ok None
  | Some px =>
      match Tensors.get "shape" (inputs_ n) with
      | None => Ok None
      | Some pshape =>
          shape ← deref th (Some pshape);
          if decide (length (dims_ shape) ≠ 1%nat) then Ok None
          else
            let ta := Tensor_access shape in
            d0 ← vec_at (dims_ shape) 0;
            dims ← reshape_loop (Z.to_nat d0) 0 ta [] sh;
            x ← deref th (Some px);
            Ok (Some (Tensor_new (data_type_ x) dims (Some name) PlainTensor))
      end
  end.

(** [Node::makeOutputTensor]: the switch over the kind, [abort()] on a
    null result, then [outputs_["y"] = y].  The result is the pointer, the
    node and the tensor heap after the call. *)
Definition Node_makeOutputTensor (th : theap) (sh : sheap) (name : string)
    (n : Node) : result (ptr * Node * theap) :=
  y ← match type_ n with
      | CONV => makeConvOutputTensor th name n
      | FC => makeFCOutputTensor th name n
      | MAXPOOL | AVGPOOL => makePoolingOutputTensor th name n
      | RESHAPE => makeReshapeOutputTensor th sh name n
      | BATCHNORM | SOFTMAX | RELU | DROPOUT =>
          makeOutputTensorFromBlueprint th name "x" n
      | SUM => makeOutputTensorFromBlueprint th name "x0" n
      | OTHER => Ok None
      end;
  match y with
  | None => Crash Aborted
  | Some t =>
      let '(l, th') := alloc t th in
      Ok (Some l,
          mkNode (type_ n) (inputs_ n) (attributes_ n)
                 (<["y" := Some l]> (outputs_ n)),
          th')
  end.

End Reshape.

(** ** Graphs (graph.cpp) *)

Record Graph := mkGraph {
  nodes_ : list Node;
  tensors_ : Tensors.t
}.

(** [for(auto &t : m) s.insert(t.second)] and
    [for(auto &t : m) s.erase(t.second)] over one [Tensors] map *)
Definition insert_all (m : Tensors.t) (s : gset ptr) : gset ptr :=
  foldl (fun acc t => {[ t.2 ]} ∪ acc) s (map_to_list m).

Definition erase_all (m : Tensors.t) (s : gset ptr) : gset ptr :=
  foldl (fun acc t => acc ∖ {[ t.2 ]}) s (map_to_list m).

(** [Graph::inputTensors] *)
Definition inputTensors (g : Graph) : gset ptr :=
  let inputs := foldl (fun acc n => insert_all (inputs_ n) acc) ∅ (nodes_ g) in
  foldl (fun acc n => erase_all (outputs_ n) acc) inputs (nodes_ g).

(** [Graph::outputTensors] *)
Definition outputTensors (g : Graph) : gset ptr :=
  let outputs := foldl (fun acc n => insert_all (outputs_ n) acc) ∅ (nodes_ g) in
  foldl (fun acc n => erase_all (inputs_ n) acc) outputs (nodes_ g).

(** the two maps of [Graph::tensorMappings]: a tensor to the
    [(name, node)] pairs that use it *)
Abbreviation TensorMapping := (gmap ptr (list (string * Node))).

(** [for(const auto &t : m)
      usage[t.second].push_back(std::make_pair(t.first, n));] *)
Definition push_back_all (n : Node) (m : Tensors.t) (usage : TensorMapping)
  : TensorMapping :=
  foldl (fun acc t => <[t.2 := default [] (acc !! t.2) ++ [(t.1, n)]]> acc)
        usage (map_to_list m).

(** [Graph::tensorMappings]: [(input_usage, output_usage)] *)
Definition tensorMappings (g : Graph) : TensorMapping * TensorMapping :=
  foldl (fun acc n => (push_back_all n (inputs_ n) acc.1,
                       push_back_all n (outputs_ n) acc.2))
        (∅, ∅) (nodes_ g).

(** ** Raw tensor disk I/O (tensor.cpp) *)

(** Memory is little-endian (the code is x86 only): [n] bytes of [z], least
    significant first, and back. *)
Fixpoint le_encode (n : nat) (z : Z) : list Z :=
  match n with
  | O => []
  | S n' => z mod 256 :: le_encode n' (z / 256)
  end.

Fixpoint le_decode (bs : list Z) : Z :=
  match bs with
  | [] => 0
  | b :: bs' => b + 256 * le_decode bs'
  end.

(** an array of elements seen as bytes, and bytes seen as an array of
    elements of [sz] bytes *)
Definition bytes_of_cells (sz : nat) (cells : list Z) : list Z :=
  flat_map (le_encode sz) cells.

Definition cells_of_bytes (sz : nat) (bytes : list Z) : list Z :=
  map (fun i => le_decode (take sz (drop (i * sz) bytes)))
      (seq 0 (length bytes / sz)).

(** ["sagaT001"] *)
Definition magic : list Z := [115; 97; 103; 97; 84; 48; 48; 49].

(** [TensorDiskType] *)
Definition TENSOR_DISK_FLOAT : Z := 0.
Definition TENSOR_DISK_HALF : Z := 1.

(** [sizeof(TensorDiskHeader)]: [uint8_t magic[8]], the enum (4 bytes) and
    [unsigned int rank], packed *)
Definition sizeof_TensorDiskHeader : Z := 16.

(** the file system: path to content *)
Abbreviation files := (gmap string (list Z)).

(** [mmap(NULL, st.st_size, PROT_READ, MAP_SHARED, fd, 0)] of the file at
    [map_path_]: [map_size_] is [st.st_size] (the [buffer_size_] of the
    storage), [map_data_] the offset of the first element ([d]) in the
    mapping. *)
Record Mapping := mkMapping {
  map_path_ : string;
  map_size_ : nat;
  map_data_ : nat
}.

(** the storages that are mappings *)
Abbreviation mmaps := (gmap loc Mapping).

(** the size of a page, as on the x86 targets of the code *)
Definition PAGE_SIZE : nat := 4096.

(** the end of the page that holds byte [n - 1] *)
Definition page_up (n : nat) : nat := ((n + PAGE_SIZE - 1) / PAGE_SIZE * PAGE_SIZE)%nat.

(** What a shared mapping of [map_size_] bytes shows while the file holds
    [bytes]: the file, then zeros to the end of the last page that the file
    reaches.  Past that page an access raises [SIGBUS]: nothing is there to
    read. *)
Definition mapped_bytes (m : Mapping) (bytes : list Z) : list Z :=
  let visible := Nat.min (map_size_ m) (page_up (length bytes)) in
  take visible (bytes ++ replicate (visible - length bytes) 0).

(** the elements of a storage of type [data_type] that is the mapping [m],
    while the file holds [bytes] *)
Definition mapped_cells (data_type : DataType) (m : Mapping) (bytes : list Z)
  : list Z :=
  cells_of_bytes (Z.to_nat (DataTypeSize data_type))
                 (drop (map_data_ m) (mapped_bytes m bytes)).

(** The storages once the file at [path] holds [bytes]: a mapping is
    [MAP_SHARED], so every storage that maps this file shows the new
    content. *)
Definition remap (path : string) (bytes : list Z) (mm : mmaps) (h : sheap)
  : sheap :=
  map_imap (fun l s =>
              match mm !! l with
              | Some m =>
                  if decide (map_path_ m = path)
                  then Some (mkStorage (st_data_type_ s)
                               (mapped_cells (st_data_type_ s) m bytes))
                  else Some s
              | None => Some s
              end) h.

(** [Tensor::load(path, name)]: the tensor ([None] is [nullptr]), the
    storages and the mappings after the call.  The storage of the loaded
    tensor is the mapping of the file itself, from the first payload byte
    on: it holds the elements the file has now, and follows the file. *)
Definition Tensor_load (path : string) (name : option string) (fs : files)
    (h : sheap) (mm : mmaps) : option Tensor * sheap * mmaps :=
  match fs !! path with
  | None => (None, h, mm)                             (* open fails *)
  | Some mem =>
      let st_size := Z.of_nat (length mem) in
      if st_size <? sizeof_TensorDiskHeader then (None, h, mm)
      else if negb (bool_decide (take 8 mem = magic)) then (None, h, mm)
      else
        let type := le_decode (take 4 (drop 8 mem)) in
        let rank := le_decode (take 4 (drop 12 mem)) in
        match (if Z.eqb type TENSOR_DISK_FLOAT then Some FLOAT
               else if Z.eqb type TENSOR_DISK_HALF then Some HALF
               else None) with
        | None => (None, h, mm)
        | Some data_type =>
            if rank >? 8 then (None, h, mm)
            else if st_size <? sizeof_TensorDiskHeader + rank * 4 then (None, h, mm)
            else
              let dims :=
                map (fun i => le_decode (take 4 (drop (16 + 4 * i) mem)))
                    (seq 0 (Z.to_nat rank)) in
              let strides := computeCPUStrides dims in
              let d := (16 + 4 * Z.to_nat rank)%nat in
              let storage :=
                mkStorage data_type
                  (cells_of_bytes (Z.to_nat (DataTypeSize data_type)) (drop d mem)) in
              let '(l, h') := alloc storage h in
              (Some (Tensor_new data_type dims name (MappedTensor strides l 0)), h',
               <[l := mkMapping path (length mem) d]> mm)
        end
  end.

Section Save.
Context `{Scalars}.

(** [CPUTensorAccess::copyBytesFrom] ([memcpy] into the storage) and
    [GenTensorAccess::copyBytesFrom] *)
Definition TensorAccess_copyBytesFrom (ta : TensorAccess) (element : Dims)
    (data : list Z) (h : sheap) : result sheap :=
  match ta with
  | GenTensorAccess _ _ => Ok h
  | CPUTensorAccess strides storage offset =>
      s ← deref h (Some storage);
      let sz := Z.to_nat (DataTypeSize (st_data_type_ s)) in
      let o := Z.to_nat (Int.to_size_t
                 (offsetForElement offset strides element * DataTypeSize (st_data_type_ s))) in
      let bytes := bytes_of_cells sz (data_ s) in
      if decide (o + length data <= length bytes)%nat then
        Ok (<[storage := mkStorage (st_data_type_ s)
                (cells_of_bytes sz (take o bytes ++ data ++ drop (o + length data) bytes))]> h)
      else Crash OutOfBounds
  | MappedTensorAccess strides storage offset =>
      s ← deref h (Some storage);
      match data with
      | [] => Ok h                                    (* nothing is stored *)
      | _ :: _ => Crash AccessViolation
      end
  end.

(** [bool Tensor::save(path)], every system call succeeding: the result,
    the files and the storages after the call.  [open] with [O_TRUNC]
    empties the file and the two header [write]s follow before anything is
    read from [this]: when [copyFrom] runs, a storage that maps the file at
    [path] shows the new header and zeros.  The last [write] appends what
    [copy] holds.  [copy] lives on the stack: its storage is gone when [save]
    returns. *)
Definition Tensor_save (this : Tensor) (path : string) (h : sheap) (mm : mmaps)
    (fs : files) : result (bool * files * sheap) :=
  match (match data_type_ this with
         | FLOAT => Some TENSOR_DISK_FLOAT
         | HALF => Some TENSOR_DISK_HALF
         | _ => None
         end) with
  | None => Ok (false, fs, h)
  | Some type =>
      let rank := Int.to_uint32 (Z.of_nat (length (dims_ this))) in
      let tdh := magic ++ le_encode 4 type ++ le_encode 4 rank in
      let ondiskdims :=
        flat_map (fun d => le_encode 4 (Int.to_uint32 d))
                 (take (Z.to_nat rank) (dims_ this)) in
      (* [open(path, O_CREAT | O_TRUNC | O_WRONLY)], [write(fd, &tdh, ...)],
         [write(fd, &ondiskdims[0], ...)] *)
      let h0 := remap path (tdh ++ ondiskdims) mm h in
      (* [write(...) != (int)(sizeof(int) * tdh.rank)] *)
      if decide (4 * rank = Int.to_int (4 * rank)) then
        '(copy, h1) ← CPUTensor_new (data_type_ this) (dims_ this) None h0;
        h2 ← Tensor_copyFrom copy this h1;
        ta ← view_deref (Tensor_access copy);
        '(strides0, storage) ← match impl_ copy with
                               | CPUTensor strides storage _ =>
                                   s0 ← vec_at strides 0; Ok (s0, storage)
                               | _ => Crash NullDeref
                               end;
        dims0 ← vec_at (dims_ copy) 0;
        let size := Int.to_size_t (strides0 * dims0 * DataTypeSize (data_type_ this)) in
        data ← TensorAccess_data ta h2;
        let bytes :=
          match data with
          | Some cells =>
              bytes_of_cells (Z.to_nat (DataTypeSize (data_type_ this))) cells
          | None => []
          end in
        if decide (Z.to_nat size <= length bytes)%nat then
          let content := tdh ++ ondiskdims ++ take (Z.to_nat size) bytes in
          let fs' := <[path := content]> fs in
          let h3 := remap path content mm (delete storage h2) in
          (* [write(fd, ta->data(), size) != (int)size] *)
          if decide (size = Int.to_int size) then Ok (true, fs', h3)
          else Ok (false, fs', h3)
        else Crash OutOfBounds
      else Ok (false, <[path := tdh ++ ondiskdims]> fs, h0)
  end.

End Save.

(** ** Tensors of a graph on disk (graph.cpp) *)

(** [PATH_MAX] of <limits.h>, as on Linux *)
Definition PATH_MAX : nat := 4096.

(** [snprintf(filepath, sizeof(filepath), "%s/%s", path, fname)] with
    [char filepath[PATH_MAX]]: what does not fit is cut off *)
Definition filepath (path fname : string) : string :=
  String.substring 0 (PATH_MAX - 1) (path +:+ "/" +:+ fname).

(** [fname[0] == '.'] *)
Definition starts_with_dot (fname : string) : bool :=
  match fname with
  | String c _ => bool_decide (c = "."%char)
  | EmptyString => false
  end.

(** The loop of [Graph::loadTensors] over the names still to visit: the
    registry, the tensor heap, the storages and the mappings after it.  A
    loaded tensor is the argument of [std::make_shared]. *)
Fixpoint loadTensors_loop (names : list string) (path : string)
    (tensors : Tensors.t) (fs : files) (th : theap) (sh : sheap) (mm : mmaps)
  : Tensors.t * theap * sheap * mmaps :=
  match names with
  | [] => (tensors, th, sh, mm)
  | fname :: names' =>
      if starts_with_dot fname then loadTensors_loop names' path tensors fs th sh mm
      else
        match Tensor_load (filepath path fname) (Some fname) fs sh mm with
        | (Some t, sh', mm') =>
            let '(l, th') := alloc t th in
            loadTensors_loop names' path (<[fname := Some l]> tensors) fs th' sh' mm'
        | (None, sh', mm') => loadTensors_loop names' path tensors fs th sh' mm'
        end
  end.

(** [Graph::loadTensors(path)].  [namelist] is what [scandir] delivers for
    the directory, [None] when it fails; [while(n--)] visits it from the
    last name to the first. *)
Definition loadTensors (path : string) (namelist : option (list string))
    (g : Graph) (fs : files) (th : theap) (sh : sheap) (mm : mmaps)
  : Graph * theap * sheap * mmaps :=
  match namelist with
  | None => (g, th, sh, mm)
  | Some names =>
      let '(tensors, th', sh', mm') :=
        loadTensors_loop (reverse names) path (tensors_ g) fs th sh mm in
      (mkGraph (nodes_ g) tensors, th', sh', mm')
  end.

Section SaveTensors.
Context `{Scalars}.

(** The loop of [Graph::saveTensors] over the entries of [tensors_] still
    to visit, with [p == NULL]: [t->info()] reads the tensor, then
    [t->save(filepath)]; the first failure ends the loop. *)
Fixpoint saveTensors_loop (entries : list (string * ptr)) (path : string)
    (th : theap) (sh : sheap) (mm : mmaps) (fs : files)
  : result (bool * files * sheap) :=
  match entries with
  | [] => Ok (true, fs, sh)
  | it :: entries' =>
      t ← deref th it.2;
      '(saved, fs', sh') ← Tensor_save t (filepath path it.1) sh mm fs;
      if saved : bool then saveTensors_loop entries' path th sh' mm fs'
      else Ok (false, fs', sh')
  end.

(** [Graph::saveTensors(path, NULL)], [mkdir] and every other system call
    succeeding *)
Definition saveTensors (g : Graph) (path : string) (th : theap) (sh : sheap)
    (mm : mmaps) (fs : files) : result (bool * files * sheap) :=
  saveTensors_loop (map_to_list (tensors_ g)) path th sh mm fs.

End SaveTensors.

(** ** Double-buffered storage (cuda/cuda_tensor.cpp) *)

Record CudaTensorStorage := mkCudaStorage {
  cuda_data_type_ : DataType;
  num_buffers_ : Z;
  index_ : Z;
  buffers_ : list (list Z)
}.

Module CudaTensorStorage.
Section Ops.
Context `{Scalars}.

(** the entry of [buffers_] that [data(buffer)] returns:
    [(buffer + index_) & (num_buffers_ - 1)] *)
Definition data_slot (s : CudaTensorStorage) (buffer : Z) : Z :=
  Z.land (Int.add buffer (index_ s)) (Int.sub (num_buffers_ s) 1).

(** the entry that [deviceMem(offset, buffer_index)] returns *)
Definition deviceMem_slot (s : CudaTensorStorage) (buffer_index : Z) : Z :=
  Z.land buffer_index (Int.sub (num_buffers_ s) 1).

Definition buffer_at (s : CudaTensorStorage) (slot : Z) : result (list Z) :=
  if decide (0 <= slot) then
    match buffers_ s !! Z.to_nat slot with
    | Some b => Ok b
    | None => Crash OutOfBounds
    end
  else Crash OutOfBounds.

(** [void *data(int buffer) const] *)
Definition data (s : CudaTensorStorage) (buffer : Z) : result (list Z) :=
  buffer_at s (data_slot s buffer).

(** [double get(size_t offset, int buffer = 0) const] *)
Definition get (s : CudaTensorStorage) (offset : Z) (buffer : Z) : result double :=
  b ← data s buffer;
  match b !! Z.to_nat offset with
  | Some c => Ok (datatype_get (cuda_data_type_ s) c)
  | None => Crash OutOfBounds
  end.

(** [void set(size_t offset, double value, int buffer = 0)] *)
Definition set (s : CudaTensorStorage) (offset : Z) (value : double) (buffer : Z)
  : result CudaTensorStorage :=
  b ← data s buffer;
  if decide (Z.to_nat offset < length b)%nat then
    Ok (mkCudaStorage (cuda_data_type_ s) (num_buffers_ s) (index_ s)
          (<[Z.to_nat (data_slot s buffer) :=
               <[Z.to_nat offset := datatype_set (cuda_data_type_ s) value]> b]>
             (buffers_ s)))
  else Crash OutOfBounds.

(** [void flip() { index_++; }] *)
Definition flip (s : CudaTensorStorage) : CudaTensorStorage :=
  mkCudaStorage (cuda_data_type_ s) (num_buffers_ s) (Int.add (index_ s) 1)
                (buffers_ s).

End Ops.
End CudaTensorStorage.

(** Modelled from the spec: [class CudaTensor] is declared in
    cuda_tensor.h, which is not among the sources; the members are those
    its constructors initialise, and the strides are those of its cuDNN
    descriptor. *)
Record CudaTensor := mkCudaTensor {
  cuda_dims_ : Dims;
  cuda_strides_ : Dims;
  cuda_storage_ : loc;
  cuda_offset_ : Z
}.

(** [CudaTensorAccess] *)
Record CudaTensorAccess := mkCudaTensorAccess {
  cta_strides_ : Dims;
  cta_storage_ : loc;
  cta_offset_ : Z
}.

(** [CudaTensorBatchAccess]: [strides_] holds the [rank_] strides of the
    descriptor *)
Record CudaTensorBatchAccess := mkCudaTensorBatchAccess {
  cba_strides_ : Dims;
  cba_storage_ : loc;
  cba_offset_ : Z
}.

Abbreviation cheap := (gmap loc CudaTensorStorage).

Section Cuda.
Context `{Scalars}.

(** [CudaTensor::access()] *)
Definition CudaTensor_access (t : CudaTensor) : CudaTensorAccess :=
  mkCudaTensorAccess (cuda_strides_ t) (cuda_storage_ t) (cuda_offset_ t).

(** [CudaTensorAccess::data()]: [storage_->data(0)], as the entry of
    [buffers_] it is *)
Definition CudaTensorAccess_data_slot (ta : CudaTensorAccess) (h : cheap) : result Z :=
  s ← deref h (Some (cta_storage_ ta));
  Ok (CudaTensorStorage.data_slot s 0).

(** [CudaTensorAccess::get] and [set] *)
Definition CudaTensorAccess_get (ta : CudaTensorAccess) (element : Dims) (h : cheap)
  : result double :=
  s ← deref h (Some (cta_storage_ ta));
  CudaTensorStorage.get s
    (offsetForElement (cta_offset_ ta) (cta_strides_ ta) element) 0.

Definition CudaTensorAccess_set (ta : CudaTensorAccess) (element : Dims)
    (value : double) (h : cheap) : result cheap :=
  s ← deref h (Some (cta_storage_ ta));
  s' ← CudaTensorStorage.set s
         (offsetForElement (cta_offset_ ta) (cta_strides_ ta) element) value 0;
  Ok (<[cta_storage_ ta := s']> h).

(** [int CudaTensor::flip() const]: the result is [index_ & 1] *)
Definition CudaTensor_flip (t : CudaTensor) (h : cheap) : result (Z * cheap) :=
  s ← deref h (Some (cuda_storage_ t));
  let s' := CudaTensorStorage.flip s in
  Ok (Z.land (index_ s') 1, <[cuda_storage_ t := s']> h).

(** the [CudaTensorBatchAccess] that [CudaProgram::issueOps] builds for a
    tensor: its storage, the strides of its descriptor, its offset *)
Definition CudaTensor_batchAccess (t : CudaTensor) : CudaTensorBatchAccess :=
  mkCudaTensorBatchAccess (cuda_strides_ t) (cuda_storage_ t) (cuda_offset_ t).

(** [CudaTensorBatchAccess::get] and [set]: buffer selection 1 *)
Definition CudaTensorBatchAccess_get (ta : CudaTensorBatchAccess) (element : Dims)
    (h : cheap) : result double :=
  s ← deref h (Some (cba_storage_ ta));
  CudaTensorStorage.get s
    (offsetForElement (cba_offset_ ta) (cba_strides_ ta) element) 1.

Definition CudaTensorBatchAccess_set (ta : CudaTensorBatchAccess) (element : Dims)
    (value : double) (h : cheap) : result cheap :=
  s ← deref h (Some (cba_storage_ ta));
  s' ← CudaTensorStorage.set s
         (offsetForElement (cba_offset_ ta) (cba_strides_ ta) element) value 1;
  Ok (<[cba_storage_ ta := s']> h).

End Cuda.

(** ** Vocabulary of the statements *)

(** [p] is an input (an output) of some node of [g] *)
Definition is_input (g : Graph) (p : ptr) : Prop :=
  exists n k, n ∈ nodes_ g /\ inputs_ n !! k = Some p.

Definition is_output (g : Graph) (p : ptr) : Prop :=
  exists n k, n ∈ nodes_ g /\ outputs_ n !! k = Some p.

(** [sum_i c[i] * strides[i]] over the axes both vectors have *)
Definition dot (c strides : Dims) : Z :=
  foldr (fun es acc => es.1 * es.2 + acc) 0 (zip c strides).

(** [c] is a coordinate of a tensor of shape [dims] *)
Definition in_bounds (dims c : Dims) : Prop :=
  Forall2 (fun d x => 0 <= x < d) dims c.

(** A CPU tensor of shape [dims] addresses only its storage of [len]
    elements: one stride per axis, nothing negative, and the last element
    inside the storage (which fits the address space). *)
Definition CPUTensor_wf (dims strides : Dims) (offset len : Z) : Prop :=
  length strides = length dims /\
  0 <= offset /\
  Forall (fun s => 0 <= s) strides /\
  offset + dot (map (fun d => d - 1) dims) strides < len /\
  len <= 2 ^ 63.


(** the number of elements of a tensor of shape [dims] *)
Definition prod (dims : Dims) : Z := foldr Z.mul 1 dims.

(** the packed row-major strides: the stride of an axis is the product of
    the axes after it *)
Fixpoint suffix_products (dims : Dims) : Dims :=
  match dims with
  | [] => []
  | d :: ds => prod ds :: suffix_products ds
  end.

(** the data type is one the disk format has *)
Definition on_disk (dt : DataType) : Prop := dt = FLOAT \/ dt = HALF.

(** [Tensor::load] accepts the file at [path] *)
Definition loadable (path : string) (fs : files) : Prop :=
  (Tensor_load path None fs ∅ ∅).1.1 <> None.

(** the inputs a kind of node cannot do without: the names
    [Node::makeOutputTensor] looks up before it builds anything *)
Definition required_inputs (ty : NodeType) : list string :=
  match ty with
  | CONV => ["w"; "x"]
  | FC => ["w"]
  | MAXPOOL | AVGPOOL => ["x"]
  | RESHAPE => ["x"; "shape"]
  | BATCHNORM | SOFTMAX | RELU | DROPOUT => ["x"]
  | SUM => ["x0"]
  | OTHER => []
  end%string.

Section Observations.
Context `{Scalars}.

(** the values of a 1-D tensor read one by one through a view: [get] at
    [{i}], [{i+1}], ... for [n] elements *)
Fixpoint read_1d (ta : TensorAccess) (i : Z) (n : nat) (sh : sheap)
  : result (list double) :=
  match n with
  | O => Ok []
  | S n' =>
      '(v, ta') ← TensorAccess_get ta [i] sh;
      vs ← read_1d ta' (i + 1) n' sh;
      Ok (v :: vs)
  end.

(** the element of a CPU tensor at a coordinate, as stored *)
Definition Tensor_cell (t : Tensor) (c : Dims) (h : sheap) : option Z :=
  match impl_ t with
  | CPUTensor strides st off
  | MappedTensor strides st off =>
      s ← h !! st;
      data_ s !! Z.to_nat (offsetForElement off strides c)
  | _ => None
  end.

(** the strides, the storage and the offset of a tensor that has data in
    host memory *)
Definition Tensor_storage (t : Tensor) : option (Dims * loc * Z) :=
  match impl_ t with
  | CPUTensor strides st off
  | MappedTensor strides st off => Some (strides, st, off)
  | _ => None
  end.

(** the storage at [st] is the mapping of the file at [path] *)
Definition maps_file (mm : mmaps) (st : loc) (path : string) : Prop :=
  exists m, mm !! st = Some m /\ map_path_ m = path.

(** [n] odometer steps from the coordinate [c] *)
Fixpoint odometer_iter (n : nat) (dims c : Dims) : result Dims :=
  match n with
  | O => Ok c
  | S n' => c' ← odometer_step dims c; odometer_iter n' dims c'
  end.

(** the first [n] values a generator in state [st] draws *)
Fixpoint draws (n : nat) (st : rng) : list double :=
  match n with
  | O => []
  | S n' => let '(v, st') := rng_draw st in v :: draws n' st'
  end.

(** what [copyFrom] stores for the source element at [c0] *)
Definition copied (stridesT : Dims) (offT : Z) (sT : TensorStorage)
    (dtC : DataType) (c0 : Dims) : option Z :=
  c ← data_ sT !! Z.to_nat (offT + dot c0 stridesT);
  Some (datatype_set dtC (datatype_get (st_data_type_ sT) c)).

End Observations.

(** ** Concrete inputs for the examples *)

(** An instance of [Scalars] over integer-valued doubles: a double is the
    integer it holds, an element is stored as that integer modulo the width
    of its type, and the random source is the Lehmer generator
    [x -> 16807 x mod (2^31 - 1)] started at 1. *)
Definition integer_scalars : Scalars := {|
  get_float := fun c => c;
  get_half := fun c => c;
  get_u8 := fun c => c;
  get_i64 := fun c => c;
  get_i32 := fun c => c;
  set_float := fun v => v mod 2 ^ 32;
  set_half := fun v => v mod 2 ^ 16;
  set_u8 := fun v => v mod 2 ^ 8;
  set_i64 := fun v => v mod 2 ^ 64;
  set_i32 := fun v => v mod 2 ^ 32;
  double_to_int64 := fun v => v;
  rng := Z;
  rng_init := fun _ _ => 1;
  rng_draw := fun x => (16807 * x mod (2 ^ 31 - 1), 16807 * x mod (2 ^ 31 - 1))
|}.

(** a convolution node over [x : [batch,3,28,28]] and [w : [8,3,5,5]],
    stride 1, pad 0 *)
Definition conv_heap (batch : Z) : theap :=
  <[1%positive := Tensor_new FLOAT [batch; 3; 28; 28] (Some "x"%string) PlainTensor]>
  (<[2%positive := Tensor_new FLOAT [8; 3; 5; 5] (Some "w"%string) PlainTensor]> ∅).

Definition conv_node : Node :=
  mkNode CONV
    (<["x"%string := Some 1%positive]> (<["w"%string := Some 2%positive]> ∅))
    (<["stride"%string := AttrInt 1]> (<["pad"%string := AttrInt 0]> ∅))
    ∅.

(** The chain [A -> x -> B] over tensors [a = 1], [x = 2], [b = 3]. *)
Definition chain_graph : Graph :=
  mkGraph
    [ mkNode RELU {[ "x"%string := Some 1%positive ]} ∅
                  {[ "y"%string := Some 2%positive ]};
      mkNode RELU {[ "x"%string := Some 2%positive ]} ∅
                  {[ "y"%string := Some 3%positive ]} ]
    ∅.

(** a [2 x 3] float tensor over its own storage, and a tensor of the same
    shape without data *)
Definition grid_tensor : Tensor :=
  Tensor_new FLOAT [2; 3] (Some "t"%string) (CPUTensor [3; 1] 1%positive 0).

Definition grid_heap : sheap :=
  {[ 1%positive := mkStorage FLOAT [10; 11; 12; 13; 14; 15] ]}.

Definition dataless_tensor : Tensor :=
  Tensor_new FLOAT [2; 3] None PlainTensor.

Definition flip_storage : CudaTensorStorage :=
  mkCudaStorage FLOAT 2 0 [[1; 2; 3]; [0; 0; 0]].

Definition flip_tensor : CudaTensor := mkCudaTensor [3] [1] 1%positive 0.

(** a Reshape node: [x] of shape [[2,3]], [shape] a 1-D tensor holding
    [4, 5] *)
Definition reshape_theap : theap :=
  <[1%positive := grid_tensor]>
  (<[2%positive := Tensor_new INT64 [2] (Some "shape"%string)
                     (CPUTensor [1] 2%positive 0)]> ∅).

Definition reshape_sheap : sheap :=
  <[2%positive := mkStorage INT64 [4; 5]]> grid_heap.

Definition reshape_node : Node :=
  mkNode RESHAPE
    (<["x"%string := Some 1%positive]> (<["shape"%string := Some 2%positive]> ∅))
    ∅ ∅.

(** a packed [3 x 2] float tensor over a zero-filled storage of its own,
    next to the storage of [grid_tensor]; a generator-backed [2 x 3]
    tensor *)
Definition flat_tensor : Tensor :=
  Tensor_new FLOAT [3; 2] None (CPUTensor [2; 1] 2%positive 0).

Definition copy_heap : sheap :=
  <[2%positive := mkStorage FLOAT [0; 0; 0; 0; 0; 0]]> grid_heap.

Definition gen_tensor : Tensor :=
  Tensor_new FLOAT [2; 3] None (GenTensor 0 1).

(** a max-pooling node over [x : [4,8,24,24]], window 2, stride 2, pad 0;
    the same node with stride 0 *)
Definition pool_heap : theap :=
  {[ 1%positive := Tensor_new FLOAT [4; 8; 24; 24] (Some "x"%string) PlainTensor ]}.

Definition pool_node (stride : Z) : Node :=
  mkNode MAXPOOL
    {[ "x"%string := Some 1%positive ]}
    (<["size"%string := AttrInt 2]>
       (<["stride"%string := AttrInt stride]> (<["pad"%string := AttrInt 0]> ∅)))
    ∅.

(** the inputs of a node with a numbered family [x0], [x1], and, after a
    gap, [x3] *)
Definition numbered_inputs : Tensors.t :=
  <["x0"%string := Some 1%positive]>
    (<["x1"%string := Some 2%positive]> (<["x3"%string := Some 3%positive]> ∅)).

(** a storage with a single buffer, flipped five times already *)
Definition single_storage : CudaTensorStorage :=
  mkCudaStorage FLOAT 1 5 [[1; 2; 3]].

(** a registry with [grid_tensor] under the name [t], and a directory
    listing with a file [t] that holds the floats [5, 6] *)
Definition saved_graph : Graph :=
  mkGraph [] {[ "t"%string := Some 1%positive ]}.

Definition saved_theap : theap := {[ 1%positive := grid_tensor ]}.

Definition dir_files : files :=
  {[ "dir/t"%string :=
       magic ++ le_encode 4 0 ++ le_encode 4 1
       ++ bytes_of_cells 4 [2] ++ bytes_of_cells 4 [5; 6] ]}.

(** An instance of [Scalars] that differs from [integer_scalars] in the
    conversion of a [float] to [double]: as the conversion instructions of
    the x86 targets do, it sets the quiet bit (bit 22) of a signalling NaN,
    a bit pattern with all exponent bits set, the quiet bit clear and some
    other mantissa bit set. *)
Definition is_signalling_nan (c : Z) : bool :=
  (c / 2 ^ 23 mod 2 ^ 8 =? 255) && (c / 2 ^ 22 mod 2 =? 0)
  && negb (c mod 2 ^ 22 =? 0).

Definition quieting_scalars : Scalars := {|
  get_float := fun c => if is_signalling_nan c then c + 2 ^ 22 else c;
  get_half := fun c => c;
  get_u8 := fun c => c;
  get_i64 := fun c => c;
  get_i32 := fun c => c;
  set_float := fun v => v mod 2 ^ 32;
  set_half := fun v => v mod 2 ^ 16;
  set_u8 := fun v => v mod 2 ^ 8;
  set_i64 := fun v => v mod 2 ^ 64;
  set_i32 := fun v => v mod 2 ^ 32;
  double_to_int64 := fun v => v;
  rng := Z;
  rng_init := fun _ _ => 1;
  rng_draw := fun x => (16807 * x mod (2 ^ 31 - 1), 16807 * x mod (2 ^ 31 - 1))
|}.

(** a float tensor of one element, the signalling NaN [0x7fa00000] *)
Definition nan_tensor : Tensor :=
  Tensor_new FLOAT [1] None (CPUTensor [1] 1%positive 0).

Definition nan_heap : sheap := {[ 1%positive := mkStorage FLOAT [2141192192] ]}.

(** the tensors of [reshape_node] when the shape tensor is a 1-D tensor of
    length 2 without data *)
Definition dataless_shape_theap : theap :=
  <[1%positive := grid_tensor]>
  (<[2%positive := Tensor_new INT64 [2] (Some "shape"%string) PlainTensor]> ∅).

(** * Properties *)

Lemma Ok_inj {A} (a b : A) : Ok a = Ok b -> a = b.
Proof. by intros [= ->]. Qed.

(** ** Integer conversions *)

Lemma to_int_id z : Int.in_int z -> Int.to_int z = z.
Proof.
  unfold Int.in_int, Int.INT_MIN, Int.INT_MAX, Int.to_int, Int.wrap_signed.
  intros Hz. rewrite Z.mod_small; lia.
Qed.

Lemma to_int64_id z : - 2 ^ 63 <= z < 2 ^ 63 -> Int.to_int64 z = z.
Proof.
  unfold Int.to_int64, Int.wrap_signed. intros Hz. rewrite Z.mod_small; lia.
Qed.

Lemma to_size_t_id z : 0 <= z < 2 ^ 64 -> Int.to_size_t z = z.
Proof. unfold Int.to_size_t. intros Hz. apply Z.mod_small; lia. Qed.

Lemma to_uint32_id z : 0 <= z < 2 ^ 32 -> Int.to_uint32 z = z.
Proof. unfold Int.to_uint32. intros Hz. apply Z.mod_small; lia. Qed.

Lemma to_int_range z : Int.in_int (Int.to_int z).
Proof.
  unfold Int.in_int, Int.INT_MIN, Int.INT_MAX, Int.to_int, Int.wrap_signed.
  pose proof (Z.mod_pos_bound (z + 2 ^ (32 - 1)) (2 ^ 32) ltac:(lia)). lia.
Qed.

(** [size_t] and [int64_t] arithmetic agree modulo [2^64]. *)
Lemma to_size_t_to_int64 z : Int.to_size_t (Int.to_int64 z) = Int.to_size_t z.
Proof.
  unfold Int.to_size_t, Int.to_int64, Int.wrap_signed.
  replace (2 ^ 64) with (2 * 2 ^ (64 - 1)) at 2 by lia.
  rewrite <- (Z.add_opp_r _ (2 ^ (64 - 1))).
  rewrite <- Zplus_mod_idemp_l. rewrite Z.mod_mod by lia.
  rewrite Zplus_mod_idemp_l. f_equal. lia.
Qed.

Lemma to_size_t_add_l a b :
  Int.to_size_t (Int.to_size_t a + b) = Int.to_size_t (a + b).
Proof. unfold Int.to_size_t. apply Zplus_mod_idemp_l. Qed.

Lemma to_size_t_add_r a b :
  Int.to_size_t (a + Int.to_size_t b) = Int.to_size_t (a + b).
Proof. unfold Int.to_size_t. apply Zplus_mod_idemp_r. Qed.

Lemma int_add_id a b : Int.in_int (a + b) -> Int.add a b = a + b.
Proof. apply to_int_id. Qed.

Lemma int_sub_id a b : Int.in_int (a - b) -> Int.sub a b = a - b.
Proof. apply to_int_id. Qed.

Lemma int_mul_id a b : Int.in_int (a * b) -> Int.mul a b = a * b.
Proof. apply to_int_id. Qed.

(** Truncating division is the floor when nothing is negative. *)
Lemma int_div_floor a b :
  0 <= a -> 0 < b -> Int.in_int a -> Int.div a b = Ok (a / b).
Proof.
  intros Ha Hb Hin. unfold Int.div.
  destruct (Z.eqb_spec b 0) as [->|_]; [lia|].
  rewrite Z.quot_div_nonneg by lia. f_equal. apply to_int_id.
  unfold Int.in_int, Int.INT_MIN, Int.INT_MAX in *.
  pose proof (Z.div_pos a b Ha Hb). pose proof (Z.div_le_upper_bound a b a Hb).
  nia.
Qed.

Lemma wrap_signed_eqm (w z : Z) :
  0 < w -> exists k, Int.wrap_signed w z = z + 2 ^ w * k.
Proof.
  intros Hw. unfold Int.wrap_signed.
  exists (- ((z + 2 ^ (w - 1)) / 2 ^ w)).
  assert (0 < 2 ^ w) by (apply Z.pow_pos_nonneg; lia).
  rewrite Z.mod_eq by lia. lia.
Qed.

Lemma wrap_signed_mul_l (w a b : Z) :
  0 < w -> Int.wrap_signed w (Int.wrap_signed w a * b) = Int.wrap_signed w (a * b).
Proof.
  intros Hw. destruct (wrap_signed_eqm w a Hw) as [k ->].
  unfold Int.wrap_signed. f_equal.
  replace ((a + 2 ^ w * k) * b + 2 ^ (w - 1))
    with (a * b + 2 ^ (w - 1) + (k * b) * 2 ^ w) by lia.
  apply Z_mod_plus_full.
Qed.

(** ** Attribute bags *)

Lemma get_if_inject T (v : carrier T) : get_if T (inject T v) = Some v.
Proof. destruct T; reflexivity. Qed.

Lemma get_if_Some T a v : get_if T a = Some v -> a = inject T v.
Proof. destruct T, a; simpl; intros Hg; congruence. Qed.

Lemma get_if_alternative T a :
  get_if T a = None <-> alternative a <> T.
Proof. destruct T, a; simpl; split; intros Hg; congruence. Qed.

(** C6.  Typed lookup with default: [get<T>(K, V)] returns the stored value
    when [K] is present and holds a [T]; it returns exactly [V] when [K] is
    absent and when the stored alternative is not [T]; the bag is the same
    after the call in every case. *)
Theorem Attributes_get_silent_default (T : AttrType) (B : Attributes.t)
    (K : string) (V : carrier T) :
  (forall v, B !! K = Some (inject T v) -> (Attributes.get T K V B).1 = v) /\
  (B !! K = None -> (Attributes.get T K V B).1 = V) /\
  (forall a, B !! K = Some a -> alternative a <> T ->
             (Attributes.get T K V B).1 = V) /\
  (Attributes.get T K V B).2 = B.
Proof.
  unfold Attributes.get. repeat split.
  - intros v ->. rewrite get_if_inject. reflexivity.
  - intros ->. reflexivity.
  - intros a Ha Hne. rewrite Ha.
    apply get_if_alternative in Hne. rewrite Hne. reflexivity.
  - destruct (B !! K) as [a|]; [destruct (get_if T a)|]; reflexivity.
Qed.

(** The three cases of C6 on the attributes of [conv_node]: ["stride"]
    holds an [int]; ["dilation"] is absent; ["pad"] holds an [int] and is
    asked for as a [float]. *)
Lemma Attributes_get_silent_default_witness :
  (Attributes.get TInt "stride" 7 (attributes_ conv_node)).1 = 1 /\
  (Attributes.get TInt "dilation" 7 (attributes_ conv_node)).1 = 7 /\
  (Attributes.get TFloat "pad" 7 (attributes_ conv_node)).1 = 7.
Proof.
  split; [|split].
  - apply (Attributes_get_silent_default TInt (attributes_ conv_node) "stride" 7).
    reflexivity.
  - apply (Attributes_get_silent_default TInt (attributes_ conv_node) "dilation" 7).
    reflexivity.
  - apply (Attributes_get_silent_default TFloat (attributes_ conv_node) "pad" 7)
      with (a := AttrInt 0); [reflexivity | discriminate].
Defined.

(** ** Convolution output shape *)

(** One spatial extent as [makeConvOutputTensor] computes it. *)
Lemma conv_outputdim (inputdim pad filterdim dilation stride : Z) :
  0 <= inputdim -> 0 <= pad -> 1 <= filterdim -> 1 <= dilation -> 1 <= stride ->
  inputdim + 2 * pad < Int.INT_MAX ->
  (filterdim - 1) * dilation + 1 <= inputdim + 2 * pad ->
  (q ← Int.div
         (Int.sub (Int.add (Int.to_int inputdim) (Int.mul 2 pad))
                  (Int.add (Int.mul (Int.sub (Int.to_int filterdim) 1) dilation) 1))
         stride;
   Ok (Int.add 1 q))
  = Ok (1 + (inputdim + 2 * pad - ((filterdim - 1) * dilation + 1)) / stride).
Proof.
  intros Hi Hp Hf Hd Hs Hmax Hfit.
  assert (Hprod : 0 <= (filterdim - 1) * dilation) by nia.
  assert (Hfd : filterdim - 1 <= (filterdim - 1) * dilation) by nia.
  unfold Int.INT_MAX in Hmax.
  assert (Hin : forall z, 0 <= z < 2 ^ 31 - 1 -> Int.in_int z).
  { intros z Hz. unfold Int.in_int, Int.INT_MIN, Int.INT_MAX. lia. }
  rewrite (to_int_id inputdim) by (apply Hin; lia).
  rewrite (to_int_id filterdim) by (apply Hin; lia).
  rewrite (int_mul_id 2 pad) by (apply Hin; lia).
  rewrite int_add_id by (apply Hin; lia).
  rewrite (int_sub_id filterdim 1) by (apply Hin; lia).
  rewrite int_mul_id by (apply Hin; lia).
  rewrite int_add_id by (apply Hin; lia).
  rewrite int_sub_id by (apply Hin; lia).
  set (num := inputdim + 2 * pad - ((filterdim - 1) * dilation + 1)).
  assert (Hnum : 0 <= num < 2 ^ 31 - 1) by (unfold num; lia).
  rewrite int_div_floor by (try apply Hin; lia).
  simpl. f_equal. apply int_add_id. apply Hin.
  pose proof (Z.div_pos num stride ltac:(lia) ltac:(lia)).
  pose proof (Z.div_le_upper_bound num stride num ltac:(lia) ltac:(nia)). lia.
Qed.

(** C1 (amended).  For a convolution node whose inputs ["x"] of shape
    [[n,c,h,w]] and ["w"] of shape [[f,c',kh,kw]] are present, with
    [stride >= 1], [pad >= 0], [dilation >= 1] (each 1 when the attribute is
    absent), kernels that fit the padded input and extents within [int],
    output-shape inference produces a tensor of [x]'s data type and of shape
    [[1, f, 1 + floor((h + 2 pad - ((kh-1) dilation + 1)) / stride),
          1 + floor((w + 2 pad - ((kw-1) dilation + 1)) / stride)]]:
    the filter's leading dimension, the spatial formula on height and width,
    and a leading dimension that is the constant 1, whatever [n] is. *)
Theorem makeConvOutputTensor_shape (th : theap) (name : string) (nd : Node)
    (px pw : loc) (x w : Tensor) (n c h wd f c' kh kw : Z) :
  let stride := (Attributes.get TInt "stride" 1 (attributes_ nd)).1 in
  let pad := (Attributes.get TInt "pad" 1 (attributes_ nd)).1 in
  let dilation := (Attributes.get TInt "dilation" 1 (attributes_ nd)).1 in
  Tensors.get "x" (inputs_ nd) = Some px ->
  Tensors.get "w" (inputs_ nd) = Some pw ->
  th !! px = Some x -> th !! pw = Some w ->
  dims_ x = [n; c; h; wd] -> dims_ w = [f; c'; kh; kw] ->
  1 <= stride -> 0 <= pad -> 1 <= dilation ->
  Int.in_int f -> 0 <= h -> 0 <= wd -> 1 <= kh -> 1 <= kw ->
  h + 2 * pad < Int.INT_MAX -> wd + 2 * pad < Int.INT_MAX ->
  (kh - 1) * dilation + 1 <= h + 2 * pad ->
  (kw - 1) * dilation + 1 <= wd + 2 * pad ->
  makeConvOutputTensor th name nd =
    Ok (Some (Tensor_new (data_type_ x)
                [1; f;
                 1 + (h + 2 * pad - ((kh - 1) * dilation + 1)) / stride;
                 1 + (wd + 2 * pad - ((kw - 1) * dilation + 1)) / stride]
                (Some name) PlainTensor)).
Proof.
  intros stride pad dilation Hx Hw Hpx Hpw Hdx Hdw Hs Hp Hd Hf Hh Hwd Hkh Hkw
    Hmh Hmw Hfh Hfw.
  unfold makeConvOutputTensor. fold stride pad dilation.
  clearbody stride pad dilation.
  rewrite Hw, Hx. simpl. rewrite Hpw, Hpx. simpl.
  rewrite Hdw, Hdx. simpl. rewrite (to_int_id f) by done.
  pose proof (conv_outputdim wd pad kw dilation stride
                Hwd Hp Hkw Hd Hs Hmw Hfw) as Ew.
  pose proof (conv_outputdim h pad kh dilation stride
                Hh Hp Hkh Hd Hs Hmh Hfh) as Eh.
  destruct (Int.div _ stride) as [qw|] eqn:Eqw in Ew |- *; [|discriminate].
  simpl in Ew. injection Ew as Ew. simpl.
  destruct (Int.div _ stride) as [qh|] eqn:Eqh in Eh |- *; [|discriminate].
  simpl in Eh. injection Eh as Eh. simpl.
  rewrite Ew, Eh. reflexivity.
Qed.

(** The example of the specification: input [[1,3,28,28]], filter
    [[8,3,5,5]], stride 1, pad 0 give [[1,8,24,24]]. *)
Lemma makeConvOutputTensor_shape_witness :
  makeConvOutputTensor (conv_heap 1) "y" conv_node =
    Ok (Some (Tensor_new FLOAT [1; 8; 24; 24] (Some "y"%string) PlainTensor)).
Proof.
  apply (makeConvOutputTensor_shape (conv_heap 1) "y" conv_node
           1%positive 2%positive
           (Tensor_new FLOAT [1; 3; 28; 28] (Some "x"%string) PlainTensor)
           (Tensor_new FLOAT [8; 3; 5; 5] (Some "w"%string) PlainTensor)
           1 3 28 28 8 3 5 5);
    try reflexivity; vm_compute; try split; congruence.
Defined.

(** C1 as stated fails on the batch dimension: with input [[2,3,28,28]] the
    inferred shape is [[1,8,24,24]], not [[2,8,24,24]]. *)
Lemma makeConvOutputTensor_batch_counterexample :
  exists t,
    makeConvOutputTensor (conv_heap 2) "y" conv_node = Ok (Some t) /\
    dims_ t = [1; 8; 24; 24] /\
    dims_ t <> [2; 8;
                1 + (28 + 2 * 0 - ((5 - 1) * 1 + 1)) / 1;
                1 + (28 + 2 * 0 - ((5 - 1) * 1 + 1)) / 1].
Proof.
  eexists. split; [vm_compute; reflexivity|]. split; [reflexivity|].
  vm_compute. congruence.
Qed.

(** ** Derived input and output tensor sets of a graph *)

Lemma elem_of_insert_all (m : Tensors.t) (s : gset ptr) (p : ptr) :
  p ∈ insert_all m s <-> p ∈ s \/ exists k, m !! k = Some p.
Proof.
  unfold insert_all.
  assert (Hl : forall (l : list (string * ptr)) (acc : gset ptr),
             p ∈ foldl (fun acc t => {[ t.2 ]} ∪ acc) acc l
             <-> p ∈ acc \/ exists k, (k, p) ∈ l).
  { induction l as [|[k q] l IH]; intros acc; simpl.
    - split; [auto|]. intros [Hp|[k Hk]]; [done|]. by apply elem_of_nil in Hk.
    - rewrite IH. split.
      + intros [Hp|[k' Hk']].
        * apply elem_of_union in Hp as [Hp|Hp]; [|auto].
          apply elem_of_singleton in Hp as ->. right. exists k. left.
        * right. exists k'. by right.
      + intros [Hp|[k' Hk']]; [left; apply elem_of_union; by right|].
        apply elem_of_cons in Hk' as [Hk'|Hk'].
        * injection Hk' as -> ->. left. apply elem_of_union. left.
          by apply elem_of_singleton.
        * right. eauto. }
  rewrite Hl. split; intros [Hp|[k Hk]]; auto; right; exists k;
    by apply elem_of_map_to_list.
Qed.

Lemma elem_of_erase_all (m : Tensors.t) (s : gset ptr) (p : ptr) :
  p ∈ erase_all m s <-> p ∈ s /\ ~ exists k, m !! k = Some p.
Proof.
  unfold erase_all.
  assert (Hl : forall (l : list (string * ptr)) (acc : gset ptr),
             p ∈ foldl (fun acc t => acc ∖ {[ t.2 ]}) acc l
             <-> p ∈ acc /\ ~ exists k, (k, p) ∈ l).
  { induction l as [|[k q] l IH]; intros acc; simpl.
    - split; [|tauto]. intros Hp. split; [done|].
      intros [k Hk]. by apply elem_of_nil in Hk.
    - rewrite IH. split.
      + intros [Hp Hn]. apply elem_of_difference in Hp as [Hp Hq].
        split; [done|]. intros [k' Hk'].
        apply elem_of_cons in Hk' as [Hk'|Hk'].
        * injection Hk' as -> ->. apply Hq. by apply elem_of_singleton.
        * apply Hn. eauto.
      + intros [Hp Hn]. split.
        * apply elem_of_difference. split; [done|].
          intros Hq. apply elem_of_singleton in Hq. simpl in Hq. subst q.
          apply Hn. exists k. left.
        * intros [k' Hk']. apply Hn. exists k'. by right. }
  rewrite Hl. split; intros [Hp Hn]; (split; [done|]); intros [k Hk];
    apply Hn; exists k; by apply elem_of_map_to_list.
Qed.

Lemma elem_of_insert_nodes (f : Node -> Tensors.t) (ns : list Node)
    (s : gset ptr) (p : ptr) :
  p ∈ foldl (fun acc n => insert_all (f n) acc) s ns
  <-> p ∈ s \/ exists n k, n ∈ ns /\ f n !! k = Some p.
Proof.
  revert s. induction ns as [|n ns IH]; intros s; simpl.
  - split; [auto|]. intros [Hp|(n & k & Hn & _)]; [done|].
    by apply elem_of_nil in Hn.
  - rewrite IH, elem_of_insert_all. split.
    + intros [[Hp|[k Hk]]|(n' & k & Hn & Hk)]; [by left| |].
      * right. exists n, k. split; [left|done].
      * right. exists n', k. split; [by right|done].
    + intros [Hp|(n' & k & Hn & Hk)]; [by left; left|].
      apply elem_of_cons in Hn as [->|Hn]; [left; right; eauto|].
      right. eauto.
Qed.

Lemma elem_of_erase_nodes (f : Node -> Tensors.t) (ns : list Node)
    (s : gset ptr) (p : ptr) :
  p ∈ foldl (fun acc n => erase_all (f n) acc) s ns
  <-> p ∈ s /\ ~ exists n k, n ∈ ns /\ f n !! k = Some p.
Proof.
  revert s. induction ns as [|n ns IH]; intros s; simpl.
  - split; [|tauto]. intros Hp. split; [done|].
    intros (n & k & Hn & _). by apply elem_of_nil in Hn.
  - rewrite IH, elem_of_erase_all. split.
    + intros [[Hp Hk] Hn]. split; [done|]. intros (n' & k & Hn' & Hk').
      apply elem_of_cons in Hn' as [->|Hn']; [apply Hk; eauto|].
      apply Hn. eauto.
    + intros [Hp Hn]. split; [split; [done|]|].
      * intros [k Hk]. apply Hn. exists n, k. split; [left|done].
      * intros (n' & k & Hn' & Hk'). apply Hn. exists n', k.
        split; [by right|done].
Qed.

(** C7.  [inputTensors()] is exactly the set of tensors that are an input
    of some node and an output of none; [outputTensors()] is exactly the set
    of tensors that are an output of some node and an input of none; a
    tensor that one node produces and another consumes, as [x] in the chain
    [A -> x -> B], is in neither set. *)
Theorem graph_input_output_tensors (g : Graph) (p : ptr) :
  (p ∈ inputTensors g <-> is_input g p /\ ~ is_output g p) /\
  (p ∈ outputTensors g <-> is_output g p /\ ~ is_input g p) /\
  (is_input g p /\ is_output g p ->
   (p ∉ inputTensors g) /\ (p ∉ outputTensors g)).
Proof.
  assert (Hin : p ∈ inputTensors g <-> is_input g p /\ ~ is_output g p).
  { unfold inputTensors, is_input, is_output.
    rewrite elem_of_erase_nodes, elem_of_insert_nodes, elem_of_empty. tauto. }
  assert (Hout : p ∈ outputTensors g <-> is_output g p /\ ~ is_input g p).
  { unfold outputTensors, is_input, is_output.
    rewrite elem_of_erase_nodes, elem_of_insert_nodes, elem_of_empty. tauto. }
  split; [done|]. split; [done|].
  intros [Hi Ho]. rewrite Hin, Hout. tauto.
Qed.

Lemma graph_input_output_tensors_witness :
  (Some 2%positive ∉ inputTensors chain_graph) /\
  (Some 2%positive ∉ outputTensors chain_graph).
Proof.
  apply (graph_input_output_tensors chain_graph (Some 2%positive)). split.
  - eexists _, "x"%string. split; [right; left|]. reflexivity.
  - eexists _, "y"%string. split; [left|]. reflexivity.
Defined.

(** ** The tensor registry *)

Lemma alloc_fresh {A} (a : A) (h : gmap loc A) : h !! (alloc a h).1 = None.
Proof.
  unfold alloc. simpl. apply not_elem_of_dom. apply is_fresh.
Qed.

(** A [find] on a name that is registered to a live tensor: the registered
    pointer when type and shape agree, a failed [assert] otherwise; no
    tensor is created and the registry is left as it was. *)
Lemma Tensor_find_registered D S mean stddev (R : Tensors.t) (N : string)
    (h : theap) (l : loc) (t : Tensor) :
  R !! N = Some (Some l) -> h !! l = Some t ->
  Tensor_find D S mean stddev R (Some N) h =
    if decide (data_type_ t = D /\ dims_ t = S) then Ok (Some l, R, h)
    else Crash AssertFailed.
Proof.
  intros HR Hl. unfold Tensor_find. rewrite HR. simpl. rewrite Hl. simpl.
  destruct (decide (data_type_ t = D)) as [HD|HD];
    [destruct (decide (dims_ t = S)) as [HS|HS]|];
    destruct (decide (data_type_ t = D /\ dims_ t = S)) as [HDS|HDS];
    try reflexivity; tauto.
Qed.

(** C5.  On a registry [R] without the name [N], [find] creates a tensor of
    the requested type and shape at a new location [l], registers [N] to it
    and returns it.  In every later state where [N] is still registered to
    [l], a [find] of [N] whose type and shape equal the registered tensor's
    returns the same pointer [l] and changes neither the registry nor the
    heap; a [find] of [N] with another type or another shape fails its
    [assert]. *)
Theorem Tensor_find_registry_identity D S mean stddev (R : Tensors.t)
    (N : string) (h : theap) :
  R !! N = None ->
  exists l,
    let t := Tensor_new D S (Some N) (GenTensor mean stddev) in
    h !! l = None /\
    Tensor_find D S mean stddev R (Some N) h
      = Ok (Some l, <[N := Some l]> R, <[l := t]> h) /\
    (<[N := Some l]> R) !! N = Some (Some l) /\
    (<[l := t]> h) !! l = Some t /\
    forall (R1 : Tensors.t) (h1 : theap) D' S' mean' stddev',
      R1 !! N = Some (Some l) -> h1 !! l = Some t ->
      (D' = D /\ S' = S ->
       Tensor_find D' S' mean' stddev' R1 (Some N) h1 = Ok (Some l, R1, h1)) /\
      (D' <> D \/ S' <> S ->
       Tensor_find D' S' mean' stddev' R1 (Some N) h1 = Crash AssertFailed).
Proof.
  intros HR. exists (fresh (dom h)). cbv zeta.
  split; [apply not_elem_of_dom, is_fresh|].
  split; [unfold Tensor_find, alloc; rewrite HR; reflexivity|].
  split; [apply lookup_insert_eq|].
  split; [apply lookup_insert_eq|].
  intros R1 h1 D' S' mean' stddev' HR1 Hh1.
  rewrite (Tensor_find_registered D' S' mean' stddev' R1 N h1 _ _ HR1 Hh1).
  cbn [data_type_ dims_ Tensor_new]. split.
  - intros [-> ->]. rewrite decide_True; done.
  - intros Hne. rewrite decide_False; [done|]. intros [-> ->].
    destruct Hne; congruence.
Qed.

Lemma Tensor_find_registry_identity_witness :
  exists l,
    Tensor_find FLOAT [8; 3; 5; 5] 0 1 ∅ (Some "w"%string) ∅
      = Ok (Some l, {[ "w"%string := Some l ]},
            {[ l := Tensor_new FLOAT [8; 3; 5; 5] (Some "w"%string) (GenTensor 0 1) ]}).
Proof.
  destruct (Tensor_find_registry_identity FLOAT [8; 3; 5; 5] 0 1 ∅ "w" ∅)
    as (l & _ & Hfind & _); [reflexivity|].
  exists l. exact Hfind.
Defined.

(** ** Copying from a tensor without data *)

Section CopyFrom.
Context `{Scalars}.

Lemma Tensor_access_None (t : Tensor) :
  Tensor_access t = None <-> impl_ t = PlainTensor.
Proof.
  unfold Tensor_access. destruct (impl_ t); split; intros E; congruence.
Qed.

(** C10.  When [S.access()] is null, [D.copyFrom(S)] returns at once: it
    does not fail, and every storage, so every element of [D], is as it
    was. *)
Theorem Tensor_copyFrom_dataless_source (D S : Tensor) (h : sheap) :
  Tensor_access S = None -> Tensor_copyFrom D S h = Ok h.
Proof. intros HS. unfold Tensor_copyFrom. rewrite HS. reflexivity. Qed.

End CopyFrom.

Lemma Tensor_copyFrom_dataless_source_witness :
  @Tensor_copyFrom integer_scalars grid_tensor dataless_tensor grid_heap
  = Ok grid_heap.
Proof.
  apply (@Tensor_copyFrom_dataless_source integer_scalars). reflexivity.
Defined.

(** ** Double-buffered storage *)

Lemma to_int_mod_2 z : Int.to_int z mod 2 = z mod 2.
Proof.
  unfold Int.to_int, Int.wrap_signed.
  change (2 ^ (32 - 1)) with 2147483648. change (2 ^ 32) with 4294967296.
  pose proof (Z.div_mod (z + 2147483648) 4294967296 ltac:(lia)) as E.
  replace ((z + 2147483648) mod 4294967296 - 2147483648)
    with (z + (- 2147483648 * ((z + 2147483648) / 4294967296)) * 2) by lia.
  apply Z.mod_add. lia.
Qed.

Lemma land_1 z : Z.land z 1 = z mod 2.
Proof. change 1 with (Z.ones 1) at 1. rewrite Z.land_ones by lia. reflexivity. Qed.

Lemma succ_mod_2 z : (z + 1) mod 2 <> z mod 2.
Proof.
  pose proof (Z.mod_pos_bound z 2 ltac:(lia)).
  pose proof (Z.mod_pos_bound (z + 1) 2 ltac:(lia)).
  pose proof (Z.div_mod z 2 ltac:(lia)).
  pose proof (Z.div_mod (z + 1) 2 ltac:(lia)). lia.
Qed.

Section DoubleBuffer.
Context `{Scalars}.

Import CudaTensorStorage.

Lemma data_slot_2 (s : CudaTensorStorage) (buffer : Z) :
  num_buffers_ s = 2 -> data_slot s buffer = (buffer + index_ s) mod 2.
Proof.
  intros Hn. unfold data_slot. rewrite Hn.
  change (Int.sub 2 1) with 1. unfold Int.add.
  rewrite land_1. apply to_int_mod_2.
Qed.

Lemma data_slot_flip_0 (s : CudaTensorStorage) :
  num_buffers_ s = 2 -> data_slot (flip s) 0 = (index_ s + 1) mod 2.
Proof.
  intros Hn. rewrite data_slot_2 by done.
  cbn [flip index_]. unfold Int.add. rewrite Z.add_0_l. apply to_int_mod_2.
Qed.

Lemma data_slot_flip_back (s : CudaTensorStorage) :
  num_buffers_ s = 2 -> data_slot (flip s) (-1) = data_slot s 0.
Proof.
  intros Hn. rewrite !data_slot_2 by done.
  cbn [flip index_]. unfold Int.add.
  rewrite <- Zplus_mod_idemp_r, to_int_mod_2, Zplus_mod_idemp_r.
  f_equal. lia.
Qed.

Lemma deviceMem_slot_flip_back (s : CudaTensorStorage) :
  num_buffers_ s = 2 ->
  deviceMem_slot (flip s) (index_ (flip s) - 1) = data_slot s 0.
Proof.
  intros Hn. rewrite data_slot_2 by done. unfold deviceMem_slot.
  cbn [flip index_ num_buffers_].
  rewrite Hn. change (Int.sub 2 1) with 1. rewrite land_1. unfold Int.add.
  rewrite <- (Z.add_opp_r _ 1), <- Zplus_mod_idemp_l.
  rewrite to_int_mod_2, Zplus_mod_idemp_l.
  f_equal. lia.
Qed.

(** [set] then [get] through the same buffer selection *)
Lemma get_set_same (s s1 : CudaTensorStorage) (offset buffer : Z) (v : double) :
  set s offset v buffer = Ok s1 ->
  get s1 offset buffer
  = Ok (datatype_get (cuda_data_type_ s) (datatype_set (cuda_data_type_ s) v)).
Proof.
  unfold set, get, data, buffer_at. intros Hset.
  destruct (decide (0 <= data_slot s buffer)) as [Hpos|]; [|discriminate].
  destruct (buffers_ s !! Z.to_nat (data_slot s buffer)) as [b|] eqn:Eb;
    [|discriminate].
  simpl in Hset.
  destruct (decide (Z.to_nat offset < length b)%nat) as [Hlt|]; [|discriminate].
  injection Hset as <-. unfold data_slot in *. simpl.
  rewrite decide_True by done.
  rewrite list_lookup_insert_eq by (by eapply lookup_lt_Some).
  simpl. rewrite list_lookup_insert_eq by done. reflexivity.
Qed.

(** C3.  For a storage with two buffers: after [flip()], the view that
    [access()] gives reads and writes the other one of the two physical
    buffers than the view obtained just before; [flip()] leaves both
    buffers as they were, so a value written at any element before the
    flip is read back, after it, through buffer selection [-1] (the
    buffer one step behind the active index) and, for the device, at the
    absolute buffer index [index_ - 1]. *)
Theorem double_buffer_flip (t : CudaTensor) (h : cheap) (s : CudaTensorStorage) :
  h !! cuda_storage_ t = Some s ->
  num_buffers_ s = 2 ->
  exists r s',
    s' = flip s /\
    CudaTensor_flip t h = Ok (r, <[cuda_storage_ t := s']> h) /\
    (* the views before and after address different buffers *)
    (exists b0 b1,
       CudaTensorAccess_data_slot (CudaTensor_access t) h = Ok b0 /\
       CudaTensorAccess_data_slot (CudaTensor_access t)
         (<[cuda_storage_ t := s']> h) = Ok b1 /\
       r = b1 /\ 0 <= b0 <= 1 /\ 0 <= b1 <= 1 /\ b0 <> b1) /\
    (* nothing stored is touched *)
    buffers_ s' = buffers_ s /\
    (forall offset, get s' offset (-1) = get s offset 0) /\
    deviceMem_slot s' (index_ s' - 1) = data_slot s 0 /\
    (* a write before the flip is read back after it *)
    (forall s0 offset v,
       set s0 offset v 0 = Ok s ->
       get s' offset (-1)
       = Ok (datatype_get (cuda_data_type_ s0) (datatype_set (cuda_data_type_ s0) v))).
Proof.
  intros Hs Hn. exists (Z.land (index_ (flip s)) 1), (flip s).
  split; [reflexivity|].
  split; [unfold CudaTensor_flip; simpl; rewrite Hs; reflexivity|].
  assert (Hback : forall offset, get (flip s) offset (-1) = get s offset 0).
  { intros offset. unfold get, data.
    rewrite (data_slot_flip_back s Hn). reflexivity. }
  split.
  - exists (data_slot s 0), (data_slot (flip s) 0).
    unfold CudaTensorAccess_data_slot, CudaTensor_access. simpl.
    rewrite Hs, lookup_insert_eq. simpl.
    split; [reflexivity|]. split; [reflexivity|].
    rewrite data_slot_flip_0, data_slot_2 by done.
    split; [cbn [flip index_]; rewrite land_1; apply to_int_mod_2|].
    pose proof (Z.mod_pos_bound (0 + index_ s) 2 ltac:(lia)).
    pose proof (Z.mod_pos_bound (index_ s + 1) 2 ltac:(lia)).
    split; [lia|]. split; [lia|].
    intros E. apply (succ_mod_2 (index_ s)). rewrite <- E. reflexivity.
  - split; [reflexivity|]. split; [exact Hback|].
    split; [by apply deviceMem_slot_flip_back|].
    intros s0 offset v Hset. rewrite Hback.
    by apply get_set_same.
Qed.

End DoubleBuffer.

Lemma double_buffer_flip_witness :
  CudaTensor_flip flip_tensor {[ 1%positive := flip_storage ]}
  = Ok (1, {[ 1%positive := CudaTensorStorage.flip flip_storage ]}) /\
  @CudaTensorStorage.get integer_scalars
     (CudaTensorStorage.flip flip_storage) 2 (-1) = Ok 3.
Proof.
  destruct (@double_buffer_flip integer_scalars flip_tensor
              {[ 1%positive := flip_storage ]} flip_storage)
    as (r & s' & -> & Hflip & _ & _ & Hback & _); [reflexivity..|].
  split; [reflexivity|]. rewrite Hback. reflexivity.
Defined.

(** ** Flat offsets *)

Lemma to_size_t_int64_add_l a b :
  Int.to_size_t (Int.to_int64 a + b) = Int.to_size_t (a + b).
Proof.
  rewrite <- to_size_t_add_l, to_size_t_to_int64, to_size_t_add_l. reflexivity.
Qed.

Lemma to_size_t_int64_add_r a b :
  Int.to_size_t (a + Int.to_int64 b) = Int.to_size_t (a + b).
Proof.
  rewrite <- to_size_t_add_r, to_size_t_to_int64, to_size_t_add_r. reflexivity.
Qed.

Section FlatOffsets.
Context `{Scalars}.

(** Whatever wraps on the way, [offsetForElement] is the base offset plus
    the dot product, as a [size_t]. *)
Lemma offsetForElement_mod (offset : Z) (strides c : Dims) :
  offsetForElement offset strides c = Int.to_size_t (offset + dot c strides).
Proof.
  unfold offsetForElement, dot. generalize (zip c strides) as l.
  intros l. revert offset. induction l as [|[e s] l IH]; intros offset; simpl.
  - f_equal. lia.
  - rewrite to_size_t_int64_add_r, to_size_t_add_l, IH. f_equal. lia.
Qed.

(** [CPUTensor::slice] adds the dot product of the offset with the
    strides to the base offset (modulo [2^64]). *)
Lemma CPUTensor_slice_offset_mod (offset_ : Z) (strides offset : Dims) :
  Int.to_size_t (CPUTensor_slice_offset offset_ strides offset)
  = Int.to_size_t (offset_ + dot offset strides).
Proof.
  unfold CPUTensor_slice_offset, dot. generalize (zip offset strides) as l.
  intros l. revert offset_. induction l as [|[o s] l IH]; intros offset_; simpl.
  - f_equal. lia.
  - rewrite IH, to_size_t_int64_add_l, <- Z.add_assoc, (Z.add_comm (Int.to_int64 _)).
    rewrite Z.add_assoc, to_size_t_int64_add_r. f_equal. lia.
Qed.

End FlatOffsets.

(** ** Slices alias their parent *)

Lemma dot_zip_with_add (c o strides : Dims) :
  length c = length o ->
  dot (zip_with Z.add c o) strides = dot c strides + dot o strides.
Proof.
  unfold dot. revert o strides.
  induction c as [|x c IH]; intros [|y o] [|s strides] Hlen;
    simpl in *; try lia.
  rewrite IH by lia. lia.
Qed.

Lemma dot_bounds (dims strides c : Dims) :
  length strides = length dims ->
  Forall (fun s => 0 <= s) strides ->
  in_bounds dims c ->
  0 <= dot c strides <= dot (map (fun d => d - 1) dims) strides.
Proof.
  unfold in_bounds, dot. intros Hlen Hs Hc. revert strides Hlen Hs.
  induction Hc as [|d x dims c Hx Hc IH]; intros [|s strides] Hlen Hs;
    simpl in *; try lia.
  inversion Hs as [|? ? Hs0 Hs']; subst.
  specialize (IH strides ltac:(lia) Hs'). nia.
Qed.






Section SliceAliasing.
Context `{Scalars}.

Lemma offsetForElement_exact (dims strides c : Dims) (offset len : Z) :
  CPUTensor_wf dims strides offset len ->
  in_bounds dims c ->
  offsetForElement offset strides c = offset + dot c strides /\
  0 <= offset + dot c strides < len.
Proof.
  intros (Hlen & Hoff & Hs & Hmax & Hfit) Hc.
  pose proof (dot_bounds dims strides c Hlen Hs Hc) as Hd.
  rewrite offsetForElement_mod. split; [|lia].
  apply to_size_t_id. lia.
Qed.



End SliceAliasing.


(** ** Reshape *)

Section ReshapeProperties.
Context `{Scalars}.

Lemma read_1d_length ta i n sh vs :
  read_1d ta i n sh = Ok vs -> length vs = n.
Proof.
  revert ta i vs. induction n as [|n IH]; intros ta i vs; simpl.
  - intros [= <-]. reflexivity.
  - destruct (TensorAccess_get ta [i] sh) as [[v ta']|]; simpl; [|discriminate].
    destruct (read_1d ta' (i + 1) n sh) as [vs'|] eqn:E; simpl; [|discriminate].
    intros [= <-]. simpl. f_equal. by eapply IH.
Qed.

Lemma reshape_loop_read n : forall i ta dims sh vs,
  read_1d ta i n sh = Ok vs ->
  reshape_loop n i (Some ta) dims sh = Ok (dims ++ map double_to_int64 vs).
Proof.
  induction n as [|n IH]; intros i ta dims sh vs; simpl.
  - intros [= <-]. by rewrite app_nil_r.
  - destruct (TensorAccess_get ta [i] sh) as [[v ta']|]; simpl; [|discriminate].
    destruct (read_1d ta' (i + 1) n sh) as [vs'|] eqn:E; simpl; [|discriminate].
    intros [= <-]. rewrite (IH _ _ _ _ _ E). simpl.
    by rewrite <- app_assoc.
Qed.

(** a storage-backed 1-D tensor is read from its storage cells *)
Lemma read_1d_CPU (strides : Dims) (st : loc) (off : Z) (sh : sheap)
    (s : TensorStorage) (n : nat) : forall i vs,
  sh !! st = Some s ->
  read_1d (CPUTensorAccess strides st off) i n sh = Ok vs ->
  forall k, (k < n)%nat ->
    exists c, data_ s !! Z.to_nat (offsetForElement off strides [i + Z.of_nat k])
              = Some c /\
              vs !! k = Some (datatype_get (st_data_type_ s) c).
Proof.
  induction n as [|n IH]; intros i vs Hs Hr k Hk; [lia|].
  simpl in Hr. rewrite Hs in Hr. simpl in Hr.
  unfold TensorStorage_get in Hr.
  destruct (data_ s !! Z.to_nat (offsetForElement off strides [i])) as [c|] eqn:Ec;
    simpl in Hr; [|discriminate].
  destruct (read_1d _ (i + 1) n sh) as [vs'|] eqn:E; simpl in Hr; [|discriminate].
  injection Hr as <-. destruct k as [|k].
  - exists c. rewrite Z.add_0_r. done.
  - destruct (IH (i + 1) vs' Hs E k ltac:(lia)) as (c' & Hc' & Hv).
    exists c'. replace (i + Z.of_nat (S k)) with (i + 1 + Z.of_nat k) by lia.
    done.
Qed.

(** C8 (amended).  For a Reshape node whose input ["x"] is present and
    whose input ["shape"] is a 1-D tensor of length [r] that has data, so
    that its [r] elements can be read through its access view: when the
    values read element by element are [vs], the output is a tensor of
    [x]'s data type whose dimension list is [vs] in order (each converted
    to [int64_t]); nothing relates their product to the element count of
    [x].  When either input is missing, or the shape tensor is not 1-D, no
    tensor is produced. *)
Theorem makeReshapeOutputTensor_spec (th : theap) (sh : sheap) (name : string)
    (nd : Node) :
  (forall px pshape x shape r ta vs,
     Tensors.get "x" (inputs_ nd) = Some px ->
     Tensors.get "shape" (inputs_ nd) = Some pshape ->
     th !! px = Some x -> th !! pshape = Some shape ->
     dims_ shape = [r] ->
     Tensor_access shape = Some ta ->
     read_1d ta 0 (Z.to_nat r) sh = Ok vs ->
     length vs = Z.to_nat r /\
     makeReshapeOutputTensor th sh name nd
     = Ok (Some (Tensor_new (data_type_ x) (map double_to_int64 vs)
                   (Some name) PlainTensor))) /\
  (Tensors.get "x" (inputs_ nd) = None \/
   Tensors.get "shape" (inputs_ nd) = None ->
   makeReshapeOutputTensor th sh name nd = Ok None) /\
  (forall px pshape shape,
     Tensors.get "x" (inputs_ nd) = Some px ->
     Tensors.get "shape" (inputs_ nd) = Some pshape ->
     th !! pshape = Some shape ->
     length (dims_ shape) <> 1%nat ->
     makeReshapeOutputTensor th sh name nd = Ok None).
Proof.
  unfold makeReshapeOutputTensor. split; [|split].
  - intros px pshape x shape r ta vs Hx Hshape Hpx Hpshape Hdims Hta Hread.
    split; [by eapply read_1d_length|].
    rewrite Hx, Hshape. simpl. rewrite Hpshape. simpl.
    rewrite Hdims. simpl. rewrite Hta.
    rewrite (reshape_loop_read _ _ _ _ _ _ Hread). simpl.
    rewrite Hpx. reflexivity.
  - intros [Hx|Hshape].
    + by rewrite Hx.
    + rewrite Hshape. by destruct (Tensors.get "x" (inputs_ nd)).
  - intros px pshape shape Hx Hshape Hpshape Hdims.
    rewrite Hx, Hshape. simpl. rewrite Hpshape. simpl.
    by rewrite decide_True.
Qed.

End ReshapeProperties.

(** The output has 20 elements for an input of 6: the element counts are
    not compared. *)
Lemma makeReshapeOutputTensor_spec_witness :
  @makeReshapeOutputTensor integer_scalars reshape_theap reshape_sheap "y"
     reshape_node
  = Ok (Some (Tensor_new FLOAT [4; 5] (Some "y"%string) PlainTensor)) /\
  elements_from_dims [4; 5] <> elements_ grid_tensor.
Proof.
  split; [|vm_compute; congruence].
  destruct (@makeReshapeOutputTensor_spec integer_scalars reshape_theap
              reshape_sheap "y" reshape_node) as [Hmain _].
  apply (Hmain 1%positive 2%positive grid_tensor
           (Tensor_new INT64 [2] (Some "shape"%string) (CPUTensor [1] 2%positive 0))
           2 (CPUTensorAccess [1] 2%positive 0) [4; 5]); reflexivity.
Defined.

(** A Reshape node whose shape tensor has no data behind it: the null view
    is dereferenced in the first iteration. *)
Lemma makeReshapeOutputTensor_dataless_shape `{Scalars} (th : theap) (sh : sheap)
    (name : string) (nd : Node) (px pshape : loc) (shape : Tensor) (r : Z) :
  Tensors.get "x" (inputs_ nd) = Some px ->
  Tensors.get "shape" (inputs_ nd) = Some pshape ->
  th !! pshape = Some shape ->
  dims_ shape = [r] -> 0 < r -> impl_ shape = PlainTensor ->
  makeReshapeOutputTensor th sh name nd = Crash NullDeref.
Proof.
  intros Hx Hshape Hp Hdims Hr Himpl. unfold makeReshapeOutputTensor.
  rewrite Hx, Hshape. simpl. rewrite Hp. simpl. rewrite Hdims. simpl.
  unfold Tensor_access. rewrite Himpl.
  destruct (Z.to_nat r) as [|n] eqn:E; [lia|]. reflexivity.
Qed.

(** C8 as stated fails for a shape tensor without data: the node has its
    input ["x"], its input ["shape"] is a 1-D tensor of length 2, and shape
    inference dereferences the null view of that tensor instead of
    producing an output tensor. *)
Lemma makeReshapeOutputTensor_dataless_counterexample :
  exists x shape,
    Tensors.get "x" (inputs_ reshape_node) = Some 1%positive /\
    Tensors.get "shape" (inputs_ reshape_node) = Some 2%positive /\
    dataless_shape_theap !! 1%positive = Some x /\
    dataless_shape_theap !! 2%positive = Some shape /\
    dims_ shape = [2] /\
    @makeReshapeOutputTensor integer_scalars dataless_shape_theap reshape_sheap
       "y" reshape_node
    = Crash NullDeref.
Proof. do 2 eexists. repeat split; reflexivity. Qed.

(** ** Bytes and elements *)

Lemma length_le_encode n z : length (le_encode n z) = n.
Proof. revert z. induction n as [|n IH]; intros z; simpl; [done|]. by rewrite IH. Qed.

Lemma le_decode_encode n z :
  0 <= z < 256 ^ Z.of_nat n -> le_decode (le_encode n z) = z.
Proof.
  revert z. induction n as [|n IH]; intros z Hz.
  - simpl in *. lia.
  - cbn [le_encode le_decode]. rewrite IH.
    + pose proof (Z.div_mod z 256 ltac:(lia)). lia.
    + rewrite Nat2Z.inj_succ, Z.pow_succ_r in Hz by lia.
      split; [apply Z.div_pos; lia|].
      apply Z.div_lt_upper_bound; lia.
Qed.

Lemma length_bytes_of_cells sz cells :
  length (bytes_of_cells sz cells) = (sz * length cells)%nat.
Proof.
  unfold bytes_of_cells. induction cells as [|c cells IH]; simpl; [lia|].
  rewrite length_app, length_le_encode, IH. lia.
Qed.

(** the [i]-th group of [sz] bytes of an encoded array is its [i]-th
    element *)
Lemma decode_at_encoded sz (cells : list Z) (rest : list Z) :
  forall i c,
    cells !! i = Some c -> 0 <= c < 256 ^ Z.of_nat sz ->
    le_decode (take sz (drop (i * sz) (bytes_of_cells sz cells ++ rest))) = c.
Proof.
  unfold bytes_of_cells.
  induction cells as [|c0 cells IH]; intros i c Hi Hc; [done|].
  simpl. rewrite <- app_assoc. destruct i as [|i]; simpl in Hi.
  - injection Hi as ->. rewrite drop_0.
    rewrite take_app_length' by (by rewrite length_le_encode).
    by apply le_decode_encode.
  - replace (S i * sz)%nat with (length (le_encode sz c0) + i * sz)%nat
      by (rewrite length_le_encode; lia).
    rewrite drop_app_add'; [|done]. by apply IH.
Qed.

Lemma cells_of_bytes_of_cells sz (cells : list Z) :
  (0 < sz)%nat ->
  Forall (fun c => 0 <= c < 256 ^ Z.of_nat sz) cells ->
  cells_of_bytes sz (bytes_of_cells sz cells) = cells.
Proof.
  intros Hsz Hcells. unfold cells_of_bytes.
  rewrite length_bytes_of_cells.
  replace (sz * length cells / sz)%nat with (length cells)
    by (rewrite Nat.mul_comm, Nat.div_mul; lia).
  apply list_eq. intros i. rewrite list_lookup_fmap.
  destruct (cells !! i) as [c|] eqn:Ei.
  - rewrite lookup_seq_lt by (by eapply lookup_lt_Some). simpl. f_equal.
    rewrite <- (app_nil_r (bytes_of_cells sz cells)).
    apply decode_at_encoded; [done|].
    by eapply (proj1 (Forall_lookup _ _) Hcells).
  - rewrite lookup_seq_ge by (by apply lookup_ge_None). done.
Qed.

(** ** Canonical strides and the odometer *)

Lemma prod_pos (dims : Dims) : Forall (fun d => 1 <= d) dims -> 1 <= prod dims.
Proof. induction 1; simpl; [lia|nia]. Qed.

Lemma prod_tail_le (d : Z) (dims : Dims) :
  1 <= d -> Forall (fun d => 1 <= d) dims ->
  prod dims <= prod (d :: dims) /\ d <= prod (d :: dims).
Proof. intros Hd Hdims. pose proof (prod_pos dims Hdims). simpl. nia. Qed.

Lemma length_suffix_products dims : length (suffix_products dims) = length dims.
Proof. induction dims; simpl; congruence. Qed.

Lemma suffix_products_nonneg dims :
  Forall (fun d => 1 <= d) dims -> Forall (fun s => 0 <= s) (suffix_products dims).
Proof.
  induction 1 as [|d dims Hd Hdims IH]; simpl; constructor; [|done].
  pose proof (prod_pos dims Hdims). lia.
Qed.

Lemma computeCPUStrides_loop_exact (dims : Dims) :
  Forall (fun d => 1 <= d) dims -> prod dims < 2 ^ 31 ->
  computeCPUStrides_loop dims = (suffix_products dims, prod dims).
Proof.
  induction 1 as [|d dims Hd Hdims IH]; intros Hp; [done|].
  destruct (prod_tail_le d dims Hd Hdims) as [Hle _].
  pose proof (prod_pos dims Hdims).
  cbn [computeCPUStrides_loop]. rewrite IH by lia. cbn [suffix_products].
  f_equal. rewrite to_int_id; [simpl; lia|].
  unfold Int.in_int, Int.INT_MIN, Int.INT_MAX. simpl in Hp. nia.
Qed.

Lemma computeCPUStrides_exact (dims : Dims) :
  Forall (fun d => 1 <= d) dims -> prod dims < 2 ^ 31 ->
  computeCPUStrides dims = suffix_products dims.
Proof.
  intros Hd Hp. unfold computeCPUStrides.
  by rewrite computeCPUStrides_loop_exact.
Qed.

(** whatever wraps, the strides are the suffix products as [int]s *)
Lemma computeCPUStrides_loop_wraps (dims : Dims) :
  computeCPUStrides_loop dims
  = (map Int.to_int (suffix_products dims), Int.to_int (prod dims)).
Proof.
  induction dims as [|d dims IH]; [reflexivity|].
  cbn [computeCPUStrides_loop]. rewrite IH.
  cbn [suffix_products map prod foldr]. fold (prod dims). f_equal.
  unfold Int.to_int. rewrite wrap_signed_mul_l by lia. f_equal. lia.
Qed.

Lemma elements_from_dims_exact (dims : Dims) :
  Forall (fun d => 1 <= d) dims -> prod dims < 2 ^ 63 ->
  elements_from_dims dims = prod dims.
Proof.
  unfold elements_from_dims. intros Hd Hp.
  assert (Hgen : forall a, 1 <= a -> a * prod dims < 2 ^ 63 ->
            fold_left (fun e d => Int.to_int64 (e * d)) dims a = a * prod dims).
  { induction Hd as [|d dims Hd Hdims IH]; intros a Ha Hb; simpl in *; [lia|].
    pose proof (prod_pos dims Hdims).
    rewrite to_int64_id by nia. rewrite IH by nia. lia. }
  rewrite Hgen by lia. lia.
Qed.

(** the flat index of a coordinate under the packed strides *)
Lemma dot_canonical_bounds (dims c : Dims) :
  in_bounds dims c -> 0 <= dot c (suffix_products dims) < prod dims.
Proof.
  unfold in_bounds, dot. induction 1 as [|d x dims c Hx Hc IH]; simpl; [lia|].
  nia.
Qed.

Lemma dot_canonical_inj (dims c1 c2 : Dims) :
  in_bounds dims c1 -> in_bounds dims c2 ->
  dot c1 (suffix_products dims) = dot c2 (suffix_products dims) -> c1 = c2.
Proof.
  intros H1. revert c2. unfold in_bounds in *.
  induction H1 as [|d x dims c1 Hx Hc1 IH]; intros c2 H2 Heq.
  - by inversion H2.
  - inversion H2 as [|? y ? c2' Hy Hc2']; subst.
    pose proof (dot_canonical_bounds dims c1 Hc1) as B1.
    pose proof (dot_canonical_bounds dims c2' Hc2') as B2.
    unfold dot in *. simpl in Heq.
    assert (x = y) by nia. subst y.
    f_equal. apply IH; [done|]. unfold dot. lia.
Qed.

Lemma in_bounds_zeros (dims : Dims) :
  Forall (fun d => 1 <= d) dims ->
  in_bounds dims (replicate (length dims) 0) /\
  dot (replicate (length dims) 0) (suffix_products dims) = 0.
Proof.
  unfold in_bounds, dot. induction 1 as [|d dims Hd Hdims [IH1 IH2]]; simpl.
  - split; [constructor|done].
  - split; [constructor; [lia|done]|]. lia.
Qed.

Section Odometer.
Context `{Scalars}.

(** One odometer step on a coordinate of [dims]: either the successor in
    row-major order, or, from the last coordinate, all zeros and a carry
    out of the first axis. *)
Lemma odometer_spec (dims c : Dims) :
  Forall (fun d => 1 <= d < 2 ^ 63) dims ->
  in_bounds dims c ->
  exists c' carry,
    odometer dims c = Ok (c', carry) /\
    (carry = false ->
     in_bounds dims c' /\
     dot c' (suffix_products dims) = dot c (suffix_products dims) + 1) /\
    (carry = true ->
     c' = replicate (length dims) 0 /\
     dot c (suffix_products dims) + 1 = prod dims).
Proof.
  intros Hd Hc. unfold in_bounds in *. revert Hd.
  induction Hc as [|d x dims c Hx Hc IH]; intros Hd.
  - exists [], true. simpl. split; [done|]. split; [done|]. unfold dot. done.
  - inversion Hd as [|? ? Hd0 Hd']; subst.
    destruct (IH Hd') as (r & carry & Hr & Hf & Ht).
    cbn [odometer tail]. rewrite Hr. cbn.
    assert (Hzeros : Forall (fun d => 1 <= d) dims).
    { eapply Forall_impl; [exact Hd'|]. simpl. intros; lia. }
    destruct carry.
    + destruct (Ht eq_refl) as [-> Hlast].
      rewrite to_int64_id by lia.
      destruct (Z.eqb_spec (x + 1) d) as [E|E].
      * exists (0 :: replicate (length dims) 0), true.
        split; [done|]. split; [done|]. intros _. split; [done|].
        unfold dot, prod in *. simpl in *. nia.
      * exists (x + 1 :: replicate (length dims) 0), false.
        split; [done|]. split; [|done]. intros _.
        destruct (in_bounds_zeros dims Hzeros) as [Hz1 Hz2].
        split; [constructor; [lia|done]|].
        unfold dot, prod in *. simpl in *. rewrite Hz2. nia.
    + destruct (Hf eq_refl) as [Hin Hsucc].
      exists (x :: r), false. split; [done|]. split; [|done]. intros _.
      split; [by constructor|]. unfold dot, prod in *. simpl in *. lia.
Qed.

End Odometer.

(** ** [copyFrom] into a packed tensor *)

Lemma dims_le_prod (dims : Dims) :
  Forall (fun d => 1 <= d) dims -> Forall (fun d => 1 <= d <= prod dims) dims.
Proof.
  induction 1 as [|d dims Hd Hdims IH]; constructor.
  - destruct (prod_tail_le d dims Hd Hdims). lia.
  - destruct (prod_tail_le d dims Hd Hdims) as [Hle _].
    eapply Forall_impl; [exact IH|]. cbv beta. intros x Hx. lia.
Qed.

Lemma dot_canonical_max (dims : Dims) :
  Forall (fun d => 1 <= d) dims ->
  dot (map (fun d => d - 1) dims) (suffix_products dims) = prod dims - 1.
Proof.
  induction 1 as [|d dims Hd Hdims IH]; [done|].
  unfold dot in *. cbn [map suffix_products zip zip_with foldr fst snd].
  rewrite IH. cbn [prod foldr]. fold (prod dims). nia.
Qed.

(** a packed tensor over a storage of [prod dims] elements *)
Lemma CPUTensor_wf_canonical (dims : Dims) :
  Forall (fun d => 1 <= d) dims -> prod dims < 2 ^ 31 ->
  CPUTensor_wf dims (suffix_products dims) 0 (prod dims).
Proof.
  intros Hd Hp. unfold CPUTensor_wf.
  split; [apply length_suffix_products|]. split; [done|].
  split; [by apply suffix_products_nonneg|].
  rewrite dot_canonical_max by done. lia.
Qed.

Section CopyLoop.
Context `{Scalars}.

Variables (dims stridesT : Dims) (stT l : loc) (offT : Z) (sT : TensorStorage)
          (dtC : DataType).
Hypothesis Hdims : Forall (fun d => 1 <= d) dims.
Hypothesis Hprod : prod dims < 2 ^ 31.
Hypothesis HwfT :
  CPUTensor_wf dims stridesT offT (Z.of_nat (length (data_ sT))).
Hypothesis Hl : l <> stT.

Let sp := suffix_products dims.
Let src := CPUTensorAccess stridesT stT offT.
Let dst := CPUTensorAccess sp l 0.

Lemma copy_loop_spec (n : nat) :
  forall (k : Z) (c : Dims) (data : list Z) (h : sheap),
  h !! stT = Some sT ->
  h !! l = Some (mkStorage dtC data) ->
  Z.of_nat (length data) = prod dims ->
  k + Z.of_nat n = prod dims -> 0 <= k ->
  (n <> 0%nat -> in_bounds dims c /\ dot c sp = k) ->
  exists data',
    copy_loop n dims dims (Some dst) src c c h
    = Ok (<[l := mkStorage dtC data']> h) /\
    length data' = length data /\
    (forall j, (j < Z.to_nat k)%nat -> data' !! j = data !! j) /\
    (forall c0, in_bounds dims c0 -> k <= dot c0 sp ->
                data' !! Z.to_nat (dot c0 sp) = copied stridesT offT sT dtC c0) /\
    (forall P : Z -> Prop,
       (forall cell, cell ∈ data_ sT ->
                     P (datatype_set dtC (datatype_get (st_data_type_ sT) cell))) ->
       Forall P data -> Forall P data').
Proof.
  induction n as [|n IH]; intros k c data h HsT Hsl Hlen Hk Hk0 Hc.
  - exists data. simpl. split; [by rewrite insert_id|]. split; [done|].
    split; [done|]. split; [|done]. intros c0 Hc0 Hle.
    pose proof (dot_canonical_bounds dims c0 Hc0) as Hb. fold sp in Hb. lia.
  - destruct (Hc ltac:(done)) as [Hin Hdot].
    assert (Hd63 : Forall (fun d => 1 <= d < 2 ^ 63) dims).
    { eapply Forall_impl; [exact (dims_le_prod dims Hdims)|]. simpl. intros; lia. }
    (* reading the source *)
    destruct (offsetForElement_exact _ _ _ _ _ HwfT Hin) as [EoffT HboundT].
    destruct (data_ sT !! Z.to_nat (offT + dot c stridesT)) as [cell|] eqn:Ecell;
      [|apply lookup_ge_None in Ecell; lia].
    assert (E1 : TensorAccess_get src c h
                 = Ok (datatype_get (st_data_type_ sT) cell, src)).
    { unfold TensorAccess_get, src. cbn. rewrite HsT. cbn.
      unfold TensorStorage_get. rewrite EoffT, Ecell. reflexivity. }
    (* writing the copy *)
    destruct (offsetForElement_exact _ _ _ _ _
                (CPUTensor_wf_canonical dims Hdims Hprod) Hin) as [EoffC HboundC].
    fold sp in EoffC, HboundC. rewrite Z.add_0_l in EoffC, HboundC.
    set (v := datatype_get (st_data_type_ sT) cell) in *.
    set (data1 := <[Z.to_nat k := datatype_set dtC v]> data).
    assert (E2 : TensorAccess_set dst c v h = Ok (<[l := mkStorage dtC data1]> h)).
    { unfold TensorAccess_set, dst. cbn. rewrite Hsl. cbn.
      unfold TensorStorage_set. cbn. rewrite EoffC, Hdot.
      rewrite decide_True by lia. reflexivity. }
    (* advancing the coordinate *)
    destruct (odometer_spec dims c Hd63 Hin) as (c' & carry & Eodo & Hnc & Hcarry).
    assert (E3 : odometer_step dims c = Ok c').
    { unfold odometer_step. rewrite Eodo. reflexivity. }
    destruct (IH (k + 1) c' data1 (<[l := mkStorage dtC data1]> h))
      as (data' & Eloop & Hlen' & Hkeep & Hnew & Hall).
    { by rewrite lookup_insert_ne. }
    { by rewrite lookup_insert_eq. }
    { unfold data1. by rewrite length_insert. }
    { lia. }
    { lia. }
    { intros Hn. destruct carry.
      - destruct (Hcarry eq_refl) as [_ Hlast]. fold sp in Hlast. lia.
      - destruct (Hnc eq_refl) as [Hin' Hdot']. fold sp in Hdot'.
        split; [done|lia]. }
    exists data'. split.
    { cbn [copy_loop]. rewrite E1. cbn [mbind result_bind view_deref].
      rewrite E2. cbn [mbind result_bind]. rewrite E3. cbn [mbind result_bind].
      rewrite Eloop. by rewrite insert_insert_eq. }
    split; [unfold data1 in Hlen'; by rewrite length_insert in Hlen'|].
    assert (Hk_at : data' !! Z.to_nat k = Some (datatype_set dtC v)).
    { rewrite Hkeep by lia. unfold data1.
      apply list_lookup_insert_eq. lia. }
    split; [|split].
    + intros j Hj. rewrite Hkeep by lia. unfold data1.
      apply list_lookup_insert_ne. lia.
    + intros c0 Hc0 Hle.
      destruct (decide (dot c0 sp = k)) as [Ek|Ek].
      * assert (c0 = c) as ->.
        { apply (dot_canonical_inj dims); [done..|]. fold sp. lia. }
        rewrite Hdot, Hk_at. unfold copied. rewrite Ecell. reflexivity.
      * apply Hnew; [done|lia].
    + intros P HP Hdata. apply Hall; [done|]. unfold data1.
      apply Forall_insert; [done|]. apply HP.
      by eapply list_elem_of_lookup_2.
Qed.

End CopyLoop.

(** ** Saving and loading *)

Lemma DataTypeSize_pos dt : 0 < DataTypeSize dt.
Proof. destruct dt; simpl; lia. Qed.

Lemma CPUTensor_new_spec (dt : DataType) (dims : Dims) (name : option string)
    (h : sheap) :
  dims <> [] -> Forall (fun d => 1 <= d) dims -> prod dims < 2 ^ 31 ->
  CPUTensor_new dt dims name h
  = Ok (Tensor_new dt dims name (CPUTensor (suffix_products dims) (fresh (dom h)) 0),
        <[fresh (dom h) := mkStorage dt (replicate (Z.to_nat (prod dims)) 0)]> h).
Proof.
  intros Hne Hd Hp. unfold CPUTensor_new.
  rewrite computeCPUStrides_exact by done.
  destruct dims as [|d0 ds]; [done|].
  unfold HostTensorStorage_new. cbn [vec_at suffix_products lookup list_lookup].
  cbn [mbind result_bind]. unfold alloc. do 4 f_equal.
  pose proof (DataTypeSize_pos dt) as Hsz.
  assert (Hsz8 : DataTypeSize dt <= 8) by (destruct dt; simpl; lia).
  pose proof (prod_pos (d0 :: ds) Hd) as Hpos.
  change (prod (d0 :: ds)) with (d0 * prod ds) in *.
  rewrite to_size_t_id by nia.
  rewrite Z.div_mul by lia. reflexivity.
Qed.

Lemma flat_map_encode_uint32 (dims : Dims) :
  Forall (fun d => 0 <= d < 2 ^ 32) dims ->
  flat_map (fun d => le_encode 4 (Int.to_uint32 d)) dims = bytes_of_cells 4 dims.
Proof.
  unfold bytes_of_cells. induction 1 as [|d dims Hd Hdims IH]; [done|].
  cbn [flat_map]. rewrite IH. f_equal. by rewrite to_uint32_id.
Qed.

(** *** Storages that map a file *)

Lemma lookup_remap (path : string) (bytes : list Z) (mm : mmaps) (h : sheap)
    (l : loc) :
  remap path bytes mm h !! l
  = s ← h !! l;
    match mm !! l with
    | Some m =>
        if decide (map_path_ m = path)
        then Some (mkStorage (st_data_type_ s)
                     (mapped_cells (st_data_type_ s) m bytes))
        else Some s
    | None => Some s
    end.
Proof. unfold remap. by rewrite map_lookup_imap. Qed.

(** a storage that does not map the file is left as it is *)
Lemma lookup_remap_other (path : string) (bytes : list Z) (mm : mmaps)
    (h : sheap) (l : loc) :
  ~ maps_file mm l path -> remap path bytes mm h !! l = h !! l.
Proof.
  intros Hno. rewrite lookup_remap. destruct (h !! l) as [s|]; [|done].
  cbn [mbind option_bind]. destruct (mm !! l) as [m|] eqn:Em; [|done].
  destruct (decide (map_path_ m = path)) as [E|_]; [|done].
  exfalso. apply Hno. by exists m.
Qed.

(** a storage that maps the file shows its new content *)
Lemma lookup_remap_mapped (path : string) (bytes : list Z) (mm : mmaps)
    (h : sheap) (l : loc) (s : TensorStorage) (m : Mapping) :
  h !! l = Some s -> mm !! l = Some m -> map_path_ m = path ->
  remap path bytes mm h !! l
  = Some (mkStorage (st_data_type_ s) (mapped_cells (st_data_type_ s) m bytes)).
Proof.
  intros Hs Hm Hp. rewrite lookup_remap, Hs. cbn [mbind option_bind].
  rewrite Hm. by rewrite decide_True.
Qed.

Lemma dom_remap (path : string) (bytes : list Z) (mm : mmaps) (h : sheap) :
  dom (remap path bytes mm h) = dom h.
Proof.
  apply set_eq. intros l. rewrite !elem_of_dom, lookup_remap.
  destruct (h !! l) as [s|]; cbn [mbind option_bind].
  - destruct (mm !! l) as [m|]; [destruct (decide (map_path_ m = path))|];
      split; eauto.
  - done.
Qed.

Lemma remap_remap (path : string) (bytes1 bytes2 : list Z) (mm : mmaps)
    (h : sheap) :
  remap path bytes2 mm (remap path bytes1 mm h) = remap path bytes2 mm h.
Proof.
  apply map_eq. intros l. rewrite !lookup_remap.
  destruct (h !! l) as [s|]; [|done]. cbn [mbind option_bind].
  destruct (mm !! l) as [m|]; [|done].
  destruct (decide (map_path_ m = path)); done.
Qed.

(** the storage of [copy] comes and goes *)
Lemma remap_copy_gone (path : string) (bytes1 bytes2 : list Z) (mm : mmaps)
    (h : sheap) (s : TensorStorage) :
  let h0 := remap path bytes1 mm h in
  remap path bytes2 mm (delete (fresh (dom h0)) (<[fresh (dom h0) := s]> h0))
  = remap path bytes2 mm h.
Proof.
  intros h0. rewrite delete_insert_id by apply not_elem_of_dom, is_fresh.
  apply remap_remap.
Qed.

Lemma page_up_le (n : nat) : (n <= page_up n)%nat.
Proof.
  unfold page_up.
  assert (Hp : (0 < PAGE_SIZE)%nat) by (unfold PAGE_SIZE; lia).
  set (P := PAGE_SIZE) in *. clearbody P.
  pose proof (Nat.div_mod_eq (n + P - 1) P) as E.
  pose proof (Nat.mod_upper_bound (n + P - 1) P ltac:(lia)) as B.
  nia.
Qed.

(** while the file is as long as when it was mapped, the mapping shows the
    file *)
Lemma mapped_bytes_whole (path : string) (d : nat) (mem : list Z) :
  mapped_bytes (mkMapping path (length mem) d) mem = mem.
Proof.
  unfold mapped_bytes. cbn [map_size_].
  pose proof (page_up_le (length mem)) as Hle.
  rewrite Nat.min_l by done. rewrite Nat.sub_diag. cbn [replicate].
  rewrite app_nil_r. apply firstn_all.
Qed.

(** [load] on a well-formed file: header, [rank] dimensions, payload *)
Lemma Tensor_load_spec (path : string) (name : option string) (fs : files)
    (h : sheap) (mm : mmaps) (type : Z) (dt : DataType) (dims payload : list Z) :
  (type = TENSOR_DISK_FLOAT /\ dt = FLOAT) \/ (type = TENSOR_DISK_HALF /\ dt = HALF) ->
  (length dims <= 8)%nat ->
  Forall (fun d => 0 <= d < 2 ^ 32) dims ->
  fs !! path = Some (magic ++ le_encode 4 type
                       ++ le_encode 4 (Z.of_nat (length dims))
                       ++ bytes_of_cells 4 dims ++ payload) ->
  Tensor_load path name fs h mm
  = (Some (Tensor_new dt dims name
             (MappedTensor (computeCPUStrides dims) (fresh (dom h)) 0)),
     <[fresh (dom h) :=
         mkStorage dt (cells_of_bytes (Z.to_nat (DataTypeSize dt)) payload)]> h,
     <[fresh (dom h) :=
         mkMapping path (16 + 4 * length dims + length payload)
                   (16 + 4 * length dims)]> mm).
Proof.
  intros Htype Hrank Hdims Hfile. unfold Tensor_load. rewrite Hfile.
  set (T4 := le_encode 4 type). set (R4 := le_encode 4 (Z.of_nat (length dims))).
  set (rest := bytes_of_cells 4 dims ++ payload).
  assert (HT4 : length T4 = 4%nat) by apply length_le_encode.
  assert (HR4 : length R4 = 4%nat) by apply length_le_encode.
  assert (Hlen : length (magic ++ T4 ++ R4 ++ rest)
                 = (16 + 4 * length dims + length payload)%nat).
  { unfold rest. rewrite !length_app, HT4, HR4, length_bytes_of_cells. simpl. lia. }
  assert (Hmagic : take 8 (magic ++ T4 ++ R4 ++ rest) = magic)
    by (by apply take_app_length').
  assert (Hd8 : drop 8 (magic ++ T4 ++ R4 ++ rest) = T4 ++ R4 ++ rest)
    by (by apply drop_app_length').
  assert (Hd12 : drop 12 (magic ++ T4 ++ R4 ++ rest) = R4 ++ rest).
  { change 12%nat with (8 + 4)%nat. rewrite <- drop_drop, Hd8.
    by apply drop_app_length'. }
  assert (Hd16 : forall n, drop (16 + n) (magic ++ T4 ++ R4 ++ rest) = drop n rest).
  { intros n. change (16 + n)%nat with (8 + (4 + (4 + n)))%nat.
    rewrite <- drop_drop, Hd8, <- drop_drop, drop_app_length' by done.
    rewrite <- drop_drop, drop_app_length' by done. reflexivity. }
  rewrite Hlen.
  destruct (Z.ltb_spec (Z.of_nat (16 + 4 * length dims + length payload))
              sizeof_TensorDiskHeader) as [Hlt|_];
    [unfold sizeof_TensorDiskHeader in Hlt; lia|].
  rewrite Hmagic, bool_decide_eq_true_2 by done. cbn [negb].
  rewrite Hd8, Hd12, !take_app_length' by done.
  assert (Etype : le_decode T4 = type).
  { apply le_decode_encode.
    destruct Htype as [[-> _]|[-> _]]; unfold TENSOR_DISK_FLOAT, TENSOR_DISK_HALF; lia. }
  assert (Erank : le_decode R4 = Z.of_nat (length dims)).
  { apply le_decode_encode. lia. }
  rewrite Etype, Erank.
  replace (if type =? TENSOR_DISK_FLOAT then Some FLOAT
           else if type =? TENSOR_DISK_HALF then Some HALF else None)
    with (Some dt) by (by destruct Htype as [[-> ->]|[-> ->]]).
  destruct (Z.gtb_spec (Z.of_nat (length dims)) 8) as [Hgt|_]; [lia|].
  destruct (Z.ltb_spec (Z.of_nat (16 + 4 * length dims + length payload))
              (sizeof_TensorDiskHeader + Z.of_nat (length dims) * 4)) as [Hlt|_].
  { unfold sizeof_TensorDiskHeader in Hlt. lia. }
  rewrite Nat2Z.id.
  assert (Edims : map (fun i => le_decode (take 4 (drop (16 + 4 * i)
                                            (magic ++ T4 ++ R4 ++ rest))))
                      (seq 0 (length dims)) = dims).
  { apply list_eq. intros i. rewrite list_lookup_fmap.
    destruct (dims !! i) as [d|] eqn:Ei.
    - rewrite lookup_seq_lt by (by eapply lookup_lt_Some).
      cbn [fmap option_fmap option_map]. f_equal. rewrite Nat.add_0_l.
      rewrite Hd16. replace (4 * i)%nat with (i * 4)%nat by lia.
      apply decode_at_encoded; [done|].
      apply (proj1 (Forall_lookup _ _) Hdims _ _ Ei).
    - rewrite lookup_seq_ge by (by apply lookup_ge_None). done. }
  rewrite Edims, Hd16. unfold rest.
  rewrite drop_app_length' by (rewrite length_bytes_of_cells; lia).
  reflexivity.
Qed.

Section SaveLoad.
Context `{Scalars}.

(** reading through the view of a mapping is reading through a view of the
    storage *)
Lemma copy_loop_mapped_src (n : nat) :
  forall (dims_d dims_s : Dims) (dst : option TensorAccess) (strides : Dims)
         (st : loc) (off : Z) (c_d c_s : Dims) (h : sheap),
  copy_loop n dims_d dims_s dst (MappedTensorAccess strides st off) c_d c_s h
  = copy_loop n dims_d dims_s dst (CPUTensorAccess strides st off) c_d c_s h.
Proof.
  induction n as [|n IH]; intros dims_d dims_s dst strides st off c_d c_s h;
    [done|].
  cbn [copy_loop TensorAccess_get].
  destruct (deref h (Some st)) as [s|]; [|done]. cbn [mbind result_bind].
  destruct (TensorStorage_get s _) as [v|]; [|done]. cbn [mbind result_bind].
  destruct (view_deref dst) as [dst_v|]; [|done]. cbn [mbind result_bind].
  destruct (TensorAccess_set dst_v c_d v h) as [h'|]; [|done].
  cbn [mbind result_bind].
  destruct (odometer_step dims_d c_d) as [c_d'|]; [|done]. cbn [mbind result_bind].
  destruct (odometer_step dims_s c_s) as [c_s'|]; [|done]. cbn [mbind result_bind].
  apply IH.
Qed.

(** the view of a tensor that has data in host memory *)
Lemma Tensor_storage_access (T : Tensor) (strides : Dims) (st : loc) (off : Z) :
  Tensor_storage T = Some (strides, st, off) ->
  Tensor_access T = Some (CPUTensorAccess strides st off) \/
  Tensor_access T = Some (MappedTensorAccess strides st off).
Proof.
  unfold Tensor_storage, Tensor_access.
  destruct (impl_ T); intros [= <- <- <-] || discriminate; auto.
Qed.

(** [save] on a tensor with data in host memory that is not the mapping of
    the file, of at most [2^31 - 1] elements: the file holds the header, the
    dimensions and the packed copy, and the storages that map the file show
    it. *)
Lemma Tensor_save_spec (T : Tensor) (path : string) (h : sheap) (mm : mmaps)
    (fs : files) (stridesT : Dims) (stT : loc) (offT : Z) (sT : TensorStorage) :
  Tensor_storage T = Some (stridesT, stT, offT) ->
  h !! stT = Some sT ->
  ~ maps_file mm stT path ->
  on_disk (data_type_ T) ->
  elements_ T = elements_from_dims (dims_ T) ->
  dims_ T <> [] -> Z.of_nat (length (dims_ T)) < 2 ^ 29 ->
  Forall (fun d => 1 <= d) (dims_ T) ->
  prod (dims_ T) < 2 ^ 31 ->
  CPUTensor_wf (dims_ T) stridesT offT (Z.of_nat (length (data_ sT))) ->
  exists (data' : list Z) (b : bool),
    let content :=
      magic
      ++ le_encode 4 (if decide (data_type_ T = FLOAT)
                      then TENSOR_DISK_FLOAT else TENSOR_DISK_HALF)
      ++ le_encode 4 (Z.of_nat (length (dims_ T)))
      ++ flat_map (fun d => le_encode 4 (Int.to_uint32 d)) (dims_ T)
      ++ bytes_of_cells (Z.to_nat (DataTypeSize (data_type_ T))) data' in
    Tensor_save T path h mm fs
    = Ok (b, <[path := content]> fs, remap path content mm h) /\
    Z.of_nat (length data') = prod (dims_ T) /\
    (forall c0, in_bounds (dims_ T) c0 ->
       data' !! Z.to_nat (dot c0 (suffix_products (dims_ T)))
       = copied stridesT offT sT (data_type_ T) c0) /\
    (forall P : Z -> Prop,
       (forall cell, cell ∈ data_ sT ->
          P (datatype_set (data_type_ T)
               (datatype_get (st_data_type_ sT) cell))) ->
       P 0 -> Forall P data').
Proof.
  intros Hst HsT Hnomap Hdt Helems Hne Hrank Hdims Hprod Hwf.
  set (dims := dims_ T) in *. set (dt := data_type_ T) in *.
  set (head := (magic ++ le_encode 4 (if decide (dt = FLOAT)
                                      then TENSOR_DISK_FLOAT else TENSOR_DISK_HALF)
                      ++ le_encode 4 (Z.of_nat (length dims)))
               ++ flat_map (fun d => le_encode 4 (Int.to_uint32 d)) dims).
  set (h0 := remap path head mm h).
  assert (HsT0 : h0 !! stT = Some sT).
  { unfold h0. by rewrite lookup_remap_other. }
  set (l := fresh (dom h0)).
  assert (Hl : l <> stT).
  { intros E. pose proof (is_fresh (dom h0)) as Hf. fold l in Hf.
    apply Hf. rewrite E. apply elem_of_dom. eauto. }
  set (zeros := replicate (Z.to_nat (prod dims)) 0).
  set (h1 := <[l := mkStorage dt zeros]> h0).
  set (copy := Tensor_new dt dims None (CPUTensor (suffix_products dims) l 0)).
  pose proof (prod_pos dims Hdims) as Hpos.
  pose proof (in_bounds_zeros dims Hdims) as [Hz1 Hz2].
  destruct (copy_loop_spec dims stridesT stT l offT sT dt Hdims Hprod Hwf Hl
              (Z.to_nat (prod dims)) 0 (replicate (length dims) 0) zeros h1)
    as (data' & Eloop & Hlen' & _ & Hnew & Hall).
  { unfold h1. by rewrite lookup_insert_ne. }
  { unfold h1. by rewrite lookup_insert_eq. }
  { unfold zeros. rewrite length_replicate. lia. }
  { lia. }
  { lia. }
  { intros _. done. }
  assert (Ecopy : Tensor_copyFrom copy T h1 = Ok (<[l := mkStorage dt data']> h1)).
  { unfold Tensor_copyFrom.
    destruct (Tensor_storage_access T _ _ _ Hst) as [-> | ->];
      cbn [impl_ copy Tensor_new elements_ dims_];
      rewrite decide_True by done;
      rewrite elements_from_dims_exact by (try done; lia);
      fold dims; rewrite ?copy_loop_mapped_src; exact Eloop. }
  assert (Hlenz : length data' = Z.to_nat (prod dims)).
  { rewrite Hlen'. unfold zeros. apply length_replicate. }
  exists data'.
  destruct dims as [|d0 ds] eqn:Edims; [done|].
  assert (Hsize : forall sz, 0 < sz <= 8 ->
            Int.to_size_t (prod ds * d0 * sz) = prod (d0 :: ds) * sz).
  { intros sz Hsz. change (prod (d0 :: ds)) with (d0 * prod ds) in *.
    rewrite to_size_t_id by nia. lia. }
  assert (Etag : match dt with
                 | FLOAT => Some TENSOR_DISK_FLOAT
                 | HALF => Some TENSOR_DISK_HALF
                 | _ => None
                 end
                 = Some (if decide (dt = FLOAT)
                         then TENSOR_DISK_FLOAT else TENSOR_DISK_HALF)).
  { destruct Hdt as [Hd|Hd]; fold dt in Hd; rewrite Hd; reflexivity. }
  unfold Tensor_save. fold dt. rewrite Etag.
  rewrite to_uint32_id by (fold dims; rewrite Edims; lia).
  rewrite Nat2Z.id. fold dims. rewrite Edims.
  rewrite firstn_all. fold head. fold h0.
  destruct (decide (4 * _ = Int.to_int (4 * _))) as [_|Hcast];
    [|exfalso; apply Hcast; symmetry; apply to_int_id;
      unfold Int.in_int, Int.INT_MIN, Int.INT_MAX; simpl length in *; lia].
  assert (Hfinal : forall content,
            remap path content mm (delete l (<[l := mkStorage dt data']> h1))
            = remap path content mm h).
  { intros content. unfold h1. rewrite insert_insert_eq.
    unfold l, h0. apply remap_copy_gone. }
  assert (Hnew' : forall c0, in_bounds (d0 :: ds) c0 ->
            data' !! Z.to_nat (dot c0 (suffix_products (d0 :: ds)))
            = copied stridesT offT sT dt c0).
  { intros c0 Hc0. apply Hnew; [done|].
    pose proof (dot_canonical_bounds _ _ Hc0). lia. }
  assert (Hall' : forall P : Z -> Prop,
            (forall cell, cell ∈ data_ sT ->
               P (datatype_set dt (datatype_get (st_data_type_ sT) cell))) ->
            P 0 -> Forall P data').
  { intros P HP H0. apply Hall; [done|]. unfold zeros.
    by apply Forall_replicate. }
  assert (Hbytes : length (bytes_of_cells (Z.to_nat (DataTypeSize dt)) data')
                   = Z.to_nat (prod (d0 :: ds) * DataTypeSize dt)).
  { rewrite length_bytes_of_cells, Hlenz.
    pose proof (DataTypeSize_pos dt). lia. }
  assert (Hsz : 0 < DataTypeSize dt <= 8)
    by (destruct Hdt as [Hd|Hd]; fold dt in Hd; rewrite Hd; simpl; lia).
  rewrite (CPUTensor_new_spec dt (d0 :: ds) None h0) by done.
  fold l zeros. fold h1. fold copy. cbn [mbind result_bind].
  rewrite Ecopy. cbn [mbind result_bind].
  unfold Tensor_access at 1. cbn [impl_ copy Tensor_new view_deref dims_].
  cbn [mbind result_bind suffix_products vec_at lookup list_lookup].
  unfold TensorAccess_data. destruct (decide (0 = 0)) as [_|?]; [|done].
  cbn [deref]. rewrite lookup_insert_eq. cbn [mbind result_bind data_].
  rewrite Hsize by done.
  rewrite take_ge by lia.
  destruct (decide (Z.to_nat _ <= length _)%nat) as [_|Hn]; [|lia].
  rewrite Hfinal. unfold head. rewrite <- !app_assoc.
  destruct (decide (_ = Int.to_int _)) as [?|?];
    [exists true|exists false]; (split; [reflexivity|]);
    (split; [lia|]); (split; [exact Hnew'|exact Hall']).
Qed.

End SaveLoad.

(** under strides that wrapped, the first [2^31] coordinates of the
    row-major order are still at their row-major index *)
Lemma dot_wrapped_strides (dims c : Dims) :
  Forall (fun d => 1 <= d) dims -> in_bounds dims c ->
  dot c (suffix_products dims) < 2 ^ 31 ->
  dot c (map Int.to_int (suffix_products dims)) = dot c (suffix_products dims).
Proof.
  intros Hd Hc. revert Hd. unfold in_bounds in Hc.
  induction Hc as [|d x dims c Hx Hc IH]; intros Hd Hlt; [done|].
  inversion Hd as [|? ? Hd0 Hd']; subst.
  pose proof (dot_canonical_bounds dims c Hc) as Hb.
  pose proof (prod_pos dims Hd') as Hp.
  unfold dot in *. cbn [suffix_products map zip zip_with foldr fst snd] in *.
  rewrite IH by (done || nia).
  destruct (decide (x = 0)) as [->|Hx0]; [lia|].
  rewrite to_int_id; [done|]. unfold Int.in_int, Int.INT_MIN, Int.INT_MAX. nia.
Qed.

Section RoundTrip.
Context `{Scalars}.

Lemma Tensor_cell_storage (t : Tensor) (c : Dims) (h : sheap)
    (strides : Dims) (st : loc) (off : Z) :
  Tensor_storage t = Some (strides, st, off) ->
  Tensor_cell t c h
  = s ← h !! st; data_ s !! Z.to_nat (offsetForElement off strides c).
Proof.
  unfold Tensor_storage, Tensor_cell.
  destruct (impl_ t); intros [= <- <- <-] || discriminate; reflexivity.
Qed.

Lemma TensorAccess_get_cell (t : Tensor) (c : Dims) (h : sheap) (bits : Z)
    (strides : Dims) (st : loc) (off : Z) (s : TensorStorage)
    (view : TensorAccess) :
  Tensor_storage t = Some (strides, st, off) -> Tensor_access t = Some view ->
  h !! st = Some s ->
  Tensor_cell t c h = Some bits ->
  TensorAccess_get view c h = Ok (datatype_get (st_data_type_ s) bits, view).
Proof.
  intros Hst Hview Hs. rewrite (Tensor_cell_storage t c h _ _ _ Hst), Hs.
  cbn [mbind option_bind]. intros Hbits.
  destruct (Tensor_storage_access t _ _ _ Hst) as [E|E];
    rewrite E in Hview; injection Hview as <-;
    unfold TensorAccess_get; cbn [deref]; rewrite Hs; cbn [mbind result_bind];
    unfold TensorStorage_get; by rewrite Hbits.
Qed.

(** A [copyFrom] into a packed copy that returns has stored every element
    inside the copy: the storage of the copy has room for the first
    [min(prod dims, 2^31)] elements at least. *)
Lemma copy_loop_writes (dims dims_s : Dims) (l : loc) (dtC : DataType) (n : nat) :
  Forall (fun d => 1 <= d < 2 ^ 63) dims ->
  forall (k : Z) (c c_s : Dims) (src : TensorAccess) (data : list Z)
         (h h' : sheap),
  copy_loop n dims dims_s
    (Some (CPUTensorAccess (map Int.to_int (suffix_products dims)) l 0))
    src c c_s h = Ok h' ->
  h !! l = Some (mkStorage dtC data) ->
  0 <= k -> k + Z.of_nat n = prod dims ->
  (n <> 0%nat -> in_bounds dims c /\ dot c (suffix_products dims) = k) ->
  forall j, k <= j < prod dims -> j < 2 ^ 31 -> j < Z.of_nat (length data).
Proof.
  intros Hd63.
  assert (Hd1 : Forall (fun d => 1 <= d) dims).
  { eapply Forall_impl; [exact Hd63|]. simpl. intros; lia. }
  induction n as [|n IH];
    intros k c c_s src data h h' Hloop Hl Hk0 Hkn Hc j Hj Hj31; [lia|].
  destruct (Hc ltac:(done)) as [Hin Hdot].
  cbn [copy_loop] in Hloop.
  destruct (TensorAccess_get src c_s h) as [[v src']|]; [|discriminate].
  cbn [mbind result_bind view_deref TensorAccess_set deref] in Hloop.
  rewrite Hl in Hloop. cbn [mbind result_bind] in Hloop.
  unfold TensorStorage_set in Hloop. cbn [data_ st_data_type_] in Hloop.
  destruct (decide (Z.to_nat (offsetForElement 0 _ c) < length data)%nat)
    as [Hlt|]; [|discriminate].
  cbn [mbind result_bind] in Hloop.
  destruct (odometer_spec dims c Hd63 Hin) as (c' & carry & Eodo & Hnc & Hcarry).
  assert (E3 : odometer_step dims c = Ok c').
  { unfold odometer_step. rewrite Eodo. reflexivity. }
  rewrite E3 in Hloop. cbn [mbind result_bind] in Hloop.
  destruct (odometer_step dims_s c_s) as [c_s'|]; [|discriminate].
  cbn [mbind result_bind] in Hloop.
  destruct (decide (j = k)) as [->|Hjk].
  - rewrite offsetForElement_mod, Z.add_0_l in Hlt.
    rewrite dot_wrapped_strides, Hdot in Hlt by (try done; lia).
    rewrite to_size_t_id in Hlt by lia. lia.
  - pose proof (IH (k + 1) c' c_s' src' _ _ h' Hloop
                  ltac:(by rewrite lookup_insert_eq)
                  ltac:(lia) ltac:(lia)) as Hj'.
    rewrite length_insert in Hj'. apply Hj'; [|lia|done].
    intros Hn. destruct carry.
    + destruct (Hcarry eq_refl) as [_ Hlast]. lia.
    + destruct (Hnc eq_refl) as [Hin' Hdot']. split; [done|lia].
Qed.

(** What a [save] that returns [true] has done: the type is one of the
    format, the tensor has a first axis, the copy was filled from the
    storages as they are once the header is in the file, and the payload is
    the first [size] bytes of the copy, [size] fitting an [int]. *)
Lemma Tensor_save_inv (this : Tensor) (path : string) (h : sheap) (mm : mmaps)
    (fs fs' : files) (hs : sheap) :
  Tensor_save this path h mm fs = Ok (true, fs', hs) ->
  exists (type d0 : Z) (ds : Dims) (h2 : sheap) (s2 : TensorStorage),
    ((type = TENSOR_DISK_FLOAT /\ data_type_ this = FLOAT) \/
     (type = TENSOR_DISK_HALF /\ data_type_ this = HALF)) /\
    dims_ this = d0 :: ds /\
    let dt := data_type_ this in
    let rank := Int.to_uint32 (Z.of_nat (length (dims_ this))) in
    let tdh := magic ++ le_encode 4 type ++ le_encode 4 rank in
    let ondiskdims :=
      flat_map (fun d => le_encode 4 (Int.to_uint32 d))
               (take (Z.to_nat rank) (dims_ this)) in
    let h0 := remap path (tdh ++ ondiskdims) mm h in
    let l := fresh (dom h0) in
    let s0 := (computeCPUStrides_loop ds).2 in
    let size := Int.to_size_t (s0 * d0 * DataTypeSize dt) in
    let bytes := bytes_of_cells (Z.to_nat (DataTypeSize dt)) (data_ s2) in
    Tensor_copyFrom
      (Tensor_new dt (dims_ this) None
         (CPUTensor (computeCPUStrides (dims_ this)) l 0))
      this
      (<[l := mkStorage dt
               (replicate (Z.to_nat (Int.to_size_t (d0 * s0 * DataTypeSize dt)
                                     / DataTypeSize dt)) 0)]> h0)
    = Ok h2 /\
    h2 !! l = Some s2 /\
    (Z.to_nat size <= length bytes)%nat /\
    size = Int.to_int size /\
    fs' = <[path := tdh ++ ondiskdims ++ take (Z.to_nat size) bytes]> fs /\
    hs = remap path (tdh ++ ondiskdims ++ take (Z.to_nat size) bytes) mm
           (delete l h2).
Proof.
  unfold Tensor_save. intros Hsave.
  match type of Hsave with
  | match ?x with Some _ => _ | None => _ end = _ =>
      destruct x as [type|] eqn:Etag; [|discriminate]
  end.
  assert (Htype : (type = TENSOR_DISK_FLOAT /\ data_type_ this = FLOAT) \/
                  (type = TENSOR_DISK_HALF /\ data_type_ this = HALF)).
  { destruct (data_type_ this); try discriminate; injection Etag as <-; auto. }
  destruct (decide (4 * _ = Int.to_int _)); [|discriminate].
  destruct (dims_ this) as [|d0 ds] eqn:Edims; [discriminate|].
  unfold CPUTensor_new, HostTensorStorage_new, computeCPUStrides, alloc in Hsave.
  cbn [computeCPUStrides_loop] in Hsave.
  unfold computeCPUStrides. cbn [computeCPUStrides_loop].
  destruct (computeCPUStrides_loop ds) as [strides stride] eqn:El.
  cbn [fst snd vec_at lookup list_lookup mbind result_bind] in Hsave.
  destruct (Tensor_copyFrom _ _ _) as [h2|] eqn:Ecopy; [|discriminate].
  cbn [mbind result_bind Tensor_access impl_ Tensor_new view_deref vec_at
       lookup list_lookup dims_] in Hsave.
  unfold TensorAccess_data in Hsave.
  destruct (decide (0 = 0)) as [_|?]; [|done].
  cbn [deref] in Hsave.
  destruct (h2 !! fresh _) as [s2|] eqn:Es2; [|discriminate].
  cbn [mbind result_bind] in Hsave.
  destruct (decide (_ <= _)%nat) as [Hle|]; [|discriminate].
  destruct (decide (_ = Int.to_int _)) as [Hcast|]; [|discriminate].
  apply Ok_inj in Hsave.
  assert (E1 := f_equal (fun p : bool * files * sheap => p.1.2) Hsave).
  assert (E2 := f_equal snd Hsave). cbn [fst snd] in E1, E2.
  exists type, d0, ds, h2, s2. rewrite El. cbn [fst snd].
  split; [exact Htype|]. split; [reflexivity|].
  split; [exact Ecopy|]. split; [exact Es2|]. split; [exact Hle|].
  split; [exact Hcast|]. split; [by rewrite <- E1|by rewrite <- E2].
Qed.

(** What a successful [save] leaves in the file, for any tensor: the magic,
    the type tag, the rank, the dimensions as [uint32], then a payload.
    The tensor has at least one axis and a type the format has. *)
Lemma Tensor_save_file (this : Tensor) (path : string) (h : sheap) (mm : mmaps)
    (fs fs' : files) (hs : sheap) :
  Tensor_save this path h mm fs = Ok (true, fs', hs) ->
  dims_ this <> [] /\
  exists (type : Z) (payload : list Z),
    ((type = TENSOR_DISK_FLOAT /\ data_type_ this = FLOAT) \/
     (type = TENSOR_DISK_HALF /\ data_type_ this = HALF)) /\
    fs' = <[path :=
              magic ++ le_encode 4 type
              ++ le_encode 4 (Int.to_uint32 (Z.of_nat (length (dims_ this))))
              ++ flat_map (fun d => le_encode 4 (Int.to_uint32 d))
                   (take (Z.to_nat (Int.to_uint32 (Z.of_nat (length (dims_ this)))))
                         (dims_ this))
              ++ payload]> fs.
Proof.
  intros Hsave.
  destruct (Tensor_save_inv this path h mm fs fs' hs Hsave)
    as (type & d0 & ds & h2 & s2 & Htype & Edims & Hrest).
  cbv zeta in Hrest. destruct Hrest as (_ & _ & _ & _ & Efs & _).
  split; [by rewrite Edims|].
  exists type. eexists. split; [exact Htype|].
  rewrite Efs, <- !app_assoc. reflexivity.
Qed.

(** [copyFrom] into a CPU tensor touches the storage of that tensor only *)
Lemma copy_loop_frame (n : nat) :
  forall (dims_d dims_s strides : Dims) (l : loc) (off : Z) (src : TensorAccess)
         (c_d c_s : Dims) (h h' : sheap) (st : loc),
  copy_loop n dims_d dims_s (Some (CPUTensorAccess strides l off)) src c_d c_s h
  = Ok h' ->
  st <> l -> h' !! st = h !! st.
Proof.
  induction n as [|n IH];
    intros dims_d dims_s strides l off src c_d c_s h h' st Hloop Hne.
  - by injection Hloop as <-.
  - cbn [copy_loop] in Hloop.
    destruct (TensorAccess_get src c_s h) as [[v src']|]; [|discriminate].
    cbn [mbind result_bind view_deref TensorAccess_set] in Hloop.
    destruct (deref h (Some l)) as [s|]; [|discriminate].
    cbn [mbind result_bind] in Hloop.
    destruct (TensorStorage_set s _ v) as [s'|]; [|discriminate].
    cbn [mbind result_bind] in Hloop.
    destruct (odometer_step dims_d c_d) as [c_d'|]; [|discriminate].
    cbn [mbind result_bind] in Hloop.
    destruct (odometer_step dims_s c_s) as [c_s'|]; [|discriminate].
    cbn [mbind result_bind] in Hloop.
    rewrite (IH _ _ _ _ _ _ _ _ _ _ st Hloop Hne).
    by rewrite lookup_insert_ne.
Qed.

(** A [save] that returns [true] leaves every storage that does not map
    the file as it was. *)
Lemma Tensor_save_frame (this : Tensor) (path : string) (h : sheap) (mm : mmaps)
    (fs fs' : files) (hs : sheap) (st : loc) :
  Tensor_save this path h mm fs = Ok (true, fs', hs) ->
  ~ maps_file mm st path -> hs !! st = h !! st.
Proof.
  intros Hsave Hno.
  destruct (Tensor_save_inv this path h mm fs fs' hs Hsave)
    as (type & d0 & ds & h2 & s2 & Htype & Edims & Hrest).
  cbv zeta in Hrest. destruct Hrest as (Ecopy & _ & _ & _ & _ & ->).
  rewrite lookup_remap_other by done.
  set (h0 := remap path _ mm h) in *. set (l := fresh (dom h0)) in *.
  assert (Hl : h0 !! l = None) by apply not_elem_of_dom, is_fresh.
  assert (Hh0 : h0 !! st = h !! st) by (by apply lookup_remap_other).
  destruct (decide (st = l)) as [->|Hne].
  { by rewrite lookup_delete_eq, <- Hh0, Hl. }
  rewrite lookup_delete_ne by done.
  unfold Tensor_copyFrom in Ecopy.
  destruct (Tensor_access this) as [src|].
  - destruct (decide (elements_ this = _)); [|discriminate].
    cbn [Tensor_access impl_ Tensor_new] in Ecopy.
    rewrite (copy_loop_frame _ _ _ _ _ _ _ _ _ _ _ st Ecopy Hne).
    by rewrite lookup_insert_ne.
  - injection Ecopy as <-. by rewrite lookup_insert_ne.
Qed.

(** A [save] of a tensor with data that returns [true] has copied fewer
    than [2^31] elements: with more, the copy has no room for them or its
    size does not fit the [int] that the result of [write] is compared
    with. *)
Lemma Tensor_save_small (T : Tensor) (path : string) (h : sheap) (mm : mmaps)
    (fs fs' : files) (hs : sheap) (src : TensorAccess) :
  Tensor_access T = Some src ->
  elements_ T = prod (dims_ T) ->
  Forall (fun d => 1 <= d < 2 ^ 63) (dims_ T) ->
  Tensor_save T path h mm fs = Ok (true, fs', hs) ->
  prod (dims_ T) < 2 ^ 31.
Proof.
  intros Hacc Hel Hd Hsave.
  destruct (Tensor_save_inv T path h mm fs fs' hs Hsave)
    as (type & d0 & ds & h2 & s2 & Htype & Edims & Hrest).
  cbv zeta in Hrest. destruct Hrest as (Ecopy & _ & _ & Hcast & _ & _).
  unfold Tensor_copyFrom in Ecopy. rewrite Hacc in Ecopy.
  cbn [elements_ Tensor_new dims_ Tensor_access impl_] in Ecopy.
  destruct (decide (elements_ T = _)) as [Eel|]; [|discriminate].
  rewrite <- Eel, Hel in Ecopy.
  unfold computeCPUStrides in Ecopy.
  rewrite computeCPUStrides_loop_wraps in Ecopy. cbn [fst] in Ecopy.
  destruct (Z.lt_ge_cases (prod (dims_ T)) (2 ^ 31)) as [|Hbig]; [done|exfalso].
  assert (Hd1 : Forall (fun d => 1 <= d) (dims_ T)).
  { eapply Forall_impl; [exact Hd|]. simpl. intros; lia. }
  destruct (in_bounds_zeros (dims_ T) Hd1) as [Hz1 Hz2].
  pose proof (copy_loop_writes _ _ _ _ _ Hd 0 _ _ _ _ _ _ Ecopy
                ltac:(by rewrite lookup_insert_eq) ltac:(lia) ltac:(lia)
                ltac:(done) (2 ^ 31 - 1) ltac:(lia) ltac:(lia)) as Hroom.
  rewrite length_replicate in Hroom.
  pose proof (DataTypeSize_pos (data_type_ T)) as Hsz.
  set (s0 := (computeCPUStrides_loop ds).2) in *.
  replace (d0 * s0 * DataTypeSize (data_type_ T))
    with (s0 * d0 * DataTypeSize (data_type_ T)) in Hroom by lia.
  set (size := Int.to_size_t (s0 * d0 * DataTypeSize (data_type_ T))) in *.
  assert (Hsize : 0 <= size <= 2 ^ 31 - 1).
  { split.
    - unfold size, Int.to_size_t. apply Z.mod_pos_bound. lia.
    - rewrite Hcast. pose proof (to_int_range size) as Hr.
      unfold Int.in_int, Int.INT_MAX in Hr. lia. }
  assert (size / DataTypeSize (data_type_ T) <= size).
  { apply Z.div_le_upper_bound; [lia|nia]. }
  lia.
Qed.

(** C4 (amended).  Let [T] be a tensor with data in host memory whose
    storage is not the mapping of the file at [P], of the data model (at
    most 8 axes, the element count the product of the dimensions, the
    elements inside the storage) and of the format (every dimension fits
    the unsigned 32-bit field), and whose stored elements are bit patterns
    that the conversion to [double] and back, which [copyFrom] applies,
    leaves unchanged.  If [T.save(P)] succeeds ([T] is then of type float32
    or float16), the storage of [T] is as it was, and [Tensor::load(P)]
    returns a tensor of the same data type and the same dimension list
    whose element at every coordinate has the same bits as the element of
    [T], and reads as the same value. *)
Theorem save_load_roundtrip (T : Tensor) (path : string) (name : option string)
    (h h0 hs : sheap) (mm mm0 : mmaps) (fs fs' : files)
    (stridesT : Dims) (stT : loc) (offT : Z) (sT : TensorStorage) :
  Tensor_storage T = Some (stridesT, stT, offT) ->
  h !! stT = Some sT ->
  ~ maps_file mm stT path ->
  st_data_type_ sT = data_type_ T ->
  elements_ T = prod (dims_ T) ->
  (length (dims_ T) <= 8)%nat ->
  Forall (fun d => 0 <= d < 2 ^ 32) (dims_ T) ->
  CPUTensor_wf (dims_ T) stridesT offT (Z.of_nat (length (data_ sT))) ->
  Forall (fun c => 0 <= c < 256 ^ DataTypeSize (data_type_ T) /\
                   datatype_set (data_type_ T) (datatype_get (data_type_ T) c) = c)
         (data_ sT) ->
  Tensor_save T path h mm fs = Ok (true, fs', hs) ->
  hs !! stT = Some sT /\
  exists (L : Tensor) (h' : sheap) (mm' : mmaps) (viewL viewT : TensorAccess),
    Tensor_load path name fs' h0 mm0 = (Some L, h', mm') /\
    data_type_ L = data_type_ T /\
    dims_ L = dims_ T /\
    Tensor_access L = Some viewL /\
    Tensor_access T = Some viewT /\
    forall c, in_bounds (dims_ T) c ->
      exists bits v,
        Tensor_cell T c h = Some bits /\
        Tensor_cell L c h' = Some bits /\
        TensorAccess_get viewT c h = Ok (v, viewT) /\
        TensorAccess_get viewL c h' = Ok (v, viewL).
Proof.
  intros Hst HsT Hnomap HdtS Helems Hrank Hd32 Hwf Hcells Hsave.
  split; [by rewrite (Tensor_save_frame T path h mm fs fs' hs stT Hsave Hnomap)|].
  destruct (Tensor_save_file T path h mm fs fs' hs Hsave)
    as (Hne & type & payload & Htype & Efs).
  set (dt := data_type_ T) in *. set (dims := dims_ T) in *.
  rewrite to_uint32_id, Nat2Z.id, firstn_all, flat_map_encode_uint32 in Efs
    by (try done; lia).
  set (sz := Z.to_nat (DataTypeSize dt)).
  assert (Hsz : (0 < sz)%nat /\ Z.of_nat sz = DataTypeSize dt).
  { unfold sz. pose proof (DataTypeSize_pos dt). lia. }
  assert (Hdt : on_disk dt) by (unfold on_disk; tauto).
  assert (HviewT : exists viewT, Tensor_access T = Some viewT).
  { destruct (Tensor_storage_access T _ _ _ Hst) as [E|E]; eauto. }
  destruct HviewT as [viewT HviewT].
  (* the file is read back *)
  set (l0 := fresh (dom h0)).
  set (L := Tensor_new dt dims name (MappedTensor (computeCPUStrides dims) l0 0)).
  set (h' := <[l0 := mkStorage dt (cells_of_bytes sz payload)]> h0).
  assert (Eload : Tensor_load path name fs' h0 mm0
                  = (Some L, h',
                     <[l0 := mkMapping path (16 + 4 * length dims + length payload)
                               (16 + 4 * length dims)]> mm0)).
  { unfold L, h', l0, sz. apply Tensor_load_spec with (type := type); try done.
    rewrite Efs. apply lookup_insert_eq. }
  eexists L, h', _, (MappedTensorAccess (computeCPUStrides dims) l0 0), viewT.
  split; [exact Eload|]. split; [done|]. split; [done|].
  split; [done|]. split; [done|].
  intros c Hc.
  (* a coordinate exists: no axis is empty, the copy had room for every
     element, and the payload is the copy *)
  assert (Hd1 : Forall (fun d => 1 <= d) dims).
  { clear -Hc. unfold in_bounds in Hc.
    induction Hc as [|d x ds c Hx Hc IH]; constructor; [lia|done]. }
  assert (Hprod : prod dims < 2 ^ 31).
  { apply (Tensor_save_small T path h mm fs fs' hs viewT HviewT Helems);
      [|exact Hsave].
    fold dims. apply Forall_and. split; [done|].
    eapply Forall_impl; [exact Hd32|]. simpl. intros; lia. }
  assert (Helems' : elements_ T = elements_from_dims dims).
  { rewrite elements_from_dims_exact by (try done; lia). exact Helems. }
  destruct (Tensor_save_spec T path h mm fs stridesT stT offT sT
              Hst HsT Hnomap Hdt Helems' Hne ltac:(fold dims; lia) Hd1 Hprod Hwf)
    as (data' & b & Esave & Hlen & Hnew & Hall).
  cbv zeta in Esave. fold dt dims sz in Esave, Hnew, Hall, Hlen.
  rewrite Esave in Hsave. apply Ok_inj in Hsave.
  assert (Efs' := f_equal (fun p : bool * files * sheap => p.1.2) Hsave).
  cbn [fst snd] in Efs'. clear Hsave Esave.
  rewrite flat_map_encode_uint32 in Efs' by done.
  assert (Hpayload : payload = bytes_of_cells sz data').
  { rewrite Efs in Efs'.
    assert (Hfile := f_equal (fun m : files => m !! path) Efs').
    cbv beta in Hfile. rewrite !lookup_insert_eq in Hfile.
    apply (inj Some) in Hfile. symmetry in Hfile.
    apply app_inv_head in Hfile.
    assert (Et : (if decide (dt = FLOAT) then TENSOR_DISK_FLOAT else TENSOR_DISK_HALF)
                 = type).
    { destruct Htype as [[-> E]|[-> E]]; fold dt in E; rewrite E; done. }
    rewrite Et in Hfile. by do 3 apply app_inv_head in Hfile. }
  (* every copied element is the source element *)
  assert (Hrange : Forall (fun c => 0 <= c < 256 ^ Z.of_nat sz) data').
  { apply Hall.
    - intros cell Hcell. rewrite HdtS.
      destruct (proj1 (Forall_forall _ _) Hcells cell Hcell) as [Hr ->].
      destruct Hsz as [_ ->]. exact Hr.
    - destruct Hsz as [_ ->]. pose proof (DataTypeSize_pos dt).
      split; [lia|]. apply Z.pow_pos_nonneg; lia. }
  assert (Hstore : h' !! l0 = Some (mkStorage dt data')).
  { unfold h'. rewrite lookup_insert_eq, Hpayload.
    rewrite cells_of_bytes_of_cells by (tauto || done). reflexivity. }
  destruct (offsetForElement_exact _ _ _ _ _ Hwf Hc) as [EoffT HbT].
  destruct (data_ sT !! Z.to_nat (offT + dot c stridesT)) as [bits|] eqn:Ebits;
    [|apply lookup_ge_None in Ebits; lia].
  assert (HcellT : Tensor_cell T c h = Some bits).
  { rewrite (Tensor_cell_storage T c h _ _ _ Hst), HsT. cbn [mbind option_bind].
    by rewrite EoffT. }
  assert (HcellL : Tensor_cell L c h' = Some bits).
  { unfold Tensor_cell, L. cbn [impl_ Tensor_new].
    rewrite Hstore. cbn [mbind option_bind data_].
    rewrite computeCPUStrides_exact by done.
    destruct (offsetForElement_exact _ _ _ _ _
                (CPUTensor_wf_canonical dims Hd1 Hprod) Hc) as [EoffL _].
    rewrite EoffL, Z.add_0_l, (Hnew c Hc). unfold copied.
    rewrite Ebits. cbn [mbind option_bind]. f_equal. rewrite HdtS.
    apply (proj1 (Forall_forall _ _) Hcells bits).
    by eapply list_elem_of_lookup_2. }
  exists bits, (datatype_get dt bits).
  split; [done|]. split; [done|]. split.
  - rewrite (TensorAccess_get_cell T c h bits _ _ _ sT viewT Hst HviewT HsT HcellT).
    by rewrite HdtS.
  - by apply (TensorAccess_get_cell L c h' bits (computeCPUStrides dims) l0 0
                (mkStorage dt data')).
Qed.

End RoundTrip.

(** [grid_tensor] saved and loaded back. *)
Lemma save_load_roundtrip_witness :
  exists fs' hs L h' mm',
    @Tensor_save integer_scalars grid_tensor "t" grid_heap ∅ ∅ = Ok (true, fs', hs) /\
    Tensor_load "t" None fs' hs ∅ = (Some L, h', mm') /\
    dims_ L = [2; 3] /\
    Tensor_cell L [1; 2] h' = Some 15.
Proof.
  destruct (@Tensor_save integer_scalars grid_tensor "t" grid_heap ∅ ∅)
    as [[[b fs'] hs]|] eqn:Esave; [|vm_compute in Esave; discriminate].
  assert (b = true) as ->.
  { vm_compute in Esave. by injection Esave as <- _ _. }
  destruct (@save_load_roundtrip integer_scalars grid_tensor "t" None
              grid_heap hs hs ∅ ∅ ∅ fs' [3; 1] 1%positive 0
              (mkStorage FLOAT [10; 11; 12; 13; 14; 15]))
    as (_ & L & h' & mm' & viewL & viewT & Eload & _ & Edims & _ & _ & Hcells);
    try reflexivity.
  - intros (m & Hm & _). by rewrite lookup_empty in Hm.
  - simpl. lia.
  - repeat constructor; lia.
  - unfold CPUTensor_wf. simpl. repeat split; try lia. repeat constructor; lia.
  - repeat constructor; simpl; lia.
  - exact Esave.
  - exists fs', hs, L, h', mm'. split; [reflexivity|]. split; [exact Eload|].
    split; [exact Edims|].
    destruct (Hcells [1; 2]) as (bits & v & HT & HL & _).
    { repeat constructor; lia. }
    rewrite HL, <- HT. reflexivity.
Defined.

(** C4 as stated fails in three ways.

    - A tensor that was loaded from the file it is saved to: its storage is
      the mapping of that file, [save] empties the file and writes the
      header before [copyFrom] reads the tensor, and the payload it writes
      is zeros.  The file [dir/t] holds the floats [5, 6]; the tensor
      loaded from it, saved to [dir/t], leaves a file that loads as
      [0, 0], and holds [0, 0] itself from then on.
    - A dimension that does not fit the 32 bits the format has for it: the
      tensor of shape [[2^32, 0]] that [CPUTensor_new] builds is saved, and
      loads with shape [[0, 0]].
    - An element that the conversion to [double] and back changes: where
      the conversion quiets a signalling NaN, the element [0x7fa00000] is
      saved as [0x7fe00000]. *)
Lemma save_load_counterexample :
  (exists T h mm fs' hs L h' mm',
     Tensor_load "dir/t" None dir_files ∅ ∅ = (Some T, h, mm) /\
     data_type_ T = FLOAT /\ dims_ T = [2] /\
     Tensor_cell T [0] h = Some 5 /\ Tensor_cell T [1] h = Some 6 /\
     @Tensor_save integer_scalars T "dir/t" h mm dir_files = Ok (true, fs', hs) /\
     Tensor_load "dir/t" None fs' hs mm = (Some L, h', mm') /\
     data_type_ L = FLOAT /\ dims_ L = [2] /\
     Tensor_cell L [0] h' = Some 0 /\ Tensor_cell L [1] h' = Some 0 /\
     Tensor_cell T [0] hs = Some 0 /\ Tensor_cell T [1] hs = Some 0) /\
  (exists T h fs' hs L h' mm',
     CPUTensor_new FLOAT [2 ^ 32; 0] None ∅ = Ok (T, h) /\
     @Tensor_save integer_scalars T "t" h ∅ ∅ = Ok (true, fs', hs) /\
     Tensor_load "t" None fs' hs ∅ = (Some L, h', mm') /\
     dims_ T = [2 ^ 32; 0] /\ dims_ L = [0; 0]) /\
  (exists fs' hs L h' mm',
     @Tensor_save quieting_scalars nan_tensor "t" nan_heap ∅ ∅
     = Ok (true, fs', hs) /\
     Tensor_load "t" None fs' hs ∅ = (Some L, h', mm') /\
     data_type_ L = FLOAT /\ dims_ L = [1] /\
     Tensor_cell nan_tensor [0] nan_heap = Some 2141192192 /\
     Tensor_cell L [0] h' = Some 2145386496).
Proof.
  split; [|split].
  - do 8 eexists. split; [vm_compute; reflexivity|].
    do 4 (split; [reflexivity|]).
    split; [vm_compute; reflexivity|].
    split; [vm_compute; reflexivity|].
    repeat split; reflexivity.
  - do 7 eexists. split; [vm_compute; reflexivity|].
    split; [vm_compute; reflexivity|].
    split; [vm_compute; reflexivity|]. split; reflexivity.
  - do 5 eexists. split; [vm_compute; reflexivity|].
    split; [vm_compute; reflexivity|].
    repeat split; reflexivity.
Qed.

(** ** Generator-backed tensors *)

Section Generator.
Context `{Scalars}.

(** [GenTensor::access()] never returns null; every call builds a view
    whose generator starts from the default seed. *)
Lemma GenTensor_access (t : Tensor) (mean stddev : double) :
  impl_ t = GenTensor mean stddev ->
  Tensor_access t
  = Some (GenTensorAccess (Z.of_nat (length (dims_ t))) (rng_init mean stddev)).
Proof. intros E. unfold Tensor_access. by rewrite E. Qed.

(** [get] ignores the coordinate and the storages: it is the next draw,
    and only the view's own generator advances. *)
Lemma GenTensorAccess_get (rank : Z) (state : rng) (c : Dims) (h : sheap) :
  TensorAccess_get (GenTensorAccess rank state) c h
  = Ok ((rng_draw state).1, GenTensorAccess rank (rng_draw state).2).
Proof. unfold TensorAccess_get. by destruct (rng_draw state). Qed.

(** [set] and [copyBytesFrom] leave the storages and the view as they
    were, so a later [get] draws what it would have drawn. *)
Lemma GenTensorAccess_set_copyBytesFrom (rank : Z) (state : rng) (c : Dims)
    (v : double) (bytes : list Z) (h : sheap) :
  TensorAccess_set (GenTensorAccess rank state) c v h = Ok h /\
  TensorAccess_copyBytesFrom (GenTensorAccess rank state) c bytes h = Ok h.
Proof. split; reflexivity. Qed.

(** Two views of one generator-backed tensor draw the same sequence. *)
Lemma GenTensor_views_restart (t : Tensor) (mean stddev : double) (c1 c2 : Dims)
    (h1 h2 : sheap) (v1 v2 : TensorAccess) :
  impl_ t = GenTensor mean stddev ->
  Tensor_access t = Some v1 -> Tensor_access t = Some v2 ->
  TensorAccess_get v1 c1 h1 = TensorAccess_get v2 c2 h2.
Proof.
  intros E E1 E2. rewrite (GenTensor_access t mean stddev E) in E1, E2.
  injection E1 as <-. injection E2 as <-.
  by rewrite !GenTensorAccess_get.
Qed.

End Generator.

(** * Further properties of the code *)

(** ** Element counts and strides of every shape *)

Lemma prod_elem_of_0 (dims : Dims) : 0 ∈ dims -> prod dims = 0.
Proof.
  induction dims as [|d dims IH]; intros Hin; [by apply elem_of_nil in Hin|].
  apply elem_of_cons in Hin as [<-|Hin]; cbn [prod foldr]; [lia|].
  fold (prod dims). rewrite IH by done. lia.
Qed.

Lemma elements_from_dims_mod (dims : Dims) :
  elements_from_dims dims = Int.to_int64 (prod dims).
Proof.
  assert (Hgen : forall (ds : Dims) (a : Z),
            fold_left (fun e d => Int.to_int64 (e * d)) ds (Int.to_int64 a)
            = Int.to_int64 (a * prod ds)).
  { induction ds as [|d ds IH]; intros a; cbn [fold_left prod foldr].
    - f_equal. lia.
    - fold (prod ds). unfold Int.to_int64 at 2.
      rewrite wrap_signed_mul_l by lia. fold (Int.to_int64 (a * d)).
      rewrite IH. f_equal. lia. }
  unfold elements_from_dims. change 1 with (Int.to_int64 1) at 1.
  rewrite Hgen. f_equal. lia.
Qed.

(** X1.  [elements_from_dims] is the product of the dimensions as an
    [int64_t], whatever wraps on the way: 1 for the empty shape, and 0 as
    soon as one axis is empty. *)
Theorem elements_from_dims_wraps (dims : Dims) :
  elements_from_dims dims = Int.to_int64 (prod dims) /\
  (dims = [] -> elements_from_dims dims = 1) /\
  (0 ∈ dims -> elements_from_dims dims = 0).
Proof.
  split; [apply elements_from_dims_mod|]. split.
  - intros ->. reflexivity.
  - intros H0. rewrite elements_from_dims_mod, prod_elem_of_0 by done.
    reflexivity.
Qed.

Lemma to_int_fixpoint (z : Z) : Int.to_int z = z <-> Int.in_int z.
Proof.
  split; [intros <-; apply to_int_range|apply to_int_id].
Qed.

(** X2.  [computeCPUStrides] gives one stride per axis: the product of the
    axes after it, truncated to [int]; the stride of the last axis is 1.
    The strides are the packed row-major strides exactly when each of these
    products fits an [int]. *)
Theorem computeCPUStrides_suffix_products (dims : Dims) :
  computeCPUStrides dims = map Int.to_int (suffix_products dims) /\
  length (computeCPUStrides dims) = length dims /\
  (dims <> [] -> last (computeCPUStrides dims) = Some 1) /\
  (computeCPUStrides dims = suffix_products dims
   <-> Forall Int.in_int (suffix_products dims)).
Proof.
  assert (E : computeCPUStrides dims = map Int.to_int (suffix_products dims)).
  { unfold computeCPUStrides. by rewrite computeCPUStrides_loop_wraps. }
  split; [exact E|]. split; [|split].
  - by rewrite E, length_map, length_suffix_products.
  - intros Hne. rewrite E. clear E.
    induction dims as [|d dims IH]; [done|].
    destruct dims as [|d' dims]; [reflexivity|].
    cbn [suffix_products map]. rewrite last_cons.
    cbn [suffix_products map] in IH. by rewrite IH.
  - rewrite E. generalize (suffix_products dims) as sp. clear E.
    induction sp as [|z sp IH]; [split; [constructor|done]|].
    cbn [map]. rewrite Forall_cons, <- IH, <- to_int_fixpoint.
    split; [intros [= -> ->]; done|intros [-> ->]; done].
Qed.

(** ** The order of the odometer *)

Section OdometerOrder.

Variable dims : Dims.
Hypothesis Hdims : Forall (fun d => 1 <= d < 2 ^ 63) dims.

Let sp := suffix_products dims.
Let zeros := replicate (length dims) 0.

Lemma odometer_step_next (c : Dims) :
  in_bounds dims c ->
  exists c',
    odometer_step dims c = Ok c' /\
    ((dot c sp + 1 < prod dims /\ in_bounds dims c' /\ dot c' sp = dot c sp + 1) \/
     (dot c sp + 1 = prod dims /\ c' = zeros)).
Proof.
  intros Hc.
  destruct (odometer_spec dims c Hdims Hc) as (c' & carry & Eodo & Hnc & Hcarry).
  exists c'. split; [unfold odometer_step; by rewrite Eodo|].
  destruct carry.
  - right. destruct (Hcarry eq_refl) as [-> Hlast]. done.
  - left. destruct (Hnc eq_refl) as [Hin Hdot].
    pose proof (dot_canonical_bounds dims c' Hin) as Hb. fold sp in Hb, Hdot.
    split; [lia|done].
Qed.

Lemma odometer_iter_advance (n : nat) :
  forall c, in_bounds dims c -> dot c sp + Z.of_nat n < prod dims ->
  exists c', odometer_iter n dims c = Ok c' /\ in_bounds dims c' /\
             dot c' sp = dot c sp + Z.of_nat n.
Proof.
  induction n as [|n IH]; intros c Hc Hlt.
  - exists c. split; [done|]. split; [done|lia].
  - destruct (odometer_step_next c Hc) as (c1 & E1 & [(Hl & Hin & Hd)|(Hl & _)]);
      [|lia].
    destruct (IH c1 Hin ltac:(lia)) as (c' & E & Hin' & Hd').
    exists c'. cbn [odometer_iter]. rewrite E1. cbn [mbind result_bind].
    split; [done|]. split; [done|lia].
Qed.

Lemma odometer_iter_wrap (n : nat) :
  forall c, in_bounds dims c -> dot c sp + Z.of_nat (S n) = prod dims ->
  odometer_iter (S n) dims c = Ok zeros.
Proof.
  induction n as [|n IH]; intros c Hc Heq;
    destruct (odometer_step_next c Hc) as (c1 & E1 & [(Hl & Hin & Hd)|(Hl & ->)]);
    try lia.
  - cbn [odometer_iter]. by rewrite E1.
  - specialize (IH c1 Hin ltac:(lia)).
    change (odometer_iter (S (S n)) dims c)
      with (c' ← odometer_step dims c; odometer_iter (S n) dims c').
    rewrite E1. exact IH.
Qed.

End OdometerOrder.

(** X3.  On a shape without empty axes, the odometer of [copyFrom] walks
    the coordinates in row-major order: [k] steps from the all-zero
    coordinate reach the coordinate whose row-major index is [k], so every
    coordinate of the shape is reached, once; one step more than the last
    coordinate is all zeros again. *)
Theorem odometer_row_major (dims : Dims) :
  Forall (fun d => 1 <= d < 2 ^ 63) dims ->
  let zeros := replicate (length dims) 0 in
  (forall k : nat, Z.of_nat k < prod dims ->
     exists c, odometer_iter k dims zeros = Ok c /\ in_bounds dims c /\
               dot c (suffix_products dims) = Z.of_nat k) /\
  (forall c, in_bounds dims c ->
     odometer_iter (Z.to_nat (dot c (suffix_products dims))) dims zeros = Ok c) /\
  odometer_iter (Z.to_nat (prod dims)) dims zeros = Ok zeros.
Proof.
  intros Hdims zeros.
  assert (Hd1 : Forall (fun d => 1 <= d) dims).
  { eapply Forall_impl; [exact Hdims|]. simpl. intros; lia. }
  destruct (in_bounds_zeros dims Hd1) as [Hz Hz0]. fold zeros in Hz, Hz0.
  assert (Hk : forall k : nat, Z.of_nat k < prod dims ->
     exists c, odometer_iter k dims zeros = Ok c /\ in_bounds dims c /\
               dot c (suffix_products dims) = Z.of_nat k).
  { intros k Hlt.
    destruct (odometer_iter_advance dims Hdims k zeros Hz ltac:(lia))
      as (c & E & Hin & Hd).
    exists c. split; [done|]. split; [done|lia]. }
  split; [exact Hk|]. split.
  - intros c Hc. pose proof (dot_canonical_bounds dims c Hc) as Hb.
    destruct (Hk (Z.to_nat (dot c (suffix_products dims))) ltac:(lia))
      as (c' & E & Hin & Hd).
    rewrite E. f_equal. apply (dot_canonical_inj dims); [done..|lia].
  - pose proof (prod_pos dims Hd1) as Hpos.
    replace (Z.to_nat (prod dims)) with (S (Z.to_nat (prod dims - 1))) by lia.
    apply odometer_iter_wrap; [done..|]. rewrite Hz0. lia.
Qed.

(** On the shape [[2,3]]: four steps reach [[1,1]], six steps are back at
    [[0,0]]. *)
Lemma odometer_row_major_witness :
  odometer_iter 4 [2; 3] [0; 0] = Ok [1; 1] /\
  odometer_iter 6 [2; 3] [0; 0] = Ok [0; 0].
Proof.
  assert (Hd : Forall (fun d => 1 <= d < 2 ^ 63) [2; 3])
    by (repeat constructor; lia).
  destruct (odometer_row_major [2; 3] Hd) as (_ & Hreach & Hwrap).
  split; [|exact Hwrap].
  apply (Hreach [1; 1]). repeat constructor; lia.
Defined.

(** ** [copyFrom] between shapes, and from a generator *)

Section CopyShapes.
Context `{Scalars}.

Variables (dimsD dimsS : Dims) (l : loc) (dtD : DataType).
Hypothesis HdimsD : Forall (fun d => 1 <= d) dimsD.
Hypothesis HdimsS : Forall (fun d => 1 <= d) dimsS.
Hypothesis Hprod : prod dimsD < 2 ^ 31.
Hypothesis Hsame : prod dimsS = prod dimsD.

Let spD := suffix_products dimsD.
Let spS := suffix_products dimsS.
Let dst := CPUTensorAccess spD l 0.

(** one iteration, on the side of the destination and of the two
    odometers *)
Lemma copy_step_dst (k : Z) (cd cs : Dims) (data : list Z) (h : sheap)
    (v : double) :
  h !! l = Some (mkStorage dtD data) ->
  Z.of_nat (length data) = prod dimsD ->
  in_bounds dimsD cd -> dot cd spD = k ->
  in_bounds dimsS cs -> dot cs spS = k ->
  exists cd' cs',
    TensorAccess_set dst cd v h
    = Ok (<[l := mkStorage dtD (<[Z.to_nat k := datatype_set dtD v]> data)]> h) /\
    odometer_step dimsD cd = Ok cd' /\
    odometer_step dimsS cs = Ok cs' /\
    0 <= k < prod dimsD /\
    (k + 1 < prod dimsD ->
     in_bounds dimsD cd' /\ dot cd' spD = k + 1 /\
     in_bounds dimsS cs' /\ dot cs' spS = k + 1).
Proof.
  intros Hsl Hlen Hcd Hdd Hcs Hds.
  assert (HD63 : Forall (fun d => 1 <= d < 2 ^ 63) dimsD).
  { eapply Forall_impl; [exact (dims_le_prod dimsD HdimsD)|]. simpl. intros; lia. }
  assert (HS63 : Forall (fun d => 1 <= d < 2 ^ 63) dimsS).
  { eapply Forall_impl; [exact (dims_le_prod dimsS HdimsS)|]. simpl. intros; lia. }
  destruct (offsetForElement_exact _ _ _ _ _
              (CPUTensor_wf_canonical dimsD HdimsD Hprod) Hcd) as [Eoff Hbound].
  fold spD in Eoff, Hbound. rewrite Z.add_0_l in Eoff, Hbound.
  destruct (odometer_step_next dimsD HD63 cd Hcd) as (cd' & Ed & Hd').
  destruct (odometer_step_next dimsS HS63 cs Hcs) as (cs' & Es & Hs').
  fold spD in Hd'. fold spS in Hs'.
  exists cd', cs'. split.
  { unfold TensorAccess_set, dst. cbn. rewrite Hsl. cbn.
    unfold TensorStorage_set. cbn. rewrite Eoff, Hdd.
    rewrite decide_True by lia. reflexivity. }
  split; [done|]. split; [done|]. split; [lia|].
  intros Hlt.
  destruct Hd' as [(_ & Hin & Hdot)|(Hl & _)]; [|lia].
  destruct Hs' as [(_ & Hin' & Hdot')|(Hl' & _)]; [|lia].
  repeat split; (done || lia).
Qed.

(** the loop of [copyFrom] with a storage-backed source of another shape *)
Lemma copy_loop_shapes (stridesS : Dims) (stS : loc) (offS : Z)
    (sS : TensorStorage) (n : nat) :
  CPUTensor_wf dimsS stridesS offS (Z.of_nat (length (data_ sS))) ->
  l <> stS ->
  forall (k : Z) (cd cs : Dims) (data : list Z) (h : sheap),
  h !! stS = Some sS ->
  h !! l = Some (mkStorage dtD data) ->
  Z.of_nat (length data) = prod dimsD ->
  k + Z.of_nat n = prod dimsD -> 0 <= k ->
  (n <> 0%nat -> in_bounds dimsD cd /\ dot cd spD = k /\
                 in_bounds dimsS cs /\ dot cs spS = k) ->
  exists data',
    copy_loop n dimsD dimsS (Some dst) (CPUTensorAccess stridesS stS offS) cd cs h
    = Ok (<[l := mkStorage dtD data']> h) /\
    length data' = length data /\
    (forall j, (j < Z.to_nat k)%nat -> data' !! j = data !! j) /\
    (forall c0, in_bounds dimsS c0 -> k <= dot c0 spS ->
                data' !! Z.to_nat (dot c0 spS) = copied stridesS offS sS dtD c0).
Proof.
  intros HwfS Hl.
  induction n as [|n IH]; intros k cd cs data h HsS Hsl Hlen Hk Hk0 Hc.
  - exists data. simpl. split; [by rewrite insert_id|]. split; [done|].
    split; [done|]. intros c0 Hc0 Hle.
    pose proof (dot_canonical_bounds dimsS c0 Hc0) as Hb. fold spS in Hb. lia.
  - destruct (Hc ltac:(done)) as (Hcd & Hdd & Hcs & Hds).
    destruct (offsetForElement_exact _ _ _ _ _ HwfS Hcs) as [EoffS HboundS].
    destruct (data_ sS !! Z.to_nat (offS + dot cs stridesS)) as [cell|] eqn:Ecell;
      [|apply lookup_ge_None in Ecell; lia].
    assert (E1 : TensorAccess_get (CPUTensorAccess stridesS stS offS) cs h
                 = Ok (datatype_get (st_data_type_ sS) cell,
                       CPUTensorAccess stridesS stS offS)).
    { unfold TensorAccess_get. cbn. rewrite HsS. cbn.
      unfold TensorStorage_get. rewrite EoffS, Ecell. reflexivity. }
    set (v := datatype_get (st_data_type_ sS) cell) in *.
    destruct (copy_step_dst k cd cs data h v Hsl Hlen Hcd Hdd Hcs Hds)
      as (cd' & cs' & E2 & E3 & E4 & Hkb & Hnext).
    set (data1 := <[Z.to_nat k := datatype_set dtD v]> data) in *.
    destruct (IH (k + 1) cd' cs' data1 (<[l := mkStorage dtD data1]> h))
      as (data' & Eloop & Hlen' & Hkeep & Hnew).
    { by rewrite lookup_insert_ne. }
    { by rewrite lookup_insert_eq. }
    { unfold data1. by rewrite length_insert. }
    { lia. }
    { lia. }
    { intros Hn. apply Hnext. lia. }
    exists data'. split.
    { cbn [copy_loop]. rewrite E1. cbn [mbind result_bind view_deref].
      rewrite E2. cbn [mbind result_bind]. rewrite E3. cbn [mbind result_bind].
      rewrite E4. cbn [mbind result_bind].
      rewrite Eloop. by rewrite insert_insert_eq. }
    split; [unfold data1 in Hlen'; by rewrite length_insert in Hlen'|].
    assert (Hk_at : data' !! Z.to_nat k = Some (datatype_set dtD v)).
    { rewrite Hkeep by lia. unfold data1.
      apply list_lookup_insert_eq. lia. }
    split.
    + intros j Hj. rewrite Hkeep by lia. unfold data1.
      apply list_lookup_insert_ne. lia.
    + intros c0 Hc0 Hle.
      destruct (decide (dot c0 spS = k)) as [Ek|Ek].
      * assert (c0 = cs) as ->.
        { apply (dot_canonical_inj dimsS); [done..|]. fold spS. lia. }
        rewrite Hds, Hk_at. unfold copied. rewrite Ecell. reflexivity.
      * apply Hnew; [done|lia].
Qed.

(** the loop of [copyFrom] with a generator as the source *)
Lemma copy_loop_draws (n : nat) :
  forall (k : Z) (cd cs : Dims) (data : list Z) (h : sheap) (rank : Z)
         (st : rng),
  h !! l = Some (mkStorage dtD data) ->
  Z.of_nat (length data) = prod dimsD ->
  k + Z.of_nat n = prod dimsD -> 0 <= k ->
  (n <> 0%nat -> in_bounds dimsD cd /\ dot cd spD = k /\
                 in_bounds dimsS cs /\ dot cs spS = k) ->
  copy_loop n dimsD dimsS (Some dst) (GenTensorAccess rank st) cd cs h
  = Ok (<[l := mkStorage dtD
               (take (Z.to_nat k) data
                ++ map (datatype_set dtD) (draws n st))]> h).
Proof.
  induction n as [|n IH]; intros k cd cs data h rank st Hsl Hlen Hk Hk0 Hc.
  - cbn [copy_loop draws map]. rewrite app_nil_r, take_ge by lia.
    by rewrite insert_id.
  - destruct (Hc ltac:(done)) as (Hcd & Hdd & Hcs & Hds).
    cbn [copy_loop draws]. rewrite GenTensorAccess_get.
    destruct (rng_draw st) as [v st'] eqn:Edraw.
    cbn [mbind result_bind view_deref fst snd].
    destruct (copy_step_dst k cd cs data h v Hsl Hlen Hcd Hdd Hcs Hds)
      as (cd' & cs' & E2 & E3 & E4 & Hkb & Hnext).
    set (data1 := <[Z.to_nat k := datatype_set dtD v]> data) in *.
    rewrite E2. cbn [mbind result_bind]. rewrite E3. cbn [mbind result_bind].
    rewrite E4. cbn [mbind result_bind].
    rewrite (IH (k + 1) cd' cs' data1); cycle 1.
    { by rewrite lookup_insert_eq. }
    { unfold data1. by rewrite length_insert. }
    { lia. }
    { lia. }
    { intros Hn. apply Hnext. lia. }
    rewrite insert_insert_eq. do 3 f_equal.
    replace (Z.to_nat (k + 1)) with (S (Z.to_nat k)) by lia.
    rewrite (take_S_r data1 (Z.to_nat k) (datatype_set dtD v))
      by (unfold data1; apply list_lookup_insert_eq; lia).
    unfold data1. rewrite take_insert_ge by lia.
    cbn [map]. by rewrite <- app_assoc.
Qed.

End CopyShapes.

Section CopyFromShapes.
Context `{Scalars}.

(** X4.  [copyFrom] between storage-backed tensors of different shapes
    with the same number of elements copies in row-major order: the
    destination, a packed tensor over its own storage, holds at each
    coordinate the source element of the same row-major index, converted to
    the destination's element type; nothing else in the heap changes. *)
Theorem Tensor_copyFrom_row_major (D T : Tensor) (h : sheap) (l stT : loc)
    (stridesT : Dims) (offT : Z) (sT : TensorStorage) (dtD : DataType)
    (dataD : list Z) :
  impl_ D = CPUTensor (computeCPUStrides (dims_ D)) l 0 ->
  impl_ T = CPUTensor stridesT stT offT ->
  h !! l = Some (mkStorage dtD dataD) -> h !! stT = Some sT -> l <> stT ->
  elements_ D = elements_from_dims (dims_ D) ->
  elements_ T = elements_from_dims (dims_ T) ->
  Forall (fun d => 1 <= d) (dims_ D) -> Forall (fun d => 1 <= d) (dims_ T) ->
  prod (dims_ T) = prod (dims_ D) -> prod (dims_ D) < 2 ^ 31 ->
  Z.of_nat (length dataD) = prod (dims_ D) ->
  CPUTensor_wf (dims_ T) stridesT offT (Z.of_nat (length (data_ sT))) ->
  exists data',
    let h' := <[l := mkStorage dtD data']> h in
    Tensor_copyFrom D T h = Ok h' /\
    length data' = length dataD /\
    forall cD cT,
      in_bounds (dims_ D) cD -> in_bounds (dims_ T) cT ->
      dot cD (suffix_products (dims_ D)) = dot cT (suffix_products (dims_ T)) ->
      Tensor_cell D cD h' = copied stridesT offT sT dtD cT.
Proof.
  intros HD HT Hl HsT Hne HeD HeT HdD HdT Hsame Hprod Hlen Hwf.
  rewrite computeCPUStrides_exact in HD by done.
  pose proof (prod_pos (dims_ D) HdD) as Hpos.
  destruct (in_bounds_zeros (dims_ D) HdD) as [HzD HzD0].
  destruct (in_bounds_zeros (dims_ T) HdT) as [HzT HzT0].
  destruct (copy_loop_shapes (dims_ D) (dims_ T) l dtD HdD HdT Hprod Hsame
              stridesT stT offT sT (Z.to_nat (prod (dims_ D))) Hwf Hne
              0 (replicate (length (dims_ D)) 0) (replicate (length (dims_ T)) 0)
              dataD h HsT Hl Hlen ltac:(lia) ltac:(lia) ltac:(done))
    as (data' & Eloop & Hlen' & _ & Hnew).
  exists data'. cbv zeta. split; [|split; [done|]].
  - unfold Tensor_copyFrom, Tensor_access. rewrite HT, HD.
    rewrite HeT, HeD, !elements_from_dims_exact by (done || lia).
    rewrite decide_True by done. exact Eloop.
  - intros cD cT HcD HcT Hdot.
    unfold Tensor_cell. rewrite HD, lookup_insert_eq.
    cbn [mbind option_bind data_].
    destruct (offsetForElement_exact _ _ _ _ _
                (CPUTensor_wf_canonical (dims_ D) HdD Hprod) HcD) as [Eoff _].
    rewrite Eoff, Z.add_0_l, Hdot. apply Hnew; [done|].
    pose proof (dot_canonical_bounds _ _ HcT). lia.
Qed.

(** X5.  [copyFrom] with a generator-backed source fills a packed
    destination, in row-major order, with the first [N] draws of a
    generator started afresh ([N] the number of elements), each converted to
    the destination's element type; copying twice from the same source
    stores the same elements. *)
Theorem Tensor_copyFrom_generator (D G : Tensor) (h : sheap) (l : loc)
    (dtD : DataType) (dataD : list Z) (mean stddev : double) :
  impl_ D = CPUTensor (computeCPUStrides (dims_ D)) l 0 ->
  impl_ G = GenTensor mean stddev ->
  h !! l = Some (mkStorage dtD dataD) ->
  elements_ D = elements_from_dims (dims_ D) ->
  elements_ G = elements_from_dims (dims_ G) ->
  Forall (fun d => 1 <= d) (dims_ D) -> Forall (fun d => 1 <= d) (dims_ G) ->
  prod (dims_ G) = prod (dims_ D) -> prod (dims_ D) < 2 ^ 31 ->
  Z.of_nat (length dataD) = prod (dims_ D) ->
  let filled :=
    map (datatype_set dtD)
        (draws (Z.to_nat (prod (dims_ D))) (rng_init mean stddev)) in
  Tensor_copyFrom D G h = Ok (<[l := mkStorage dtD filled]> h) /\
  (forall h1, h1 !! l = Some (mkStorage dtD filled) ->
              Tensor_copyFrom D G h1 = Ok h1).
Proof.
  intros HD HG Hl HeD HeG HdD HdG Hsame Hprod Hlen filled.
  rewrite computeCPUStrides_exact in HD by done.
  pose proof (prod_pos (dims_ D) HdD) as Hpos.
  destruct (in_bounds_zeros (dims_ D) HdD) as [HzD HzD0].
  destruct (in_bounds_zeros (dims_ G) HdG) as [HzG HzG0].
  assert (Hcopy : forall h0 data0,
            h0 !! l = Some (mkStorage dtD data0) ->
            Z.of_nat (length data0) = prod (dims_ D) ->
            Tensor_copyFrom D G h0 = Ok (<[l := mkStorage dtD filled]> h0)).
  { intros h0 data0 Hl0 Hlen0.
    unfold Tensor_copyFrom, Tensor_access. rewrite HG, HD.
    rewrite HeG, HeD, !elements_from_dims_exact by (done || lia).
    rewrite decide_True by done.
    rewrite (copy_loop_draws (dims_ D) (dims_ G) l dtD HdD HdG Hprod Hsame
               (Z.to_nat (prod (dims_ D))) 0 _ _ data0 h0)
      by (done || lia).
    reflexivity. }
  split; [by eapply Hcopy|].
  intros h1 Hl1. rewrite (Hcopy h1 filled Hl1).
  - by rewrite insert_id.
  - unfold filled. rewrite length_map.
    assert (Hdr : forall n st, length (draws n st) = n).
    { induction n as [|n IH]; intros st; cbn [draws]; [done|].
      destruct (rng_draw st). cbn [length]. by rewrite IH. }
    rewrite Hdr. lia.
Qed.

(** X6.  [copyFrom] into a tensor without data from a generator-backed
    source of the same, non-zero, number of elements dereferences the null
    view of the destination; with no element to copy it returns without
    touching anything. *)
Theorem Tensor_copyFrom_null_destination (D G : Tensor) (h : sheap)
    (mean stddev : double) :
  impl_ D = PlainTensor -> impl_ G = GenTensor mean stddev ->
  elements_ G = elements_ D ->
  Tensor_copyFrom D G h
  = if decide (1 <= elements_ D) then Crash NullDeref else Ok h.
Proof.
  intros HD HG He. unfold Tensor_copyFrom, Tensor_access. rewrite HG, HD.
  rewrite decide_True by done.
  destruct (decide (1 <= elements_ D)) as [Hpos|Hneg].
  - replace (Z.to_nat (elements_ D)) with (S (Z.to_nat (elements_ D - 1))) by lia.
    cbn [copy_loop]. rewrite GenTensorAccess_get. reflexivity.
  - replace (Z.to_nat (elements_ D)) with 0%nat by lia. reflexivity.
Qed.

End CopyFromShapes.

(** [grid_tensor], of shape [[2,3]], copied into the packed [[3,2]]
    tensor: the element at [[1,2]] arrives at [[2,1]]. *)
Lemma Tensor_copyFrom_row_major_witness :
  exists data',
    @Tensor_copyFrom integer_scalars flat_tensor grid_tensor copy_heap
    = Ok (<[2%positive := mkStorage FLOAT data']> copy_heap) /\
    @Tensor_cell flat_tensor [2; 1]
       (<[2%positive := mkStorage FLOAT data']> copy_heap) = Some 15.
Proof.
  destruct (@Tensor_copyFrom_row_major integer_scalars flat_tensor grid_tensor
              copy_heap 2%positive 1%positive [3; 1] 0
              (mkStorage FLOAT [10; 11; 12; 13; 14; 15]) FLOAT
              [0; 0; 0; 0; 0; 0])
    as (data' & E & _ & Hcell); try reflexivity.
  - discriminate.
  - repeat constructor; lia.
  - repeat constructor; lia.
  - unfold CPUTensor_wf. simpl. repeat split; try lia. repeat constructor; lia.
  - exists data'. split; [exact E|].
    rewrite (Hcell [2; 1] [1; 2]); [reflexivity| | |reflexivity];
      repeat constructor; lia.
Defined.

(** the packed [[3,2]] tensor filled from a generator: the first element
    is the first draw *)
Lemma Tensor_copyFrom_generator_witness :
  exists filled,
    @Tensor_copyFrom integer_scalars flat_tensor gen_tensor copy_heap
    = Ok (<[2%positive := mkStorage FLOAT filled]> copy_heap) /\
    filled !! 0%nat = Some 16807.
Proof.
  destruct (@Tensor_copyFrom_generator integer_scalars flat_tensor gen_tensor
              copy_heap 2%positive FLOAT [0; 0; 0; 0; 0; 0] 0 1)
    as [E _]; try reflexivity.
  - repeat constructor; lia.
  - repeat constructor; lia.
  - eexists. split; [exact E|]. reflexivity.
Defined.

Lemma Tensor_copyFrom_null_destination_witness :
  @Tensor_copyFrom integer_scalars dataless_tensor gen_tensor grid_heap
  = Crash NullDeref.
Proof.
  apply (@Tensor_copyFrom_null_destination integer_scalars dataless_tensor
           gen_tensor grid_heap 0 1); reflexivity.
Defined.

(** ** Packed CPU tensors *)

Section PackedTensors.
Context `{Scalars}.

(** X7.  [makeCPUTensor] on a shape with at least one axis, no empty axis
    and fewer than [2^31] elements: the tensor has the type, shape and name
    asked for, as many elements as the product of its dimensions, and a
    storage of its own in which every element reads as zero; the storages
    that existed are untouched. *)
Theorem makeCPUTensor_zeroed (dt : DataType) (dims : Dims)
    (name : option string) (h : sheap) :
  dims <> [] -> Forall (fun d => 1 <= d) dims -> prod dims < 2 ^ 31 ->
  exists t h' view,
    CPUTensor_new dt dims name h = Ok (t, h') /\
    data_type_ t = dt /\ dims_ t = dims /\ name_ t = name /\
    elements_ t = prod dims /\
    Tensor_access t = Some view /\
    (forall l s, h !! l = Some s -> h' !! l = Some s) /\
    (forall c, in_bounds dims c ->
               TensorAccess_get view c h' = Ok (datatype_get dt 0, view)).
Proof.
  intros Hne Hd Hp. rewrite (CPUTensor_new_spec dt dims name h) by done.
  eexists _, _, _. split; [reflexivity|].
  split; [reflexivity|]. split; [reflexivity|]. split; [reflexivity|].
  split; [cbn [elements_ Tensor_new]; apply elements_from_dims_exact; (done || lia)|].
  split; [reflexivity|]. split.
  - intros l s Hl. rewrite lookup_insert_ne; [done|].
    intros <-. pose proof (is_fresh (dom h)) as Hf. apply Hf.
    apply elem_of_dom. eauto.
  - intros c Hc. cbn [TensorAccess_get deref]. rewrite lookup_insert_eq.
    cbn [mbind result_bind]. unfold TensorStorage_get. cbn [data_ st_data_type_].
    destruct (offsetForElement_exact _ _ _ _ _
                (CPUTensor_wf_canonical dims Hd Hp) Hc) as [Eoff Hb].
    rewrite Eoff, lookup_replicate_2 by lia. reflexivity.
Qed.

(** X8.  On a packed tensor (the strides of [computeCPUStrides], offset 0,
    a storage of as many elements as the shape has), [set] at a coordinate
    changes what [get] reads there and nowhere else: distinct coordinates
    never share an element. *)
Theorem packed_set_get (t : Tensor) (h : sheap) (st : loc) (s : TensorStorage)
    (c1 c2 : Dims) (v : double) :
  impl_ t = CPUTensor (computeCPUStrides (dims_ t)) st 0 ->
  h !! st = Some s ->
  Forall (fun d => 1 <= d) (dims_ t) -> prod (dims_ t) < 2 ^ 31 ->
  Z.of_nat (length (data_ s)) = prod (dims_ t) ->
  in_bounds (dims_ t) c1 -> in_bounds (dims_ t) c2 ->
  exists view h1,
    Tensor_access t = Some view /\
    TensorAccess_set view c1 v h = Ok h1 /\
    (c1 = c2 ->
     TensorAccess_get view c2 h1
     = Ok (datatype_get (st_data_type_ s) (datatype_set (st_data_type_ s) v), view)) /\
    (c1 <> c2 -> TensorAccess_get view c2 h1 = TensorAccess_get view c2 h).
Proof.
  intros Himpl Hs Hd Hp Hlen Hc1 Hc2.
  rewrite computeCPUStrides_exact in Himpl by done.
  pose proof (CPUTensor_wf_canonical (dims_ t) Hd Hp) as Hwf.
  destruct (offsetForElement_exact _ _ _ _ _ Hwf Hc1) as [E1 B1].
  destruct (offsetForElement_exact _ _ _ _ _ Hwf Hc2) as [E2 B2].
  eexists _, _. split; [unfold Tensor_access; by rewrite Himpl|].
  split.
  { cbn [TensorAccess_set deref]. rewrite Hs. cbn [mbind result_bind].
    unfold TensorStorage_set. rewrite decide_True by lia. reflexivity. }
  split.
  - intros <-. cbn [TensorAccess_get deref]. rewrite lookup_insert_eq.
    cbn [mbind result_bind]. unfold TensorStorage_get. cbn [data_ st_data_type_].
    rewrite list_lookup_insert_eq by lia. reflexivity.
  - intros Hne. cbn [TensorAccess_get deref]. rewrite lookup_insert_eq, Hs.
    cbn [mbind result_bind]. unfold TensorStorage_get. cbn [data_ st_data_type_].
    rewrite list_lookup_insert_ne; [reflexivity|].
    rewrite E1, E2, !Z.add_0_l. intros E. apply Hne.
    apply (dot_canonical_inj (dims_ t)); [done..|].
    pose proof (dot_canonical_bounds _ _ Hc1).
    pose proof (dot_canonical_bounds _ _ Hc2). lia.
Qed.

(** X9.  A CPU tensor without axes cannot be built: the constructor reads
    [size[0]] and [strides[0]] of empty vectors.  [save], which copies the
    tensor into a CPU tensor of its shape, fails the same way on every
    tensor without axes whose type the disk format has. *)
Theorem rank0_out_of_bounds (dt : DataType) (name : option string)
    (this : Tensor) (path : string) (h : sheap) (mm : mmaps) (fs : files) :
  CPUTensor_new dt [] name h = Crash OutOfBounds /\
  (dims_ this = [] -> on_disk (data_type_ this) ->
   Tensor_save this path h mm fs = Crash OutOfBounds).
Proof.
  split; [reflexivity|].
  intros Hdims Hdt. unfold Tensor_save. rewrite Hdims.
  destruct Hdt as [-> | ->]; reflexivity.
Qed.

End PackedTensors.

Lemma makeCPUTensor_zeroed_witness :
  exists t h' view,
    CPUTensor_new FLOAT [2; 3] None grid_heap = Ok (t, h') /\
    Tensor_access t = Some view /\
    @TensorAccess_get integer_scalars view [1; 2] h' = Ok (0, view).
Proof.
  destruct (@makeCPUTensor_zeroed integer_scalars FLOAT [2; 3] None grid_heap)
    as (t & h' & view & E & _ & _ & _ & _ & Hv & _ & Hget).
  - discriminate.
  - repeat constructor; lia.
  - reflexivity.
  - exists t, h', view. split; [exact E|]. split; [exact Hv|].
    apply Hget. repeat constructor; lia.
Defined.

(** on [flat_tensor]: after [set] at [[2,1]], [get] at [[0,1]] reads what
    it read before *)
Lemma packed_set_get_witness :
  exists view h1,
    Tensor_access flat_tensor = Some view /\
    @TensorAccess_set integer_scalars view [2; 1] 42 copy_heap = Ok h1 /\
    @TensorAccess_get integer_scalars view [0; 1] h1
    = @TensorAccess_get integer_scalars view [0; 1] copy_heap.
Proof.
  destruct (@packed_set_get integer_scalars flat_tensor copy_heap 2%positive
              (mkStorage FLOAT [0; 0; 0; 0; 0; 0]) [2; 1] [0; 1] 42)
    as (view & h1 & Hv & Hset & _ & Hne); try reflexivity;
    try (repeat constructor; lia).
  exists view, h1. split; [exact Hv|]. split; [exact Hset|].
  apply Hne. discriminate.
Defined.

(** ** Slices of slices *)

Lemma wrap_signed_add_l (w a b : Z) :
  0 < w -> Int.wrap_signed w (Int.wrap_signed w a + b) = Int.wrap_signed w (a + b).
Proof.
  intros Hw. destruct (wrap_signed_eqm w a Hw) as [k ->].
  unfold Int.wrap_signed. f_equal.
  replace (a + 2 ^ w * k + b + 2 ^ (w - 1))
    with (a + b + 2 ^ (w - 1) + k * 2 ^ w) by lia.
  apply Z_mod_plus_full.
Qed.

Lemma to_int64_range (z : Z) : - 2 ^ 63 <= Int.to_int64 z < 2 ^ 63.
Proof.
  unfold Int.to_int64, Int.wrap_signed.
  pose proof (Z.mod_pos_bound (z + 2 ^ (64 - 1)) (2 ^ 64) ltac:(lia)). lia.
Qed.

(** [CPUTensor::slice] adds the dot product of the offset with the strides
    to the base offset, as an [int64_t]. *)
Lemma CPUTensor_slice_offset_wraps (off : Z) (strides offset : Dims) :
  - 2 ^ 63 <= off < 2 ^ 63 ->
  CPUTensor_slice_offset off strides offset
  = Int.to_int64 (off + dot offset strides).
Proof.
  unfold CPUTensor_slice_offset, dot. generalize (zip offset strides) as l.
  intros l. revert off. induction l as [|[o s] l IH]; intros off Hoff.
  - cbn [fold_left foldr]. rewrite Z.add_0_r. symmetry. by apply to_int64_id.
  - cbn [fold_left foldr fst snd]. rewrite IH by apply to_int64_range.
    unfold Int.to_int64.
    rewrite wrap_signed_add_l by lia.
    rewrite (Z.add_comm off), <- (Z.add_assoc _ off).
    rewrite wrap_signed_add_l by lia. f_equal. lia.
Qed.

(** X10.  Slicing a slice of a CPU tensor is slicing the tensor at the sum
    of the two offsets: both results have the same storage, strides, base
    offset, shape, data type and element count. *)
Theorem slice_of_slice (T S1 : Tensor) (h : sheap) (strides : Dims) (st : loc)
    (off : Z) (o1 o2 size1 size2 : Dims) :
  impl_ T = CPUTensor strides st off ->
  - 2 ^ 63 <= off < 2 ^ 63 ->
  length o1 = length o2 ->
  Tensor_slice T o1 size1 h = Ok (Some S1) ->
  exists S2 S12,
    Tensor_slice S1 o2 size2 h = Ok (Some S2) /\
    Tensor_slice T (zip_with Z.add o1 o2) size2 h = Ok (Some S12) /\
    impl_ S2 = impl_ S12 /\
    impl_ S2 = CPUTensor strides st
                 (Int.to_int64 (off + dot o1 strides + dot o2 strides)) /\
    dims_ S2 = size2 /\ dims_ S12 = size2 /\
    data_type_ S2 = data_type_ S12 /\
    elements_ S2 = elements_ S12.
Proof.
  intros HT Hoff Hlen Hs1. unfold Tensor_slice in *. rewrite HT in *.
  destruct (deref h (Some st)) as [s|] eqn:Hs; [|discriminate].
  cbn [mbind result_bind] in *. apply Ok_inj in Hs1.
  apply (inj Some) in Hs1. subst S1. cbn [impl_ Tensor_new].
  rewrite Hs. cbn [mbind result_bind].
  eexists _, _. split; [reflexivity|]. split; [reflexivity|].
  cbn [impl_ dims_ data_type_ elements_ Tensor_new].
  assert (E : CPUTensor_slice_offset
                (CPUTensor_slice_offset off strides o1) strides o2
              = Int.to_int64 (off + dot o1 strides + dot o2 strides)).
  { rewrite (CPUTensor_slice_offset_wraps off) by done.
    rewrite CPUTensor_slice_offset_wraps by apply to_int64_range.
    unfold Int.to_int64. by rewrite wrap_signed_add_l. }
  rewrite E, (CPUTensor_slice_offset_wraps off) by done.
  rewrite dot_zip_with_add by done. rewrite Z.add_assoc.
  repeat split; reflexivity.
Qed.

(** in [grid_tensor]: the slice at [[1,0]] of the slice at [[0,1]] starts
    at the element [[1,1]], flat offset 4 *)
Lemma slice_of_slice_witness :
  exists S2,
    Tensor_slice (Tensor_new FLOAT [2; 2] (Some "t.slice"%string)
                    (CPUTensor [3; 1] 1%positive 1))
                 [1; 0] [1; 2] grid_heap = Ok (Some S2) /\
    impl_ S2 = CPUTensor [3; 1] 1%positive 4.
Proof.
  destruct (slice_of_slice grid_tensor
              (Tensor_new FLOAT [2; 2] (Some "t.slice"%string)
                 (CPUTensor [3; 1] 1%positive 1))
              grid_heap [3; 1] 1%positive 0 [0; 1] [1; 0] [2; 2] [1; 2])
    as (S2 & S12 & E2 & _ & _ & Himpl & _); try reflexivity.
  - lia.
  - exists S2. split; [exact E2|]. exact Himpl.
Defined.

(** ** The registry: what [find] guarantees *)

(** X11.  Whatever [find] returns is a live tensor of the requested type
    and shape.  [find] never removes or rebinds a name of the registry and
    never changes a tensor that exists: the registry gains at most the name
    asked for, and without a name it stays as it was. *)
Theorem Tensor_find_post (D : DataType) (S : Dims) (mean stddev : double)
    (R R' : Tensors.t) (name : option string) (h h' : theap) (p : ptr) :
  Tensor_find D S mean stddev R name h = Ok (p, R', h') ->
  (exists t, deref h' p = Ok t /\ data_type_ t = D /\ dims_ t = S) /\
  (forall l t, h !! l = Some t -> h' !! l = Some t) /\
  (forall n q, R !! n = Some q -> R' !! n = Some q) /\
  (forall n, name <> Some n -> R' !! n = R !! n) /\
  (name = None -> R' = R).
Proof.
  intros Hfind.
  assert (Hfresh : forall t l a, h !! l = Some a ->
            (<[fresh (dom h) := t]> h) !! l = Some a).
  { intros t l a Hl. rewrite lookup_insert_ne; [done|].
    intros <-. apply (is_fresh (dom h)). apply elem_of_dom. eauto. }
  unfold Tensor_find, alloc in Hfind.
  destruct name as [n|].
  - destruct (R !! n) as [q|] eqn:HR.
    + destruct (deref h q) as [obj|] eqn:Hobj; [|discriminate].
      cbn [mbind result_bind] in Hfind.
      destruct (decide (data_type_ obj = D)) as [HD|]; [|discriminate].
      destruct (decide (dims_ obj = S)) as [HS|]; [|discriminate].
      apply Ok_inj in Hfind. injection Hfind as <- <- <-.
      split; [by exists obj|]. repeat split; (done || auto).
    + apply Ok_inj in Hfind. injection Hfind as <- <- <-.
      split.
      { eexists. cbn [deref]. rewrite lookup_insert_eq. split; [reflexivity|].
        split; reflexivity. }
      split; [by apply Hfresh|]. split.
      { intros n' q Hn'. rewrite lookup_insert_ne; [done|]. congruence. }
      split; [|discriminate].
      intros n' Hne. rewrite lookup_insert_ne; [done|]. congruence.
  - apply Ok_inj in Hfind. injection Hfind as <- <- <-.
    split.
    { eexists. cbn [deref]. rewrite lookup_insert_eq. split; [reflexivity|].
      split; reflexivity. }
    split; [by apply Hfresh|]. repeat split; (done || auto).
Qed.

Lemma Tensor_find_post_witness :
  exists p R' h' t,
    Tensor_find FLOAT [2; 3] 0 1 {[ "w"%string := None ]} None ∅ = Ok (p, R', h') /\
    deref h' p = Ok t /\ dims_ t = [2; 3] /\
    R' = {[ "w"%string := None ]}.
Proof.
  destruct (Tensor_find FLOAT [2; 3] 0 1 {[ "w"%string := None ]} None ∅)
    as [[[p R'] h']|] eqn:E; [|discriminate].
  destruct (Tensor_find_post FLOAT [2; 3] 0 1 {[ "w"%string := None ]} R' None
              ∅ h' p E) as ((t & Ht & _ & Hd) & _ & _ & _ & HR).
  exists p, R', h', t. split; [reflexivity|]. split; [exact Ht|].
  split; [exact Hd|]. by apply HR.
Defined.

(** ** Output-shape inference: pooling, failures, and what every rule
    produces *)

(** One spatial extent as [makePoolingOutputTensor] computes it. *)
Lemma pool_outputdim (inputdim pad size stride : Z) :
  0 <= inputdim -> 0 <= pad -> 1 <= size -> 1 <= stride ->
  inputdim + 2 * pad < Int.INT_MAX ->
  size <= inputdim + 2 * pad ->
  (q ← Int.div (Int.sub (Int.add (Int.to_int inputdim) (Int.mul 2 pad)) size)
               stride;
   Ok (Int.add 1 q))
  = Ok (1 + (inputdim + 2 * pad - size) / stride).
Proof.
  intros Hi Hp Hsz Hs Hmax Hfit. unfold Int.INT_MAX in Hmax.
  assert (Hin : forall z, 0 <= z < 2 ^ 31 - 1 -> Int.in_int z).
  { intros z Hz. unfold Int.in_int, Int.INT_MIN, Int.INT_MAX. lia. }
  rewrite (to_int_id inputdim) by (apply Hin; lia).
  rewrite (int_mul_id 2 pad) by (apply Hin; lia).
  rewrite int_add_id by (apply Hin; lia).
  rewrite int_sub_id by (apply Hin; lia).
  set (num := inputdim + 2 * pad - size).
  assert (Hnum : 0 <= num < 2 ^ 31 - 1) by (unfold num; lia).
  rewrite int_div_floor by (try apply Hin; lia).
  simpl. f_equal. apply int_add_id. apply Hin.
  pose proof (Z.div_pos num stride ltac:(lia) ltac:(lia)).
  pose proof (Z.div_le_upper_bound num stride num ltac:(lia) ltac:(nia)). lia.
Qed.

(** X12.  For a pooling node whose input ["x"] of shape [[n,c,h,w]] is
    present, with a window [size >= 1], [pad >= 0] and [stride >= 1] (each 1
    when the attribute is absent), a window that fits the padded input and
    extents within [int], output-shape inference produces a tensor of
    [x]'s data type and of shape
    [[1, c, 1 + floor((h + 2 pad - size) / stride),
            1 + floor((w + 2 pad - size) / stride)]]: the channels pass
    through and the leading dimension is the constant 1. *)
Theorem makePoolingOutputTensor_shape (th : theap) (name : string) (nd : Node)
    (px : loc) (x : Tensor) (n c h wd : Z) :
  let size := (Attributes.get TInt "size" 1 (attributes_ nd)).1 in
  let pad := (Attributes.get TInt "pad" 1 (attributes_ nd)).1 in
  let stride := (Attributes.get TInt "stride" 1 (attributes_ nd)).1 in
  Tensors.get "x" (inputs_ nd) = Some px ->
  th !! px = Some x ->
  dims_ x = [n; c; h; wd] ->
  1 <= size -> 0 <= pad -> 1 <= stride ->
  Int.in_int c -> 0 <= h -> 0 <= wd ->
  h + 2 * pad < Int.INT_MAX -> wd + 2 * pad < Int.INT_MAX ->
  size <= h + 2 * pad -> size <= wd + 2 * pad ->
  makePoolingOutputTensor th name nd =
    Ok (Some (Tensor_new (data_type_ x)
                [1; c;
                 1 + (h + 2 * pad - size) / stride;
                 1 + (wd + 2 * pad - size) / stride]
                (Some name) PlainTensor)).
Proof.
  intros size pad stride Hx Hpx Hdx Hsz Hp Hs Hc Hh Hwd Hmh Hmw Hfh Hfw.
  unfold makePoolingOutputTensor. fold size pad stride.
  clearbody size pad stride.
  rewrite Hx. simpl. rewrite Hpx. simpl.
  rewrite Hdx. simpl. rewrite (to_int_id c) by done.
  pose proof (pool_outputdim h pad size stride Hh Hp Hsz Hs Hmh Hfh) as Eh.
  pose proof (pool_outputdim wd pad size stride Hwd Hp Hsz Hs Hmw Hfw) as Ew.
  destruct (Int.div _ stride) as [qh|] eqn:Eqh in Eh |- *; [|discriminate].
  simpl in Eh. injection Eh as Eh. simpl.
  destruct (Int.div _ stride) as [qw|] eqn:Eqw in Ew |- *; [|discriminate].
  simpl in Ew. injection Ew as Ew. simpl.
  rewrite Ew, Eh. reflexivity.
Qed.

(** a [24 x 24] input pooled with window 2 and stride 2: [12 x 12], and a
    batch of 4 becomes 1 *)
Lemma makePoolingOutputTensor_shape_witness :
  makePoolingOutputTensor pool_heap "y" (pool_node 2) =
    Ok (Some (Tensor_new FLOAT [1; 8; 12; 12] (Some "y"%string) PlainTensor)).
Proof.
  apply (makePoolingOutputTensor_shape pool_heap "y" (pool_node 2) 1%positive
           (Tensor_new FLOAT [4; 8; 24; 24] (Some "x"%string) PlainTensor)
           4 8 24 24);
    try reflexivity; vm_compute; try split; congruence.
Defined.

(** X13.  A stride of 0 makes shape inference divide by zero: for a
    pooling node as soon as ["x"] has four axes, for a convolution node as
    soon as ["x"] and ["w"] have four axes, whatever the other
    attributes are. *)
Theorem zero_stride_divides_by_zero (th : theap) (name : string) (nd : Node)
    (px : loc) (x : Tensor) (x0 x1 x2 x3 : Z) (xs : Dims) :
  (Attributes.get TInt "stride" 1 (attributes_ nd)).1 = 0 ->
  Tensors.get "x" (inputs_ nd) = Some px ->
  th !! px = Some x ->
  dims_ x = x0 :: x1 :: x2 :: x3 :: xs ->
  makePoolingOutputTensor th name nd = Crash DivByZero /\
  (forall pw w w0 w1 w2 w3 ws,
     Tensors.get "w" (inputs_ nd) = Some pw -> th !! pw = Some w ->
     dims_ w = w0 :: w1 :: w2 :: w3 :: ws ->
     makeConvOutputTensor th name nd = Crash DivByZero).
Proof.
  intros Hstride Hx Hpx Hdx. split.
  - unfold makePoolingOutputTensor. rewrite Hstride, Hx. simpl.
    rewrite Hpx. simpl. rewrite Hdx. reflexivity.
  - intros pw w w0 w1 w2 w3 ws Hw Hpw Hdw.
    unfold makeConvOutputTensor. rewrite Hstride, Hw, Hx. simpl.
    rewrite Hpw, Hpx. simpl. rewrite Hdw, Hdx. reflexivity.
Qed.

Lemma zero_stride_divides_by_zero_witness :
  makePoolingOutputTensor pool_heap "y" (pool_node 0) = Crash DivByZero.
Proof.
  apply (zero_stride_divides_by_zero pool_heap "y" (pool_node 0) 1%positive
           (Tensor_new FLOAT [4; 8; 24; 24] (Some "x"%string) PlainTensor)
           4 8 24 24 []); reflexivity.
Defined.

Section InferenceRules.
Context `{Scalars}.

(** the head of a chain of binds is taken apart until the result shows *)
Ltac rule_inv Hr :=
  unfold mbind, result_bind, fmap, result_fmap in Hr;
  repeat match type of Hr with
         | match ?x with _ => _ end = _ =>
             destruct x eqn:?; try discriminate Hr
         end.

(** what every shape rule builds: a tensor without data, named as asked *)
Lemma shape_rule_result (th : theap) (sh : sheap) (name : string) (n : Node)
    (t : Tensor) :
  match type_ n with
  | CONV => makeConvOutputTensor th name n
  | FC => makeFCOutputTensor th name n
  | MAXPOOL | AVGPOOL => makePoolingOutputTensor th name n
  | RESHAPE => makeReshapeOutputTensor th sh name n
  | BATCHNORM | SOFTMAX | RELU | DROPOUT =>
      makeOutputTensorFromBlueprint th name "x" n
  | SUM => makeOutputTensorFromBlueprint th name "x0" n
  | OTHER => Ok None
  end = Ok (Some t) ->
  type_ n <> OTHER /\
  exists dt dims, t = Tensor_new dt dims (Some name) PlainTensor.
Proof.
  intros Hr. split; [intros E; rewrite E in Hr; discriminate|].
  destruct (type_ n);
    [ unfold makeConvOutputTensor in Hr
    | unfold makeFCOutputTensor in Hr
    | unfold makePoolingOutputTensor in Hr
    | unfold makePoolingOutputTensor in Hr
    | unfold makeReshapeOutputTensor in Hr
    | unfold makeOutputTensorFromBlueprint in Hr
    | unfold makeOutputTensorFromBlueprint in Hr
    | unfold makeOutputTensorFromBlueprint in Hr
    | unfold makeOutputTensorFromBlueprint in Hr
    | unfold makeOutputTensorFromBlueprint in Hr
    | discriminate ];
    rule_inv Hr; apply Ok_inj in Hr; apply (inj Some) in Hr; subst t; eauto.
Qed.

(** the tensor [Node::makeOutputTensor] returns is at a location that was
    free, and is the node's output ["y"] *)
Lemma Node_makeOutputTensor_output (th th' : theap) (sh : sheap) (name : string)
    (n n' : Node) (p : ptr) :
  Node_makeOutputTensor th sh name n = Ok (p, n', th') ->
  exists l, p = Some l /\ th !! l = None /\
            outputs_ n' !! "y"%string = Some (Some l).
Proof.
  unfold Node_makeOutputTensor. intros Hm.
  destruct (match type_ n with CONV => _ | _ => _ end) as [[t|]|] eqn:Hr;
    try discriminate.
  cbn [mbind result_bind] in Hm. unfold alloc in Hm.
  apply Ok_inj in Hm. injection Hm as <- <- <-.
  eexists. split; [reflexivity|].
  split; [apply not_elem_of_dom, is_fresh|]. apply lookup_insert_eq.
Qed.

(** X14.  Whenever [Node::makeOutputTensor] returns, it returns a new
    tensor: one at a location that was free, without data, named as asked,
    with the element count of its shape.  The node's kind, inputs and
    attributes are as before, its output ["y"] is the new tensor, its other
    outputs are as before, and every tensor that existed is unchanged. *)
Theorem Node_makeOutputTensor_post (th th' : theap) (sh : sheap) (name : string)
    (n n' : Node) (p : ptr) :
  Node_makeOutputTensor th sh name n = Ok (p, n', th') ->
  exists l t,
    p = Some l /\ th !! l = None /\ th' = <[l := t]> th /\
    name_ t = Some name /\ impl_ t = PlainTensor /\
    elements_ t = elements_from_dims (dims_ t) /\
    type_ n' = type_ n /\ inputs_ n' = inputs_ n /\
    attributes_ n' = attributes_ n /\
    outputs_ n' = <["y"%string := Some l]> (outputs_ n) /\
    (forall l0 t0, th !! l0 = Some t0 -> th' !! l0 = Some t0).
Proof.
  unfold Node_makeOutputTensor. intros Hm.
  destruct (match type_ n with CONV => _ | _ => _ end) as [[t|]|] eqn:Hr;
    try discriminate.
  destruct (shape_rule_result th sh name n t Hr) as (_ & dt & dims & ->).
  cbn [mbind result_bind] in Hm. unfold alloc in Hm.
  apply Ok_inj in Hm. injection Hm as <- <- <-.
  eexists _, _. split; [reflexivity|].
  split; [apply not_elem_of_dom, is_fresh|].
  split; [reflexivity|]. repeat split.
  intros l0 t0 Hl0. rewrite lookup_insert_ne; [done|].
  intros <-. apply (is_fresh (dom th)). apply elem_of_dom. eauto.
Qed.

(** X15.  [Node::makeOutputTensor] aborts on a kind it has no rule for,
    and on every kind as soon as one of the inputs its rule looks up
    (["w"] and ["x"] for a convolution, ["w"] for a fully connected node,
    ["x"] for pooling and the element-wise kinds, ["x"] and ["shape"] for
    a reshape, ["x0"] for a sum) is absent or null. *)
Theorem Node_makeOutputTensor_missing_input (th : theap) (sh : sheap)
    (name : string) (n : Node) :
  type_ n = OTHER \/
  (exists k, k ∈ required_inputs (type_ n) /\ Tensors.get k (inputs_ n) = None) ->
  Node_makeOutputTensor th sh name n = Crash Aborted.
Proof.
  unfold Node_makeOutputTensor.
  intros [->|(k & Hk & Hget)]; [reflexivity|].
  destruct (type_ n); cbn [required_inputs] in Hk;
    repeat (apply elem_of_cons in Hk as [->|Hk]);
    try (by apply elem_of_nil in Hk);
    unfold makeConvOutputTensor, makeFCOutputTensor, makePoolingOutputTensor,
      makeReshapeOutputTensor, makeOutputTensorFromBlueprint;
    rewrite ?Hget; try reflexivity.
  - destruct (Tensors.get "w" (inputs_ n)); reflexivity.
  - destruct (Tensors.get "x" (inputs_ n)); reflexivity.
Qed.

End InferenceRules.

Lemma Node_makeOutputTensor_post_witness :
  exists l t,
    @Node_makeOutputTensor integer_scalars pool_heap ∅ "y" (pool_node 2)
    = Ok (Some l,
          mkNode MAXPOOL (inputs_ (pool_node 2)) (attributes_ (pool_node 2))
                 {[ "y"%string := Some l ]},
          <[l := t]> pool_heap) /\
    pool_heap !! l = None /\ impl_ t = PlainTensor.
Proof.
  destruct (@Node_makeOutputTensor integer_scalars pool_heap ∅ "y" (pool_node 2))
    as [[[p n'] th']|] eqn:E; [|vm_compute in E; discriminate].
  destruct (@Node_makeOutputTensor_post integer_scalars pool_heap th' ∅ "y"
              (pool_node 2) n' p E)
    as (l & t & -> & Hl & -> & _ & Ht & _ & Hty & Hin & Hat & Hout & _).
  exists l, t. split; [|done].
  destruct n' as [ty ins ats outs]. cbn [type_ inputs_ attributes_ outputs_] in *.
  subst. reflexivity.
Defined.

(** the convolution node without its filter *)
Lemma Node_makeOutputTensor_missing_input_witness :
  @Node_makeOutputTensor integer_scalars (conv_heap 1) ∅ "y"
     (mkNode CONV {[ "x"%string := Some 1%positive ]} ∅ ∅)
  = Crash Aborted.
Proof.
  apply (@Node_makeOutputTensor_missing_input integer_scalars).
  right. exists "w"%string. split; [left|reflexivity].
Defined.

(** ** Graphs: inferred outputs and usage maps *)

Section InferredOutputs.
Context `{Scalars}.

(** X16.  In a graph whose nodes only consume tensors that existed before
    the call, the tensor [Node::makeOutputTensor] has created for one of
    the nodes is an output tensor of the graph and not an input tensor of
    it: nothing can consume it yet. *)
Theorem inferred_output_is_graph_output (th th' : theap) (sh : sheap)
    (name : string) (n n' : Node) (p : ptr) (g : Graph) :
  Node_makeOutputTensor th sh name n = Ok (p, n', th') ->
  n' ∈ nodes_ g ->
  (forall m k q, m ∈ nodes_ g -> inputs_ m !! k = Some (Some q) ->
                 is_Some (th !! q)) ->
  p ∈ outputTensors g /\ p ∉ inputTensors g.
Proof.
  intros Hm Hn' Hlive.
  destruct (Node_makeOutputTensor_output th th' sh name n n' p Hm)
    as (l & -> & Hl & Hout).
  assert (Hnot : ~ exists m k, m ∈ nodes_ g /\ inputs_ m !! k = Some (Some l)).
  { intros (m & k & Hmg & Hk). destruct (Hlive m k l Hmg Hk) as [t0 Ht0].
    congruence. }
  unfold outputTensors, inputTensors.
  rewrite !elem_of_erase_nodes, !elem_of_insert_nodes, elem_of_empty. split.
  - split; [|exact Hnot]. right. by exists n', "y"%string.
  - intros [[[]|Hin] _]. by apply Hnot.
Qed.

End InferredOutputs.

Lemma inferred_output_is_graph_output_witness :
  exists p n' th',
    @Node_makeOutputTensor integer_scalars pool_heap ∅ "y" (pool_node 2)
    = Ok (p, n', th') /\
    p ∈ outputTensors (mkGraph [n'] ∅).
Proof.
  destruct (@Node_makeOutputTensor integer_scalars pool_heap ∅ "y" (pool_node 2))
    as [[[p n'] th']|] eqn:E; [|vm_compute in E; discriminate].
  exists p, n', th'. split; [reflexivity|].
  apply (@inferred_output_is_graph_output integer_scalars pool_heap th' ∅ "y"
           (pool_node 2) n' p (mkGraph [n'] ∅) E).
  - left.
  - intros m k q Hm Hk. cbn [nodes_] in Hm. apply list_elem_of_singleton in Hm.
    subst m.
    assert (Hin : inputs_ n' = inputs_ (pool_node 2)).
    { vm_compute in E. by injection E as _ <- _. }
    rewrite Hin in Hk. cbn [inputs_ pool_node] in Hk.
    apply lookup_singleton_Some in Hk as [_ Hq]. injection Hq as <-.
    by eexists.
Defined.

Lemma elem_of_push_back_all (n : Node) (m : Tensors.t) (usage : TensorMapping)
    (p : ptr) (k : string) (n0 : Node) :
  (k, n0) ∈ default [] (push_back_all n m usage !! p)
  <-> (k, n0) ∈ default [] (usage !! p) \/ (n0 = n /\ m !! k = Some p).
Proof.
  unfold push_back_all.
  assert (Hl : forall (l : list (string * ptr)) (u : TensorMapping),
            (k, n0) ∈ default []
               (foldl (fun acc t => <[t.2 := default [] (acc !! t.2) ++ [(t.1, n)]]> acc)
                      u l !! p)
            <-> (k, n0) ∈ default [] (u !! p) \/ (n0 = n /\ (k, p) ∈ l)).
  { induction l as [|[k1 q] l IH]; intros u; cbn [foldl fst snd].
    - split; [auto|]. intros [Hu|[_ Hk]]; [done|]. by apply elem_of_nil in Hk.
    - rewrite IH. destruct (decide (q = p)) as [->|Hne].
      + rewrite lookup_insert_eq. cbn [default from_option id]. rewrite elem_of_app.
        rewrite list_elem_of_singleton, elem_of_cons. split.
        * intros [[Hu|E]|[-> Hk]]; [by left| |by right; split; [|right]].
          injection E as -> ->. right. split; [done|by left].
        * intros [Hu|[-> [E|Hk]]]; [by left; left| |by right].
          injection E as ->. left. by right.
      + rewrite lookup_insert_ne by done. rewrite elem_of_cons. split.
        * intros [Hu|[-> Hk]]; [by left|]. right. split; [done|by right].
        * intros [Hu|[-> [E|Hk]]]; [by left| |by right].
          injection E as _ ->. done. }
  rewrite Hl. split; intros [Hu|[-> Hk]]; auto; right; (split; [done|]);
    by apply elem_of_map_to_list.
Qed.

Lemma elem_of_tensorMappings (ns : list Node) (acc : TensorMapping * TensorMapping)
    (p : ptr) (k : string) (n0 : Node) :
  let r := foldl (fun acc n => (push_back_all n (inputs_ n) acc.1,
                                push_back_all n (outputs_ n) acc.2)) acc ns in
  ((k, n0) ∈ default [] (r.1 !! p)
   <-> (k, n0) ∈ default [] (acc.1 !! p) \/ (n0 ∈ ns /\ inputs_ n0 !! k = Some p)) /\
  ((k, n0) ∈ default [] (r.2 !! p)
   <-> (k, n0) ∈ default [] (acc.2 !! p) \/ (n0 ∈ ns /\ outputs_ n0 !! k = Some p)).
Proof.
  cbv zeta. revert acc. induction ns as [|n ns IH]; intros acc; cbn [foldl].
  - split; (split; [auto|]); intros [Hu|[Hn _]]; try done;
      by apply elem_of_nil in Hn.
  - destruct (IH (push_back_all n (inputs_ n) acc.1,
                  push_back_all n (outputs_ n) acc.2)) as [IH1 IH2].
    cbn [fst snd] in IH1, IH2. rewrite IH1, IH2, !elem_of_push_back_all.
    split; (split;
      [ intros [[Hu|[-> Hk]]|[Hn Hk]];
        [by left|right; split; [left|done]|right; split; [by right|done]]
      | intros [Hu|[Hn Hk]]; [by left; left|];
        apply elem_of_cons in Hn as [->|Hn]; [left; right; done|right; done] ]).
Qed.

Lemma dom_usage (u : TensorMapping) (p : ptr) :
  (forall q l, u !! q = Some l -> l <> []) ->
  p ∈ dom u <-> exists kn, kn ∈ default [] (u !! p).
Proof.
  intros Hne. rewrite elem_of_dom. split.
  - intros [l Hl]. rewrite Hl. cbn [default from_option id].
    destruct l as [|kn l]; [by apply Hne in Hl|]. exists kn. left.
  - intros [kn Hkn]. destruct (u !! p) as [l|]; [by eexists|].
    by apply elem_of_nil in Hkn.
Qed.

Lemma push_back_all_nonempty (n : Node) (m : Tensors.t) (usage : TensorMapping) :
  (forall q l, usage !! q = Some l -> l <> []) ->
  forall q l, push_back_all n m usage !! q = Some l -> l <> [].
Proof.
  unfold push_back_all. generalize (map_to_list m) as ts. intros ts. revert usage.
  induction ts as [|[k1 p1] ts IH]; intros usage Hu; cbn [foldl fst snd]; [done|].
  apply IH. intros q l. destruct (decide (p1 = q)) as [->|Hne].
  - rewrite lookup_insert_eq. intros [= <-]. by destruct (default [] (usage !! q)).
  - rewrite lookup_insert_ne by done. apply Hu.
Qed.

Lemma tensorMappings_nonempty (ns : list Node) (acc : TensorMapping * TensorMapping) :
  let r := foldl (fun acc n => (push_back_all n (inputs_ n) acc.1,
                                push_back_all n (outputs_ n) acc.2)) acc ns in
  (forall q l, acc.1 !! q = Some l -> l <> []) ->
  (forall q l, acc.2 !! q = Some l -> l <> []) ->
  (forall q l, r.1 !! q = Some l -> l <> []) /\
  (forall q l, r.2 !! q = Some l -> l <> []).
Proof.
  cbv zeta. revert acc. induction ns as [|n ns IH]; intros acc H1 H2; cbn [foldl];
    [done|].
  apply IH; cbn [fst snd]; by apply push_back_all_nonempty.
Qed.

(** X17.  [Graph::tensorMappings]: the first map lists, under each tensor,
    exactly the [(name, node)] pairs such that the node is in the graph and
    has the tensor as its input of that name; the second map does the same
    for outputs.  The keys of the first map that are not keys of the second
    are the graph's input tensors, and conversely for its output tensors. *)
Theorem tensorMappings_usage (g : Graph) :
  let input_usage := (tensorMappings g).1 in
  let output_usage := (tensorMappings g).2 in
  (forall p k n, (k, n) ∈ default [] (input_usage !! p)
                 <-> n ∈ nodes_ g /\ inputs_ n !! k = Some p) /\
  (forall p k n, (k, n) ∈ default [] (output_usage !! p)
                 <-> n ∈ nodes_ g /\ outputs_ n !! k = Some p) /\
  inputTensors g = dom input_usage ∖ dom output_usage /\
  outputTensors g = dom output_usage ∖ dom input_usage.
Proof.
  cbv zeta. unfold tensorMappings.
  assert (Hin : forall p k n,
            (k, n) ∈ default [] ((tensorMappings g).1 !! p)
            <-> n ∈ nodes_ g /\ inputs_ n !! k = Some p).
  { intros p k n.
    destruct (elem_of_tensorMappings (nodes_ g) (∅, ∅) p k n) as [E _].
    cbv zeta in E. unfold tensorMappings. rewrite E. cbn [fst].
    rewrite lookup_empty. cbn [default from_option id]. rewrite elem_of_nil. tauto. }
  assert (Hout : forall p k n,
            (k, n) ∈ default [] ((tensorMappings g).2 !! p)
            <-> n ∈ nodes_ g /\ outputs_ n !! k = Some p).
  { intros p k n.
    destruct (elem_of_tensorMappings (nodes_ g) (∅, ∅) p k n) as [_ E].
    cbv zeta in E. unfold tensorMappings. rewrite E. cbn [snd].
    rewrite lookup_empty. cbn [default from_option id]. rewrite elem_of_nil. tauto. }
  destruct (tensorMappings_nonempty (nodes_ g) (∅, ∅)) as [N1 N2];
    [intros q l; cbn [fst snd]; by rewrite lookup_empty..|].
  cbv zeta in N1, N2. fold (tensorMappings g) in N1, N2 |- *.
  assert (Din : forall p, p ∈ dom (tensorMappings g).1
                          <-> exists n k, n ∈ nodes_ g /\ inputs_ n !! k = Some p).
  { intros p. rewrite (dom_usage _ p N1). split.
    - intros [[k n] Hkn]. apply Hin in Hkn. eauto.
    - intros (n & k & Hn). exists (k, n). by apply Hin. }
  assert (Dout : forall p, p ∈ dom (tensorMappings g).2
                           <-> exists n k, n ∈ nodes_ g /\ outputs_ n !! k = Some p).
  { intros p. rewrite (dom_usage _ p N2). split.
    - intros [[k n] Hkn]. apply Hout in Hkn. eauto.
    - intros (n & k & Hn). exists (k, n). by apply Hout. }
  split; [exact Hin|]. split; [exact Hout|]. split.
  - apply set_eq. intros p. unfold inputTensors.
    rewrite elem_of_erase_nodes, elem_of_insert_nodes, elem_of_empty.
    rewrite elem_of_difference, Din, Dout. tauto.
  - apply set_eq. intros p. unfold outputTensors.
    rewrite elem_of_erase_nodes, elem_of_insert_nodes, elem_of_empty.
    rewrite elem_of_difference, Din, Dout. tauto.
Qed.

(** ** Numbered families of tensors *)

Lemma getv_key_inj (n : string) (i j : Z) :
  (n +:+ pretty i)%string = (n +:+ pretty j)%string -> i = j.
Proof. intros E. apply (inj (String.app n)) in E. by apply (inj pretty) in E. Qed.

Lemma getv_loop_Some (n : string) (m : Tensors.t) (fuel : nat) :
  forall (i : Z) (v : list ptr),
  0 <= i -> i + Z.of_nat fuel <= 2 ^ 31 ->
  Tensors.getv_loop fuel n i m = Some v ->
  (forall j p, v !! j = Some p ->
               m !! (n +:+ pretty (i + Z.of_nat j))%string = Some p) /\
  m !! (n +:+ pretty (i + Z.of_nat (length v)))%string = None /\
  (length v < fuel)%nat.
Proof.
  induction fuel as [|fuel IH]; intros i v Hi Hfuel Hv; [discriminate|].
  cbn [Tensors.getv_loop] in Hv.
  destruct (m !! (n +:+ pretty i)%string) as [p0|] eqn:Ekey.
  - destruct (Tensors.getv_loop fuel n (Int.add i 1) m) as [v'|] eqn:Erec;
      [|discriminate].
    cbn in Hv. injection Hv as <-.
    destruct fuel as [|fuel']; [discriminate|].
    assert (Ei : Int.add i 1 = i + 1).
    { apply int_add_id. unfold Int.in_int, Int.INT_MIN, Int.INT_MAX. lia. }
    rewrite Ei in Erec.
    destruct (IH (i + 1) v' ltac:(lia) ltac:(lia) Erec) as (Hj & Hend & Hlen).
    split; [|split].
    + intros [|j] p Hp; cbn in Hp.
      * injection Hp as <-. by rewrite Z.add_0_r.
      * replace (i + Z.of_nat (S j)) with (i + 1 + Z.of_nat j) by lia. by apply Hj.
    + cbn [length].
      replace (i + Z.of_nat (S (length v'))) with (i + 1 + Z.of_nat (length v'))
        by lia. exact Hend.
    + cbn [length]. lia.
  - injection Hv as <-. split; [intros j p Hp; discriminate|].
    cbn [length]. rewrite Z.add_0_r. split; [done|lia].
Qed.

Lemma getv_loop_None (n : string) (m : Tensors.t) (fuel : nat) :
  forall (i : Z),
  0 <= i -> i + Z.of_nat fuel <= 2 ^ 31 ->
  Tensors.getv_loop fuel n i m = None ->
  forall j, (j < fuel)%nat -> is_Some (m !! (n +:+ pretty (i + Z.of_nat j))%string).
Proof.
  induction fuel as [|fuel IH]; intros i Hi Hfuel Hv j Hj; [lia|].
  cbn [Tensors.getv_loop] in Hv.
  destruct (m !! (n +:+ pretty i)%string) as [p0|] eqn:Ekey; [|discriminate].
  destruct j as [|j]; [rewrite Z.add_0_r, Ekey; by eexists|].
  destruct fuel as [|fuel']; [lia|].
  destruct (Tensors.getv_loop (S fuel') n (Int.add i 1) m) as [v'|] eqn:Erec;
    [discriminate|].
  assert (Ei : Int.add i 1 = i + 1).
  { apply int_add_id. unfold Int.in_int, Int.INT_MIN, Int.INT_MAX. lia. }
  rewrite Ei in Erec.
  replace (i + Z.of_nat (S j)) with (i + 1 + Z.of_nat j) by lia.
  apply (IH (i + 1)); (done || lia).
Qed.

(** X18.  [Tensors::getv(n)] on a map of fewer than [2^31] entries ends
    and returns the tensors under [n0], [n1], ... in that order, up to the
    first number that is not a key: entries after a gap are not
    reported, and no name is reported twice. *)
Theorem Tensors_getv_spec (n : string) (m : Tensors.t) :
  Z.of_nat (size m) < 2 ^ 31 ->
  exists v,
    Tensors.getv n m = Some v /\
    (forall j p, v !! j = Some p ->
                 m !! (n +:+ pretty (Z.of_nat j))%string = Some p) /\
    m !! (n +:+ pretty (Z.of_nat (length v)))%string = None /\
    (length v <= size m)%nat.
Proof.
  intros Hsize. unfold Tensors.getv.
  destruct (Tensors.getv_loop (S (size m)) n 0 m) as [v|] eqn:E.
  - destruct (getv_loop_Some n m (S (size m)) 0 v ltac:(lia) ltac:(lia) E)
      as (Hj & Hend & Hlen).
    exists v. split; [done|]. split; [exact Hj|]. split; [exact Hend|lia].
  - exfalso.
    pose proof (getv_loop_None n m (S (size m)) 0 ltac:(lia) ltac:(lia) E) as Hall.
    set (keys := (fun j : nat => (n +:+ pretty (Z.of_nat j))%string)
                   <$> seq 0 (S (size m))).
    assert (Hnd : NoDup keys).
    { apply NoDup_fmap_2_strong; [|apply NoDup_seq].
      intros j1 j2 _ _ Ej. apply getv_key_inj in Ej. lia. }
    assert (Hsub : list_to_set keys ⊆ dom m).
    { intros k Hk. apply elem_of_list_to_set in Hk.
      apply list_elem_of_fmap in Hk as (j & -> & Hjin).
      apply elem_of_seq in Hjin. apply elem_of_dom.
      apply (Hall j). lia. }
    apply subseteq_size in Hsub.
    rewrite size_list_to_set in Hsub by done.
    rewrite size_dom in Hsub. unfold keys in Hsub.
    rewrite length_fmap, length_seq in Hsub. lia.
Qed.

(** with [x0], [x1] and [x3] present, the family [x] ends before [x2] *)
Lemma Tensors_getv_spec_witness :
  exists v,
    Tensors.getv "x" numbered_inputs = Some v /\
    numbered_inputs !! ("x" +:+ pretty (Z.of_nat (length v)))%string = None /\
    (length v <= 3)%nat.
Proof.
  destruct (Tensors_getv_spec "x" numbered_inputs) as (v & E & _ & Hend & Hlen).
  - vm_compute. reflexivity.
  - exists v. split; [exact E|]. split; [exact Hend|]. exact Hlen.
Defined.

(** ** Loading: what is checked and what is not *)

Lemma le_decode_bound (bs : list Z) :
  Forall (fun b => 0 <= b < 256) bs ->
  0 <= le_decode bs < 256 ^ Z.of_nat (length bs).
Proof.
  induction 1 as [|b bs Hb Hbs IH]; [simpl; lia|].
  cbn [le_decode length]. rewrite Nat2Z.inj_succ, Z.pow_succ_r by lia. lia.
Qed.

Lemma le_decode_uint32 (mem : list Z) (n : nat) :
  Forall (fun b => 0 <= b < 256) mem ->
  0 <= le_decode (take 4 (drop n mem)) < 2 ^ 32.
Proof.
  intros Hmem.
  assert (Hb : 0 <= le_decode (take 4 (drop n mem))
               < 256 ^ Z.of_nat (length (take 4 (drop n mem))))
    by (by apply le_decode_bound, Forall_take, Forall_drop).
  assert (Hlen : (length (take 4 (drop n mem)) <= 4)%nat)
    by (rewrite length_take; lia).
  assert (256 ^ Z.of_nat (length (take 4 (drop n mem))) <= 256 ^ 4)
    by (apply Z.pow_le_mono_r; lia).
  lia.
Qed.

(** X19.  [Tensor::load] on a file of bytes.  When it returns null, no
    storage has been created or changed, and nothing is mapped.  When it
    returns a tensor, the tensor is a packed CPU tensor
    ([computeCPUStrides], offset 0) over a storage of its own, which is the
    read-only mapping of the file and holds the elements the file has
    after the dimension list; it is of type float32 or float16, named as
    asked, with at most 8 axes and every dimension in [[0, 2^32)]; the
    storages that existed are untouched. *)
Theorem Tensor_load_post (path : string) (name : option string) (fs : files)
    (h : sheap) (mm : mmaps) :
  (forall mem, fs !! path = Some mem -> Forall (fun b => 0 <= b < 256) mem) ->
  (forall h' mm', Tensor_load path name fs h mm = (None, h', mm') ->
     h' = h /\ mm' = mm) /\
  (forall L h' mm', Tensor_load path name fs h mm = (Some L, h', mm') ->
     exists l s mem,
       impl_ L = MappedTensor (computeCPUStrides (dims_ L)) l 0 /\
       h !! l = None /\ h' = <[l := s]> h /\
       fs !! path = Some mem /\
       (let m := mkMapping path (length mem) (16 + 4 * length (dims_ L)) in
        mm' = <[l := m]> mm /\
        data_ s = mapped_cells (data_type_ L) m mem) /\
       st_data_type_ s = data_type_ L /\
       on_disk (data_type_ L) /\
       name_ L = name /\
       elements_ L = elements_from_dims (dims_ L) /\
       (length (dims_ L) <= 8)%nat /\
       Forall (fun d => 0 <= d < 2 ^ 32) (dims_ L)).
Proof.
  intros Hbytes. unfold Tensor_load.
  destruct (fs !! path) as [mem|] eqn:Hfile;
    [|split; [by intros h' mm' [= <- <-]|discriminate]].
  specialize (Hbytes mem eq_refl).
  destruct (Z.of_nat (length mem) <? sizeof_TensorDiskHeader);
    [split; [by intros h' mm' [= <- <-]|discriminate]|].
  destruct (negb (bool_decide (take 8 mem = magic)));
    [split; [by intros h' mm' [= <- <-]|discriminate]|].
  set (rank := le_decode (take 4 (drop 12 mem))).
  destruct (if le_decode (take 4 (drop 8 mem)) =? TENSOR_DISK_FLOAT
            then Some FLOAT
            else if le_decode (take 4 (drop 8 mem)) =? TENSOR_DISK_HALF
                 then Some HALF else None) as [dt|] eqn:Edt;
    [|split; [by intros h' mm' [= <- <-]|discriminate]].
  destruct (Z.gtb_spec rank 8) as [|Hrank];
    [split; [by intros h' mm' [= <- <-]|discriminate]|].
  destruct (Z.of_nat (length mem) <? sizeof_TensorDiskHeader + rank * 4);
    [split; [by intros h' mm' [= <- <-]|discriminate]|].
  unfold alloc. split; [discriminate|].
  intros L h' mm' [= <- <- <-].
  eexists _, _, mem. cbn [impl_ dims_ data_type_ name_ elements_ Tensor_new].
  split; [reflexivity|]. split; [apply not_elem_of_dom, is_fresh|].
  split; [reflexivity|]. split; [reflexivity|].
  split.
  { cbv zeta. rewrite length_map, length_seq. split; [reflexivity|].
    unfold mapped_cells. by rewrite mapped_bytes_whole. }
  split; [reflexivity|].
  split.
  { unfold on_disk. destruct (_ =? TENSOR_DISK_FLOAT); [left; congruence|].
    destruct (_ =? TENSOR_DISK_HALF); [right; congruence|discriminate]. }
  split; [reflexivity|]. split; [reflexivity|]. split.
  - rewrite length_map, length_seq.
    pose proof (le_decode_uint32 mem 12 Hbytes). fold rank in H. lia.
  - apply Forall_forall. intros d Hd.
    apply list_elem_of_fmap in Hd as (i & -> & _).
    by apply le_decode_uint32.
Qed.

(** a file that is shorter than the header is refused *)
Lemma Tensor_load_post_witness :
  Tensor_load "t" None {[ "t"%string := [115; 97; 103; 97] ]} grid_heap ∅
  = (None, grid_heap, ∅).
Proof.
  destruct (Tensor_load "t" None {[ "t"%string := [115; 97; 103; 97] ]} grid_heap ∅)
    as [[[L|] h'] mm'] eqn:E; [vm_compute in E; discriminate|].
  destruct (proj1 (Tensor_load_post "t" None {[ "t"%string := [115; 97; 103; 97] ]}
                     grid_heap ∅
                     ltac:(intros mem Hmem;
                           apply lookup_singleton_Some in Hmem as [_ <-];
                           repeat constructor; lia))
              h' mm' E) as [-> ->].
  reflexivity.
Defined.

Lemma length_cells_of_bytes (sz : nat) (bytes : list Z) :
  length (cells_of_bytes sz bytes) = (length bytes / sz)%nat.
Proof. unfold cells_of_bytes. by rewrite length_map, length_seq. Qed.

(** X20.  [Tensor::load] does not compare the size of the payload with the
    shape: a file with a well-formed header and dimension list is loaded
    whatever follows, the tensor has the shape and the element count the
    file announces, and its storage, the mapping of the file, holds the
    whole elements the payload has, however few. *)
Theorem Tensor_load_payload_unchecked (path : string) (name : option string)
    (fs : files) (h : sheap) (mm : mmaps) (type : Z) (dt : DataType)
    (dims payload : list Z) :
  (type = TENSOR_DISK_FLOAT /\ dt = FLOAT) \/ (type = TENSOR_DISK_HALF /\ dt = HALF) ->
  (length dims <= 8)%nat ->
  Forall (fun d => 0 <= d < 2 ^ 32) dims ->
  fs !! path = Some (magic ++ le_encode 4 type
                       ++ le_encode 4 (Z.of_nat (length dims))
                       ++ bytes_of_cells 4 dims ++ payload) ->
  exists L l s m,
    Tensor_load path name fs h mm = (Some L, <[l := s]> h, <[l := m]> mm) /\
    map_path_ m = path /\
    impl_ L = MappedTensor (computeCPUStrides dims) l 0 /\
    dims_ L = dims /\ elements_ L = Int.to_int64 (prod dims) /\
    Z.of_nat (length (data_ s)) = Z.of_nat (length payload) / DataTypeSize dt.
Proof.
  intros Htype Hrank Hdims Hfile.
  rewrite (Tensor_load_spec path name fs h mm type dt dims payload) by done.
  eexists _, _, _, _. split; [reflexivity|].
  cbn [impl_ dims_ elements_ data_ Tensor_new map_path_].
  split; [reflexivity|]. split; [reflexivity|]. split; [reflexivity|].
  split; [apply elements_from_dims_mod|].
  rewrite length_cells_of_bytes.
  pose proof (DataTypeSize_pos dt).
  rewrite Nat2Z.inj_div. f_equal. lia.
Qed.

(** a file that announces the shape [[2,3]] and carries one float *)
Lemma Tensor_load_payload_unchecked_witness :
  exists L l s m,
    Tensor_load "t" None
      {[ "t"%string := magic ++ le_encode 4 0 ++ le_encode 4 2
                         ++ bytes_of_cells 4 [2; 3] ++ [1; 0; 0; 0] ]} ∅ ∅
    = (Some L, <[l := s]> ∅, <[l := m]> ∅) /\
    elements_ L = 6 /\ length (data_ s) = 1%nat.
Proof.
  destruct (Tensor_load_payload_unchecked "t" None
              {[ "t"%string := magic ++ le_encode 4 0 ++ le_encode 4 2
                                 ++ bytes_of_cells 4 [2; 3] ++ [1; 0; 0; 0] ]}
              ∅ ∅ 0 FLOAT [2; 3] [1; 0; 0; 0])
    as (L & l & s & m & E & _ & _ & _ & He & Hlen).
  - left. split; reflexivity.
  - simpl. lia.
  - repeat constructor; lia.
  - apply lookup_singleton_eq.
  - exists L, l, s, m. split; [exact E|]. split; [exact He|].
    change (Z.of_nat (length [1; 0; 0; 0]) / DataTypeSize FLOAT) with 1 in Hlen.
    lia.
Defined.

(** ** Saving a tensor without data *)

Lemma le_encode_0 (n : nat) : le_encode n 0 = replicate n 0.
Proof.
  induction n as [|n IH]; [done|]. cbn [le_encode replicate].
  by rewrite Zmod_0_l, Zdiv_0_l, IH.
Qed.

Lemma bytes_of_cells_zeros (sz n : nat) :
  bytes_of_cells sz (replicate n 0) = replicate (n * sz) 0.
Proof.
  unfold bytes_of_cells. induction n as [|n IH]; [done|].
  cbn [replicate flat_map]. rewrite IH, le_encode_0, <- replicate_add.
  f_equal.
Qed.

Section SaveDataless.
Context `{Scalars}.

(** X21.  [save] on a tensor without data (a tensor that shape inference
    has made, say) of type float32 or float16 writes a well-formed file
    whose payload is all zero bytes, one element's worth per element of the
    shape, and reports success; the storages are as before, those that map
    the file showing what it holds now. *)
Theorem Tensor_save_dataless_zeros (this : Tensor) (path : string) (h : sheap)
    (mm : mmaps) (fs : files) :
  impl_ this = PlainTensor ->
  on_disk (data_type_ this) ->
  dims_ this <> [] -> Z.of_nat (length (dims_ this)) < 2 ^ 29 ->
  Forall (fun d => 1 <= d) (dims_ this) ->
  prod (dims_ this) * DataTypeSize (data_type_ this) < 2 ^ 31 ->
  let content :=
    magic
    ++ le_encode 4 (if decide (data_type_ this = FLOAT)
                    then TENSOR_DISK_FLOAT else TENSOR_DISK_HALF)
    ++ le_encode 4 (Z.of_nat (length (dims_ this)))
    ++ flat_map (fun d => le_encode 4 (Int.to_uint32 d)) (dims_ this)
    ++ replicate (Z.to_nat (prod (dims_ this)
                            * DataTypeSize (data_type_ this))) 0 in
  Tensor_save this path h mm fs
  = Ok (true, <[path := content]> fs, remap path content mm h).
Proof.
  intros Himpl Hdt Hne Hrank Hdims Hbytes. cbv zeta.
  set (dims := dims_ this) in *. set (dt := data_type_ this) in *.
  pose proof (prod_pos dims Hdims) as Hpos.
  pose proof (DataTypeSize_pos dt) as Hsz.
  assert (Hprod : prod dims < 2 ^ 31) by nia.
  set (head := (magic ++ le_encode 4 (if decide (dt = FLOAT)
                                      then TENSOR_DISK_FLOAT else TENSOR_DISK_HALF)
                      ++ le_encode 4 (Z.of_nat (length dims)))
               ++ flat_map (fun d => le_encode 4 (Int.to_uint32 d)) dims).
  set (h0 := remap path head mm h).
  set (l := fresh (dom h0)).
  set (zeros := replicate (Z.to_nat (prod dims)) 0).
  set (h1 := <[l := mkStorage dt zeros]> h0).
  set (copy := Tensor_new dt dims None (CPUTensor (suffix_products dims) l 0)).
  assert (Ecopy : Tensor_copyFrom copy this h1 = Ok h1).
  { unfold Tensor_copyFrom, Tensor_access. by rewrite Himpl. }
  assert (Hfinal : forall content,
            remap path content mm (delete l h1) = remap path content mm h).
  { intros content. unfold h1, l, h0. apply remap_copy_gone. }
  assert (Etag : match dt with
                 | FLOAT => Some TENSOR_DISK_FLOAT
                 | HALF => Some TENSOR_DISK_HALF
                 | _ => None
                 end
                 = Some (if decide (dt = FLOAT)
                         then TENSOR_DISK_FLOAT else TENSOR_DISK_HALF)).
  { destruct Hdt as [Hd|Hd]; fold dt in Hd; rewrite Hd; reflexivity. }
  destruct dims as [|d0 ds] eqn:Edims; [done|].
  assert (Hsize : Int.to_size_t (prod ds * d0 * DataTypeSize dt)
                  = prod (d0 :: ds) * DataTypeSize dt).
  { change (prod (d0 :: ds)) with (d0 * prod ds) in *.
    rewrite to_size_t_id by nia. lia. }
  unfold Tensor_save. fold dt. rewrite Etag.
  rewrite to_uint32_id by (fold dims; rewrite Edims; lia).
  rewrite Nat2Z.id. fold dims. rewrite Edims.
  rewrite firstn_all. fold head. fold h0.
  destruct (decide (4 * _ = Int.to_int (4 * _))) as [_|Hcast];
    [|exfalso; apply Hcast; symmetry; apply to_int_id;
      unfold Int.in_int, Int.INT_MIN, Int.INT_MAX; simpl length in *; lia].
  rewrite (CPUTensor_new_spec dt (d0 :: ds) None h0) by done.
  fold l zeros. fold h1. fold copy. cbn [mbind result_bind].
  rewrite Ecopy. cbn [mbind result_bind].
  unfold Tensor_access at 1. cbn [impl_ copy Tensor_new view_deref dims_].
  cbn [mbind result_bind suffix_products vec_at lookup list_lookup].
  unfold TensorAccess_data. destruct (decide (0 = 0)) as [_|?]; [|done].
  assert (Hh1 : h1 !! l = Some (mkStorage dt zeros))
    by (unfold h1; apply lookup_insert_eq).
  cbn [deref]. rewrite Hh1. cbn [mbind result_bind data_].
  rewrite Hsize. unfold zeros. rewrite bytes_of_cells_zeros.
  replace (Z.to_nat (prod (d0 :: ds)) * Z.to_nat (DataTypeSize dt))%nat
    with (Z.to_nat (prod (d0 :: ds) * DataTypeSize dt)) by lia.
  rewrite take_ge by (rewrite length_replicate; lia).
  destruct (decide (_ <= length _)%nat) as [_|Hn];
    [|rewrite length_replicate in Hn; lia].
  destruct (decide (_ = Int.to_int _)) as [_|Hn];
    [|exfalso; apply Hn; symmetry; apply to_int_id;
      unfold Int.in_int, Int.INT_MIN, Int.INT_MAX; lia].
  fold zeros. fold h1. rewrite Hfinal. unfold head. rewrite <- !app_assoc.
  reflexivity.
Qed.

End SaveDataless.

(** the [[2,3]] float tensor without data: 24 zero bytes after the header
    and the two dimensions *)
Lemma Tensor_save_dataless_zeros_witness :
  @Tensor_save integer_scalars dataless_tensor "t" ∅ ∅ ∅
  = Ok (true,
        {[ "t"%string :=
             magic ++ le_encode 4 0 ++ le_encode 4 2
             ++ bytes_of_cells 4 [2; 3] ++ replicate 24 0 ]},
        ∅).
Proof.
  rewrite (@Tensor_save_dataless_zeros integer_scalars dataless_tensor "t" ∅ ∅ ∅);
    try reflexivity.
  - by left.
  - discriminate.
  - repeat constructor; lia.
Defined.

(** ** Raw bytes into a storage *)

Lemma take_bytes_of_cells (sz : nat) (cells : list Z) (i : nat) :
  take (i * sz) (bytes_of_cells sz cells) = bytes_of_cells sz (take i cells).
Proof.
  unfold bytes_of_cells. revert i.
  induction cells as [|c cells IH]; intros i; [cbn [flat_map]; by rewrite !take_nil|].
  destruct i as [|i]; [done|]. cbn [flat_map take].
  replace (S i * sz)%nat with (length (le_encode sz c) + i * sz)%nat
    by (rewrite length_le_encode; lia).
  rewrite take_app_add'; [|done]. by rewrite IH.
Qed.

Lemma drop_bytes_of_cells (sz : nat) (cells : list Z) (i : nat) :
  drop (i * sz) (bytes_of_cells sz cells) = bytes_of_cells sz (drop i cells).
Proof.
  unfold bytes_of_cells. revert i.
  induction cells as [|c cells IH]; intros i; [cbn [flat_map]; by rewrite !drop_nil|].
  destruct i as [|i]; [done|]. cbn [flat_map drop].
  replace (S i * sz)%nat with (length (le_encode sz c) + i * sz)%nat
    by (rewrite length_le_encode; lia).
  rewrite drop_app_add'; [|done]. by rewrite IH.
Qed.

Section CopyBytes.
Context `{Scalars}.

(** X22.  [copyBytesFrom] at a coordinate of a CPU tensor, given the
    little-endian bytes of [k] elements, overwrites exactly the [k]
    elements that start at that coordinate's flat offset: the storage
    holds the given elements there and its other elements are as before. *)
Theorem copyBytesFrom_elements (dims strides : Dims) (st : loc) (off : Z)
    (c : Dims) (new : list Z) (h : sheap) (s : TensorStorage) :
  let sz := Z.to_nat (DataTypeSize (st_data_type_ s)) in
  let o := Z.to_nat (off + dot c strides) in
  h !! st = Some s ->
  CPUTensor_wf dims strides off (Z.of_nat (length (data_ s))) ->
  in_bounds dims c ->
  Z.of_nat (length (data_ s)) * DataTypeSize (st_data_type_ s) < 2 ^ 64 ->
  Forall (fun x => 0 <= x < 256 ^ Z.of_nat sz) (data_ s) ->
  Forall (fun x => 0 <= x < 256 ^ Z.of_nat sz) new ->
  (o + length new <= length (data_ s))%nat ->
  TensorAccess_copyBytesFrom (CPUTensorAccess strides st off) c
    (bytes_of_cells sz new) h
  = Ok (<[st := mkStorage (st_data_type_ s)
                  (take o (data_ s) ++ new ++ drop (o + length new) (data_ s))]> h).
Proof.
  intros sz o Hs Hwf Hc Hfit Hold Hnew Hlen.
  pose proof (DataTypeSize_pos (st_data_type_ s)) as Hpos.
  destruct (offsetForElement_exact _ _ _ _ _ Hwf Hc) as [Eoff Hb].
  unfold TensorAccess_copyBytesFrom. cbn [deref]. rewrite Hs.
  cbn [mbind result_bind]. fold sz. rewrite Eoff.
  rewrite to_size_t_id by nia.
  replace (Z.to_nat ((off + dot c strides) * DataTypeSize (st_data_type_ s)))
    with (o * sz)%nat by (unfold o, sz; nia).
  rewrite !length_bytes_of_cells.
  rewrite decide_True by nia.
  do 3 f_equal.
  replace (o * sz + sz * length new)%nat with ((o + length new) * sz)%nat by lia.
  rewrite take_bytes_of_cells, drop_bytes_of_cells.
  unfold bytes_of_cells. rewrite <- !flat_map_app.
  apply cells_of_bytes_of_cells; [unfold sz; lia|].
  apply Forall_app. split; [by apply Forall_take|].
  apply Forall_app. split; [done|by apply Forall_drop].
Qed.

End CopyBytes.

(** the bytes of the floats [7, 8] written at [[1,0]] of [grid_tensor] *)
Lemma copyBytesFrom_elements_witness :
  @TensorAccess_copyBytesFrom integer_scalars
     (CPUTensorAccess [3; 1] 1%positive 0) [1; 0]
     (bytes_of_cells 4 [7; 8]) grid_heap
  = Ok (<[1%positive := mkStorage FLOAT [10; 11; 12; 7; 8; 15]]> grid_heap).
Proof.
  apply (@copyBytesFrom_elements integer_scalars [2; 3] [3; 1] 1%positive 0
           [1; 0] [7; 8] grid_heap
           (mkStorage FLOAT [10; 11; 12; 13; 14; 15])).
  - reflexivity.
  - unfold CPUTensor_wf. simpl. repeat split; try lia. repeat constructor; lia.
  - repeat constructor; lia.
  - simpl. lia.
  - repeat constructor; simpl; lia.
  - repeat constructor; simpl; lia.
  - simpl. lia.
Defined.

(** ** Single and double buffering *)

Section Buffers.
Context `{Scalars}.

Import CudaTensorStorage.

Lemma data_slot_1 (s : CudaTensorStorage) (buffer : Z) :
  num_buffers_ s = 1 -> data_slot s buffer = 0.
Proof.
  intros Hn. unfold data_slot. rewrite Hn.
  change (Int.sub 1 1) with 0. apply Z.land_0_r.
Qed.

(** [get] depends on the storage through the addressed buffer only *)
Lemma get_same_slot (s1 s2 : CudaTensorStorage) (offset b1 b2 : Z) :
  cuda_data_type_ s1 = cuda_data_type_ s2 ->
  buffers_ s1 = buffers_ s2 ->
  data_slot s1 b1 = data_slot s2 b2 ->
  get s1 offset b1 = get s2 offset b2.
Proof.
  intros Hdt Hb Hslot. unfold get, data, buffer_at.
  by rewrite Hdt, Hb, Hslot.
Qed.

Lemma set_fields (s s1 : CudaTensorStorage) (offset buffer : Z) (v : double) :
  set s offset v buffer = Ok s1 ->
  cuda_data_type_ s1 = cuda_data_type_ s /\
  num_buffers_ s1 = num_buffers_ s /\
  index_ s1 = index_ s /\
  0 <= data_slot s buffer /\
  exists b, buffers_ s !! Z.to_nat (data_slot s buffer) = Some b /\
            (Z.to_nat offset < length b)%nat /\
            buffers_ s1 = <[Z.to_nat (data_slot s buffer) :=
                              <[Z.to_nat offset := datatype_set (cuda_data_type_ s) v]> b]>
                            (buffers_ s).
Proof.
  unfold set, data, buffer_at. intros Hset.
  destruct (decide (0 <= data_slot s buffer)) as [Hpos|]; [|discriminate].
  destruct (buffers_ s !! Z.to_nat (data_slot s buffer)) as [b|] eqn:Eb;
    [|discriminate].
  cbn [mbind result_bind] in Hset.
  destruct (decide (Z.to_nat offset < length b)%nat) as [Hlt|]; [|discriminate].
  apply Ok_inj in Hset. subst s1. cbn. repeat split; try done.
  exists b. done.
Qed.

(** X23.  With a single buffer, neither [flip()] nor the buffer selection
    has any effect: every selection addresses the one buffer, before and
    after a flip, so what is written through a batch view (selection 1) is
    at once what a regular view (selection 0) reads. *)
Theorem single_buffer_aliasing (s : CudaTensorStorage) (offset b b' : Z) :
  num_buffers_ s = 1 ->
  data_slot s b = 0 /\ data_slot (flip s) b = 0 /\ deviceMem_slot s b = 0 /\
  get (flip s) offset b' = get s offset b /\
  (forall v s1, set s offset v b = Ok s1 ->
     get s1 offset b'
     = Ok (datatype_get (cuda_data_type_ s) (datatype_set (cuda_data_type_ s) v))).
Proof.
  intros Hn.
  split; [by apply data_slot_1|]. split; [by apply data_slot_1|].
  split.
  { unfold deviceMem_slot. rewrite Hn. change (Int.sub 1 1) with 0.
    apply Z.land_0_r. }
  split.
  { apply get_same_slot; [done..|]. by rewrite !data_slot_1. }
  intros v s1 Hset.
  destruct (set_fields s s1 offset b v Hset) as (Hdt & Hnum & _).
  rewrite <- (get_set_same s s1 offset b v Hset).
  apply get_same_slot; [done..|]. rewrite !data_slot_1; congruence.
Qed.

Lemma flip_twice_mod_2 (i : Z) : Int.add (Int.add i 1) 1 mod 2 = i mod 2.
Proof.
  unfold Int.add. rewrite to_int_mod_2, <- Zplus_mod_idemp_l, to_int_mod_2.
  rewrite Zplus_mod_idemp_l.
  replace (i + 1 + 1) with (i + 1 * 2) by lia. apply Z_mod_plus_full.
Qed.

(** X24.  Two flips bring a storage of one or two buffers back to the
    buffers it addressed: every buffer selection reads what it read before,
    also when the flip counter wraps around. *)
Theorem flip_twice (s : CudaTensorStorage) (offset buffer : Z) :
  num_buffers_ s = 1 \/ num_buffers_ s = 2 ->
  data_slot (flip (flip s)) buffer = data_slot s buffer /\
  get (flip (flip s)) offset buffer = get s offset buffer.
Proof.
  intros Hn.
  assert (E : data_slot (flip (flip s)) buffer = data_slot s buffer).
  { destruct Hn as [Hn|Hn].
    - by rewrite !data_slot_1.
    - rewrite !data_slot_2 by done. cbn [flip index_].
      by rewrite <- Zplus_mod_idemp_r, flip_twice_mod_2, Zplus_mod_idemp_r. }
  split; [exact E|]. by apply get_same_slot.
Qed.

(** X25.  The double-buffering protocol.  With two buffers, a value that
    a batch view ([CudaTensorBatchAccess], selection 1) writes is not seen
    by the regular view of the tensor, which reads everywhere what it read
    before; the batch view reads it back; and after [flip()] the regular
    view reads it at the same coordinate. *)
Theorem batch_write_then_flip (t : CudaTensor) (h h1 : cheap)
    (s : CudaTensorStorage) (c : Dims) (v : double) :
  h !! cuda_storage_ t = Some s ->
  num_buffers_ s = 2 ->
  CudaTensorBatchAccess_set (CudaTensor_batchAccess t) c v h = Ok h1 ->
  let stored := datatype_get (cuda_data_type_ s) (datatype_set (cuda_data_type_ s) v) in
  (forall c', CudaTensorAccess_get (CudaTensor_access t) c' h1
              = CudaTensorAccess_get (CudaTensor_access t) c' h) /\
  CudaTensorBatchAccess_get (CudaTensor_batchAccess t) c h1 = Ok stored /\
  exists r h2,
    CudaTensor_flip t h1 = Ok (r, h2) /\
    CudaTensorAccess_get (CudaTensor_access t) c h2 = Ok stored.
Proof.
  intros Hs Hn Hset stored.
  unfold CudaTensorBatchAccess_set, CudaTensor_batchAccess in Hset.
  cbn [cba_storage_ cba_offset_ cba_strides_ deref] in Hset.
  rewrite Hs in Hset. cbn [mbind result_bind] in Hset.
  set (off := offsetForElement (cuda_offset_ t) (cuda_strides_ t) c) in *.
  destruct (set s off v 1) as [s1|] eqn:Es1; [|discriminate].
  cbn [mbind result_bind] in Hset. apply Ok_inj in Hset. subst h1.
  destruct (set_fields s s1 off 1 v Es1)
    as (Hdt & Hnum & Hidx & Hpos & b & Hb & Hlt & Hbufs).
  assert (Hn1 : num_buffers_ s1 = 2) by congruence.
  pose proof (data_slot_2 s 0 Hn) as E0. pose proof (data_slot_2 s 1 Hn) as E1.
  pose proof (Z.mod_pos_bound (0 + index_ s) 2 ltac:(lia)) as B0.
  pose proof (Z.mod_pos_bound (1 + index_ s) 2 ltac:(lia)) as B1.
  assert (Hne : data_slot s 0 <> data_slot s 1).
  { rewrite E0, E1. rewrite Z.add_0_l, (Z.add_comm 1).
    intros E. by apply (succ_mod_2 (index_ s)). }
  split; [|split].
  - intros c'. unfold CudaTensorAccess_get, CudaTensor_access.
    cbn [cta_storage_ cta_offset_ cta_strides_ deref].
    rewrite lookup_insert_eq, Hs. cbn [mbind result_bind].
    unfold get, data, buffer_at.
    assert (Eslot : data_slot s1 0 = data_slot s 0).
    { rewrite !data_slot_2 by done. by rewrite Hidx. }
    rewrite Eslot, Hdt, Hbufs.
    destruct (decide (0 <= data_slot s 0)) as [_|]; [|done].
    rewrite list_lookup_insert_ne by lia. reflexivity.
  - unfold CudaTensorBatchAccess_get, CudaTensor_batchAccess.
    cbn [cba_storage_ cba_offset_ cba_strides_ deref].
    rewrite lookup_insert_eq. cbn [mbind result_bind]. fold off.
    by apply get_set_same.
  - unfold CudaTensor_flip. cbn [deref]. rewrite lookup_insert_eq.
    cbn [mbind result_bind]. eexists _, _. split; [reflexivity|].
    unfold CudaTensorAccess_get, CudaTensor_access.
    cbn [cta_storage_ cta_offset_ cta_strides_ deref].
    rewrite lookup_insert_eq. cbn [mbind result_bind]. fold off.
    unfold stored. rewrite <- (get_set_same s s1 off 1 v Es1).
    apply get_same_slot; [done..|].
    rewrite data_slot_flip_0, data_slot_2 by done.
    f_equal. lia.
Qed.

End Buffers.

Lemma single_buffer_aliasing_witness :
  @CudaTensorStorage.get integer_scalars
     (CudaTensorStorage.flip single_storage) 2 1
  = @CudaTensorStorage.get integer_scalars single_storage 2 0.
Proof.
  apply (@single_buffer_aliasing integer_scalars single_storage 2 0 1).
  reflexivity.
Defined.

Lemma flip_twice_witness :
  @CudaTensorStorage.get integer_scalars
     (CudaTensorStorage.flip (CudaTensorStorage.flip flip_storage)) 2 0
  = @CudaTensorStorage.get integer_scalars flip_storage 2 0.
Proof.
  apply (@flip_twice integer_scalars flip_storage 2 0). by right.
Defined.

(** on [flip_tensor]: 9 written at [[2]] through the batch view is read at
    [[2]] through the regular view after the flip *)
Lemma batch_write_then_flip_witness :
  exists h1 r h2,
    @CudaTensorBatchAccess_set integer_scalars
       (CudaTensor_batchAccess flip_tensor) [2] 9
       {[ 1%positive := flip_storage ]} = Ok h1 /\
    CudaTensor_flip flip_tensor h1 = Ok (r, h2) /\
    @CudaTensorAccess_get integer_scalars (CudaTensor_access flip_tensor) [2] h2
    = Ok 9.
Proof.
  destruct (@CudaTensorBatchAccess_set integer_scalars
              (CudaTensor_batchAccess flip_tensor) [2] 9
              {[ 1%positive := flip_storage ]}) as [h1|] eqn:E;
    [|vm_compute in E; discriminate].
  destruct (@batch_write_then_flip integer_scalars flip_tensor
              {[ 1%positive := flip_storage ]} h1 flip_storage [2] 9)
    as (_ & _ & r & h2 & Hflip & Hget); [reflexivity..|exact E|].
  exists h1, r, h2. split; [reflexivity|]. split; [exact Hflip|exact Hget].
Defined.

(** ** A window larger than the input *)

Lemma int_div_small_negative (a b : Z) :
  - b < a <= 0 -> Int.div a b = Ok 0.
Proof.
  intros Hab. unfold Int.div.
  destruct (Z.eqb_spec b 0) as [->|_]; [lia|].
  replace (Z.quot a b) with 0; [reflexivity|].
  symmetry. rewrite <- (Z.opp_involutive a), Z.quot_opp_l by lia.
  rewrite Z.quot_small by lia. reflexivity.
Qed.

(** X27.  The division of the shape formulas truncates toward zero: a
    pooling window that exceeds the padded input by less than the stride
    does not give an empty or negative extent but the extent 1. *)
Theorem pooling_window_too_large (th : theap) (name : string) (nd : Node)
    (px : loc) (x : Tensor) (n c h wd : Z) :
  let size := (Attributes.get TInt "size" 1 (attributes_ nd)).1 in
  let pad := (Attributes.get TInt "pad" 1 (attributes_ nd)).1 in
  let stride := (Attributes.get TInt "stride" 1 (attributes_ nd)).1 in
  Tensors.get "x" (inputs_ nd) = Some px ->
  th !! px = Some x ->
  dims_ x = [n; c; h; wd] ->
  0 <= pad -> Int.in_int size -> Int.in_int c -> 0 <= h -> 0 <= wd ->
  h + 2 * pad < Int.INT_MAX -> wd + 2 * pad < Int.INT_MAX ->
  h + 2 * pad <= size < h + 2 * pad + stride ->
  wd + 2 * pad <= size < wd + 2 * pad + stride ->
  makePoolingOutputTensor th name nd =
    Ok (Some (Tensor_new (data_type_ x) [1; c; 1; 1] (Some name) PlainTensor)).
Proof.
  intros size pad stride Hx Hpx Hdx Hp Hsz Hc Hh Hwd Hmh Hmw Hfh Hfw.
  unfold makePoolingOutputTensor. fold size pad stride.
  clearbody size pad stride.
  rewrite Hx. simpl. rewrite Hpx. simpl.
  rewrite Hdx. simpl. rewrite (to_int_id c) by done.
  unfold Int.in_int, Int.INT_MIN, Int.INT_MAX in Hsz, Hmh, Hmw.
  assert (Hin : forall z, - 2 ^ 31 <= z < 2 ^ 31 - 1 -> Int.in_int z).
  { intros z Hz. unfold Int.in_int, Int.INT_MIN, Int.INT_MAX. lia. }
  rewrite (to_int_id h), (to_int_id wd) by (apply Hin; lia).
  rewrite (int_mul_id 2 pad) by (apply Hin; lia).
  rewrite !int_add_id by (apply Hin; lia).
  rewrite !int_sub_id by (apply Hin; lia).
  rewrite !int_div_small_negative by lia. reflexivity.
Qed.

(** an input of [24 x 24] under a window of 25 with stride 2 *)
Lemma pooling_window_too_large_witness :
  makePoolingOutputTensor pool_heap "y"
    (mkNode MAXPOOL {[ "x"%string := Some 1%positive ]}
       (<["size"%string := AttrInt 25]>
          (<["stride"%string := AttrInt 2]> (<["pad"%string := AttrInt 0]> ∅)))
       ∅)
  = Ok (Some (Tensor_new FLOAT [1; 8; 1; 1] (Some "y"%string) PlainTensor)).
Proof.
  apply (pooling_window_too_large pool_heap "y" _ 1%positive
           (Tensor_new FLOAT [4; 8; 24; 24] (Some "x"%string) PlainTensor)
           4 8 24 24);
    try reflexivity; vm_compute; try split; congruence.
Defined.

(** ** The tensors of a graph on disk *)

Section SaveTensorsProperties.
Context `{Scalars}.

Lemma saveTensors_loop_post (path : string) (th : theap) (mm : mmaps)
    (entries : list (string * ptr)) :
  forall sh fs fs' sh',
  saveTensors_loop entries path th sh mm fs = Ok (true, fs', sh') ->
  (forall n p, (n, p) ∈ entries ->
     exists t, deref th p = Ok t /\ on_disk (data_type_ t) /\ dims_ t <> [] /\
               is_Some (fs' !! filepath path n)) /\
  (forall q, is_Some (fs !! q) -> is_Some (fs' !! q)) /\
  (forall q, (forall n p, (n, p) ∈ entries -> q <> filepath path n) ->
             fs' !! q = fs !! q) /\
  (forall st, (forall n p, (n, p) ∈ entries ->
                 ~ maps_file mm st (filepath path n)) ->
              sh' !! st = sh !! st).
Proof.
  induction entries as [|[n0 p0] entries IH]; intros sh fs fs' sh' Hsave.
  - cbn [saveTensors_loop] in Hsave. apply Ok_inj in Hsave.
    injection Hsave as <- <-.
    split; [intros n p Hin; by apply elem_of_nil in Hin|]. done.
  - cbn [saveTensors_loop fst snd] in Hsave.
    destruct (deref th p0) as [t|] eqn:Ht; [|discriminate].
    cbn [mbind result_bind] in Hsave.
    destruct (Tensor_save t (filepath path n0) sh mm fs)
      as [[[saved fs1] sh1]|] eqn:Es; [|discriminate].
    cbn [mbind result_bind] in Hsave.
    destruct saved; [|apply Ok_inj in Hsave; discriminate].
    pose proof (Tensor_save_frame t (filepath path n0) sh mm fs fs1 sh1) as Hframe.
    destruct (Tensor_save_file t _ sh mm fs fs1 sh1 Es)
      as (Hne & type & payload & Htype & ->).
    destruct (IH _ _ _ _ Hsave) as (IH1 & IH2 & IH3 & IH4).
    split; [|split; [|split]].
    + intros n p Hin. apply elem_of_cons in Hin as [[= -> ->]|Hin]; [|by apply IH1].
      exists t. split; [done|]. split.
      { unfold on_disk. destruct Htype as [[_ ->]|[_ ->]]; tauto. }
      split; [done|]. apply IH2. rewrite lookup_insert_eq. by eexists.
    + intros q Hq. apply IH2.
      destruct (decide (filepath path n0 = q)) as [->|Hneq].
      * rewrite lookup_insert_eq. by eexists.
      * by rewrite lookup_insert_ne.
    + intros q Hq. rewrite IH3.
      * apply lookup_insert_ne. intros E. apply (Hq n0 p0); [left|done].
      * intros n p Hin. apply (Hq n p). by right.
    + intros st Hst. rewrite IH4.
      * apply (Hframe st Es). apply (Hst n0 p0). left.
      * intros n p Hin. apply (Hst n p). by right.
Qed.

(** X28.  [Graph::saveTensors] returns true only if it has saved every
    tensor of the registry: each registered pointer is then a live tensor
    of type float32 or float16 with at least one axis, and the file of its
    name exists under the directory; files that existed still exist, no
    path other than those of the registered names has changed, and no
    storage other than the mappings of these files. *)
Theorem saveTensors_post (g : Graph) (path : string) (th : theap) (sh sh' : sheap)
    (mm : mmaps) (fs fs' : files) :
  saveTensors g path th sh mm fs = Ok (true, fs', sh') ->
  (forall n p, tensors_ g !! n = Some p ->
     exists t, deref th p = Ok t /\ on_disk (data_type_ t) /\ dims_ t <> [] /\
               is_Some (fs' !! filepath path n)) /\
  (forall q, is_Some (fs !! q) -> is_Some (fs' !! q)) /\
  (forall q, (forall n, is_Some (tensors_ g !! n) -> q <> filepath path n) ->
             fs' !! q = fs !! q) /\
  (forall st, (forall n, is_Some (tensors_ g !! n) ->
                 ~ maps_file mm st (filepath path n)) ->
              sh' !! st = sh !! st).
Proof.
  unfold saveTensors. intros Hsave.
  destruct (saveTensors_loop_post path th mm _ _ _ _ _ Hsave)
    as (H1 & H2 & H3 & H4).
  split; [|split; [exact H2|split]].
  - intros n p Hn. apply H1. by apply elem_of_map_to_list.
  - intros q Hq. apply H3. intros n p Hin. apply Hq.
    apply elem_of_map_to_list in Hin. by eexists.
  - intros st Hst. apply H4. intros n p Hin. apply Hst.
    apply elem_of_map_to_list in Hin. by eexists.
Qed.

End SaveTensorsProperties.

Lemma saveTensors_post_witness :
  exists fs' sh',
    @saveTensors integer_scalars saved_graph "dir" saved_theap grid_heap ∅ ∅
    = Ok (true, fs', sh') /\
    is_Some (fs' !! "dir/t"%string).
Proof.
  destruct (@saveTensors integer_scalars saved_graph "dir" saved_theap grid_heap ∅ ∅)
    as [[[b fs'] sh']|] eqn:E; [|vm_compute in E; discriminate].
  assert (b = true) as ->.
  { vm_compute in E. by injection E as <- _ _. }
  exists fs', sh'. split; [reflexivity|].
  destruct (@saveTensors_post integer_scalars saved_graph "dir" saved_theap
              grid_heap sh' ∅ ∅ fs' E) as (Hall & _).
  destruct (Hall "t"%string (Some 1%positive)) as (t & _ & _ & _ & Hfile);
    [reflexivity|exact Hfile].
Defined.

(** what [Tensor::load] returns when it returns a tensor *)
Lemma Tensor_load_Some (path : string) (name : option string) (fs : files)
    (h h' : sheap) (mm mm' : mmaps) (L : Tensor) :
  Tensor_load path name fs h mm = (Some L, h', mm') ->
  name_ L = name /\ on_disk (data_type_ L) /\ (length (dims_ L) <= 8)%nat /\
  exists s m, h' = <[fresh (dom h) := s]> h /\ mm' = <[fresh (dom h) := m]> mm.
Proof.
  unfold Tensor_load.
  destruct (fs !! path) as [mem|]; [|discriminate].
  destruct (Z.of_nat (length mem) <? sizeof_TensorDiskHeader); [discriminate|].
  destruct (negb (bool_decide (take 8 mem = magic))); [discriminate|].
  set (rank := le_decode (take 4 (drop 12 mem))).
  destruct (if le_decode (take 4 (drop 8 mem)) =? TENSOR_DISK_FLOAT
            then Some FLOAT
            else if le_decode (take 4 (drop 8 mem)) =? TENSOR_DISK_HALF
                 then Some HALF else None) as [dt|] eqn:Edt; [|discriminate].
  destruct (Z.gtb_spec rank 8) as [|Hrank]; [discriminate|].
  destruct (Z.of_nat (length mem) <? sizeof_TensorDiskHeader + rank * 4);
    [discriminate|].
  unfold alloc. intros [= <- <- <-].
  cbn [name_ data_type_ dims_ Tensor_new]. split; [done|]. split.
  { unfold on_disk. destruct (_ =? TENSOR_DISK_FLOAT); [left; congruence|].
    destruct (_ =? TENSOR_DISK_HALF); [right; congruence|discriminate]. }
  split; [rewrite length_map, length_seq; lia|]. by eexists _, _.
Qed.

Lemma Tensor_load_None (path : string) (name : option string) (fs : files)
    (h h' : sheap) (mm mm' : mmaps) :
  Tensor_load path name fs h mm = (None, h', mm') ->
  h' = h /\ mm' = mm /\ ~ loadable path fs.
Proof.
  unfold loadable, Tensor_load.
  destruct (fs !! path) as [mem|]; [|intros [= <- <-]; split; [done|tauto]].
  destruct (Z.of_nat (length mem) <? sizeof_TensorDiskHeader);
    [intros [= <- <-]; split; [done|tauto]|].
  destruct (negb (bool_decide (take 8 mem = magic)));
    [intros [= <- <-]; split; [done|tauto]|].
  destruct (if le_decode (take 4 (drop 8 mem)) =? TENSOR_DISK_FLOAT
            then Some FLOAT
            else if le_decode (take 4 (drop 8 mem)) =? TENSOR_DISK_HALF
                 then Some HALF else None) as [dt|];
    [|intros [= <- <-]; split; [done|tauto]].
  destruct (le_decode (take 4 (drop 12 mem)) >? 8);
    [intros [= <- <-]; split; [done|tauto]|].
  destruct (Z.of_nat (length mem) <? sizeof_TensorDiskHeader + _ * 4);
    [intros [= <- <-]; split; [done|tauto]|].
  unfold alloc. discriminate.
Qed.

Lemma Tensor_load_loadable (path : string) (name : option string) (fs : files)
    (h h' : sheap) (mm mm' : mmaps) (L : Tensor) :
  Tensor_load path name fs h mm = (Some L, h', mm') -> loadable path fs.
Proof.
  unfold loadable, Tensor_load.
  destruct (fs !! path) as [mem|]; [|discriminate].
  destruct (Z.of_nat (length mem) <? sizeof_TensorDiskHeader); [discriminate|].
  destruct (negb (bool_decide (take 8 mem = magic))); [discriminate|].
  destruct (if le_decode (take 4 (drop 8 mem)) =? TENSOR_DISK_FLOAT
            then Some FLOAT
            else if le_decode (take 4 (drop 8 mem)) =? TENSOR_DISK_HALF
                 then Some HALF else None) as [dt|]; [|discriminate].
  destruct (le_decode (take 4 (drop 12 mem)) >? 8); [discriminate|].
  destruct (Z.of_nat (length mem) <? sizeof_TensorDiskHeader + _ * 4);
    [discriminate|].
  unfold alloc. intros _. discriminate.
Qed.

Lemma fresh_insert_preserves {A} (h : gmap loc A) (a : A) (l : loc) (x : A) :
  h !! l = Some x -> (<[fresh (dom h) := a]> h) !! l = Some x.
Proof.
  intros Hl. rewrite lookup_insert_ne; [done|].
  intros <-. apply (is_fresh (dom h)). apply elem_of_dom. eauto.
Qed.

Lemma loadTensors_loop_post (path : string) (fs : files) (names : list string) :
  forall (tensors tensors' : Tensors.t) (th th' : theap) (sh sh' : sheap)
         (mm mm' : mmaps),
  loadTensors_loop names path tensors fs th sh mm = (tensors', th', sh', mm') ->
  (forall l t, th !! l = Some t -> th' !! l = Some t) /\
  (forall l s, sh !! l = Some s -> sh' !! l = Some s /\ mm' !! l = mm !! l) /\
  (forall n, n ∉ names \/ starts_with_dot n = true \/
             ~ loadable (filepath path n) fs ->
             tensors' !! n = tensors !! n) /\
  (forall n, n ∈ names -> starts_with_dot n = false ->
             loadable (filepath path n) fs ->
             exists l t, tensors' !! n = Some (Some l) /\ th' !! l = Some t /\
                         name_ t = Some n /\ on_disk (data_type_ t) /\
                         (length (dims_ t) <= 8)%nat).
Proof.
  induction names as [|fname names IH];
    intros tensors tensors' th th' sh sh' mm mm' Hloop.
  - cbn [loadTensors_loop] in Hloop. injection Hloop as <- <- <- <-.
    split; [done|]. split; [done|]. split; [done|].
    intros n Hn. by apply elem_of_nil in Hn.
  - cbn [loadTensors_loop] in Hloop.
    destruct (starts_with_dot fname) eqn:Edot.
    { destruct (IH _ _ _ _ _ _ _ _ Hloop) as (I1 & I2 & I3 & I4).
      split; [done|]. split; [done|]. split.
      - intros n Hn. apply I3.
        destruct (decide (n = fname)) as [->|Hne]; [by right; left|].
        destruct Hn as [Hn|Hn]; [|by right].
        left. intros Hin. apply Hn. by right.
      - intros n Hn Hd Hl. apply I4; [|done..].
        apply elem_of_cons in Hn as [->|Hn]; [congruence|done]. }
    destruct (Tensor_load (filepath path fname) (Some fname) fs sh mm)
      as [[[t|] sh1] mm1] eqn:Eload.
    + destruct (Tensor_load_Some _ _ _ _ _ _ _ _ Eload)
        as (Hname & Hdt & Hrank & s & m & -> & ->).
      pose proof (Tensor_load_loadable _ _ _ _ _ _ _ _ Eload) as Hok.
      unfold alloc in Hloop.
      destruct (IH _ _ _ _ _ _ _ _ Hloop) as (I1 & I2 & I3 & I4).
      split; [|split; [|split]].
      * intros l t0 Hl. apply I1. by apply fresh_insert_preserves.
      * intros l s0 Hl.
        destruct (I2 l s0 (fresh_insert_preserves _ _ _ _ Hl)) as [I2a I2b].
        split; [done|]. rewrite I2b. apply lookup_insert_ne.
        intros <-. apply (is_fresh (dom sh)). apply elem_of_dom. eauto.
      * intros n Hn.
        assert (Hne : n <> fname).
        { intros ->. destruct Hn as [Hn|[Hn|Hn]]; [|congruence|done].
          apply Hn. left. }
        rewrite I3; [by rewrite lookup_insert_ne|].
        destruct Hn as [Hn|Hn]; [|by right].
        left. intros Hin. apply Hn. by right.
      * intros n Hn Hd Hl.
        destruct (decide (n ∈ names)) as [Hin|Hnin]; [by apply I4|].
        apply elem_of_cons in Hn as [->|Hn]; [|done].
        exists (fresh (dom th)), t.
        split; [rewrite I3 by (by left); apply lookup_insert_eq|].
        split; [apply I1, lookup_insert_eq|done].
    + destruct (Tensor_load_None _ _ _ _ _ _ _ Eload) as (-> & -> & Hbad).
      destruct (IH _ _ _ _ _ _ _ _ Hloop) as (I1 & I2 & I3 & I4).
      split; [done|]. split; [done|]. split.
      * intros n Hn. apply I3.
        destruct (decide (n = fname)) as [->|Hne]; [by right; right|].
        destruct Hn as [Hn|Hn]; [|by right].
        left. intros Hin. apply Hn. by right.
      * intros n Hn Hd Hl. apply I4; [|done..].
        apply elem_of_cons in Hn as [->|Hn]; [done|done].
Qed.

(** X29.  [Graph::loadTensors] over the names [scandir] has found: a
    name that starts with a dot, a name whose file [Tensor::load] refuses
    and every name that is not in the directory keep the registry entry
    they had; every other name of the directory is registered to a live
    tensor that carries this name, of type float32 or float16, with at most
    8 axes.  The nodes of the graph, the tensors and the storages that
    existed are untouched, no storage that existed becomes or ceases to be
    a mapping, and when [scandir] fails nothing changes. *)
Theorem loadTensors_post (path : string) (namelist : option (list string))
    (g g' : Graph) (fs : files) (th th' : theap) (sh sh' : sheap)
    (mm mm' : mmaps) :
  loadTensors path namelist g fs th sh mm = (g', th', sh', mm') ->
  nodes_ g' = nodes_ g /\
  (forall l t, th !! l = Some t -> th' !! l = Some t) /\
  (forall l s, sh !! l = Some s -> sh' !! l = Some s /\ mm' !! l = mm !! l) /\
  (namelist = None -> g' = g /\ th' = th /\ sh' = sh /\ mm' = mm) /\
  (forall names n, namelist = Some names ->
     n ∉ names \/ starts_with_dot n = true \/ ~ loadable (filepath path n) fs ->
     tensors_ g' !! n = tensors_ g !! n) /\
  (forall names n, namelist = Some names ->
     n ∈ names -> starts_with_dot n = false -> loadable (filepath path n) fs ->
     exists l t, tensors_ g' !! n = Some (Some l) /\ th' !! l = Some t /\
                 name_ t = Some n /\ on_disk (data_type_ t) /\
                 (length (dims_ t) <= 8)%nat).
Proof.
  unfold loadTensors. intros Hload. destruct namelist as [names|].
  - destruct (loadTensors_loop (reverse names) path (tensors_ g) fs th sh mm)
      as [[[tensors th1] sh1] mm1] eqn:Eloop.
    injection Hload as <- <- <- <-.
    destruct (loadTensors_loop_post _ _ _ _ _ _ _ _ _ _ _ Eloop)
      as (I1 & I2 & I3 & I4).
    split; [done|]. split; [done|]. split; [done|]. split; [discriminate|].
    split.
    + intros names' n [= <-] Hn. cbn [tensors_]. apply I3.
      destruct Hn as [Hn|Hn]; [|by right].
      left. by rewrite elem_of_reverse.
    + intros names' n [= <-] Hn Hd Hl. cbn [tensors_]. apply I4; [|done..].
      by rewrite elem_of_reverse.
  - injection Hload as <- <- <- <-.
    split; [done|]. split; [done|]. split; [done|]. split; [done|].
    split; intros names n; discriminate.
Qed.

(** the directory holds [.], [..] and the file [t] *)
Lemma loadTensors_post_witness :
  exists g' th' sh' mm' l t,
    loadTensors "dir" (Some ["."; ".."; "t"]%string) (mkGraph [] ∅) dir_files ∅ ∅ ∅
    = (g', th', sh', mm') /\
    tensors_ g' !! "t"%string = Some (Some l) /\ th' !! l = Some t /\
    tensors_ g' !! "."%string = None.
Proof.
  destruct (loadTensors "dir" (Some ["."; ".."; "t"]%string) (mkGraph [] ∅)
              dir_files ∅ ∅ ∅) as [[[g' th'] sh'] mm'] eqn:E.
  destruct (loadTensors_post "dir" (Some ["."; ".."; "t"]%string) (mkGraph [] ∅)
              g' dir_files ∅ th' ∅ sh' ∅ mm' E)
    as (_ & _ & _ & _ & Hkeep & Hreg).
  destruct (Hreg ["."; ".."; "t"]%string "t"%string eq_refl)
    as (l & t & Hl & Ht & _).
  - right; right; left.
  - reflexivity.
  - unfold loadable. vm_compute. discriminate.
  - exists g', th', sh', mm', l, t. split; [reflexivity|]. split; [exact Hl|].
    split; [exact Ht|].
    rewrite (Hkeep ["."; ".."; "t"]%string "."%string eq_refl); [reflexivity|].
    right; left. reflexivity.
Defined.

(** ** Saved tensors load again *)

Section SaveThenLoad.
Context `{Scalars}.

(** the files a successful [saveTensors] loop leaves, when no two entries
    share a path *)
Lemma saveTensors_loop_files (path : string) (th : theap) (mm : mmaps)
    (entries : list (string * ptr)) :
  forall sh fs fs' sh',
  saveTensors_loop entries path th sh mm fs = Ok (true, fs', sh') ->
  NoDup ((fun it : string * ptr => filepath path it.1) <$> entries) ->
  forall n p, (n, p) ∈ entries ->
    exists t type payload,
      deref th p = Ok t /\
      ((type = TENSOR_DISK_FLOAT /\ data_type_ t = FLOAT) \/
       (type = TENSOR_DISK_HALF /\ data_type_ t = HALF)) /\
      fs' !! filepath path n
      = Some (magic ++ le_encode 4 type
              ++ le_encode 4 (Int.to_uint32 (Z.of_nat (length (dims_ t))))
              ++ flat_map (fun d => le_encode 4 (Int.to_uint32 d))
                   (take (Z.to_nat (Int.to_uint32 (Z.of_nat (length (dims_ t)))))
                         (dims_ t))
              ++ payload).
Proof.
  induction entries as [|[n0 p0] entries IH];
    intros sh fs fs' sh' Hsave Hnd n p Hin;
    [by apply elem_of_nil in Hin|].
  cbn [saveTensors_loop fst snd] in Hsave.
  destruct (deref th p0) as [t|] eqn:Ht; [|discriminate].
  cbn [mbind result_bind] in Hsave.
  destruct (Tensor_save t (filepath path n0) sh mm fs)
    as [[[saved fs1] sh1]|] eqn:Es; [|discriminate].
  cbn [mbind result_bind] in Hsave.
  destruct saved; [|apply Ok_inj in Hsave; discriminate].
  destruct (Tensor_save_file t _ sh mm fs fs1 sh1 Es)
    as (Hne & type & payload & Htype & ->).
  cbn [fmap list_fmap fst] in Hnd. apply NoDup_cons in Hnd as [Hfirst Hnd].
  apply elem_of_cons in Hin as [[= -> ->]|Hin]; [|by eapply IH].
  exists t, type, payload. split; [done|]. split; [done|].
  destruct (saveTensors_loop_post path th mm entries _ _ _ _ Hsave)
    as (_ & _ & Hframe & _).
  rewrite Hframe; [apply lookup_insert_eq|].
  intros n p Hin E. apply Hfirst. rewrite E.
  by apply (list_elem_of_fmap_2 (fun it : string * ptr => filepath path it.1)
              entries (n, p)).
Qed.

(** X30.  What [Graph::saveTensors] has written, [Tensor::load] accepts:
    after a successful [saveTensors] on a registry whose names lead to
    distinct paths, the file of every registered tensor with at most 8 axes
    and dimensions below [2^32] is loaded as a tensor of the same data type
    and the same shape. *)
Theorem saveTensors_then_load (g : Graph) (path : string) (th : theap)
    (sh sh' : sheap) (mm : mmaps) (fs fs' : files) :
  saveTensors g path th sh mm fs = Ok (true, fs', sh') ->
  (forall n1 n2, is_Some (tensors_ g !! n1) -> is_Some (tensors_ g !! n2) ->
                 filepath path n1 = filepath path n2 -> n1 = n2) ->
  forall n p t,
    tensors_ g !! n = Some p -> deref th p = Ok t ->
    (length (dims_ t) <= 8)%nat ->
    Forall (fun d => 0 <= d < 2 ^ 32) (dims_ t) ->
    loadable (filepath path n) fs' /\
    forall name h0 mm0, exists L h' mm',
      Tensor_load (filepath path n) name fs' h0 mm0 = (Some L, h', mm') /\
      data_type_ L = data_type_ t /\ dims_ L = dims_ t /\ name_ L = name.
Proof.
  unfold saveTensors. intros Hsave Hinj n p t Hn Ht Hrank Hdims.
  assert (Hnd : NoDup ((fun it : string * ptr => filepath path it.1)
                         <$> map_to_list (tensors_ g))).
  { apply NoDup_fmap_2_strong; [|apply NoDup_map_to_list].
    intros [n1 p1] [n2 p2] H1 H2 E. cbn [fst] in E.
    apply elem_of_map_to_list in H1, H2.
    assert (n1 = n2) as -> by (apply Hinj; [by eexists..|done]).
    congruence. }
  destruct (saveTensors_loop_files path th mm _ _ _ _ _ Hsave Hnd n p)
    as (t' & type & payload & Ht' & Htype & Hfile);
    [by apply elem_of_map_to_list|].
  assert (t' = t) as -> by congruence.
  rewrite to_uint32_id, Nat2Z.id, firstn_all, flat_map_encode_uint32 in Hfile
    by (done || lia).
  assert (Hload : forall name h0 mm0,
            Tensor_load (filepath path n) name fs' h0 mm0
            = (Some (Tensor_new (data_type_ t) (dims_ t) name
                       (MappedTensor (computeCPUStrides (dims_ t))
                          (fresh (dom h0)) 0)),
               <[fresh (dom h0) :=
                   mkStorage (data_type_ t)
                     (cells_of_bytes (Z.to_nat (DataTypeSize (data_type_ t)))
                        payload)]> h0,
               <[fresh (dom h0) :=
                   mkMapping (filepath path n)
                     (16 + 4 * length (dims_ t) + length payload)
                     (16 + 4 * length (dims_ t))]> mm0)).
  { intros name h0 mm0.
    by apply Tensor_load_spec with (type := type). }
  split.
  - unfold loadable. by rewrite Hload.
  - intros name h0 mm0. eexists _, _, _. split; [apply Hload|]. done.
Qed.

End SaveThenLoad.

Lemma saveTensors_then_load_witness :
  exists fs' sh' L h' mm',
    @saveTensors integer_scalars saved_graph "dir" saved_theap grid_heap ∅ ∅
    = Ok (true, fs', sh') /\
    Tensor_load "dir/t" None fs' ∅ ∅ = (Some L, h', mm') /\
    dims_ L = [2; 3].
Proof.
  destruct (@saveTensors integer_scalars saved_graph "dir" saved_theap grid_heap ∅ ∅)
    as [[[b fs'] sh']|] eqn:E; [|vm_compute in E; discriminate].
  assert (b = true) as ->.
  { vm_compute in E. by injection E as <- _ _. }
  destruct (@saveTensors_then_load integer_scalars saved_graph "dir" saved_theap
              grid_heap sh' ∅ ∅ fs' E) with (n := "t"%string) (p := Some 1%positive)
              (t := grid_tensor) as [_ Hload].
  - intros n1 n2 [p1 H1] [p2 H2] _.
    cbn [tensors_ saved_graph] in H1, H2.
    apply lookup_singleton_Some in H1 as [<- _].
    apply lookup_singleton_Some in H2 as [<- _]. reflexivity.
  - reflexivity.
  - reflexivity.
  - simpl. lia.
  - repeat constructor; lia.
  - destruct (Hload None ∅ ∅) as (L & h' & mm' & EL & _ & Hd & _).
    exists fs', sh', L, h', mm'. split; [reflexivity|]. split; [exact EL|exact Hd].
Defined.
